(** * solaSphere: wagering ledger and settlement engine

    A shallow embedding of the two [GameService] implementations of the
    repository and of the deposit reconciliation task:

    - the transactional service (the [GameService] class that follows
      [UserGateway] in [src/user/user.gateway.ts]), module [Transactional];
    - the non-transactional service ([src/game/game.serivce.ts]), module
      [NonTransactional], and its runs, in which the settlement of a game
      lands after the [join] that started it has returned, module
      [NonTransactionalRuns];
    - [TasksService.checkDeposits] ([src/tasks/tasks.service.ts]), module
      [Tasks], and the cron handler that starts it
      ([src/tasks/tasks.controller.ts]), module [TaskController];
    - the queries of the two services ([findById], [findByUserId],
      [findByUserPublicKey], [getActive], [getLastEnded]), modules
      [TransactionalQueries] and [NonTransactionalQueries];
    - the rooms of [UserGateway] ([src/user/user.gateway.ts]), module
      [UserGatewayRooms];
    - [AssociatedKeypairService]
      ([src/associatedKeypair/associatedKeypair.service.ts]), module
      [AssociatedKeypairService].

    JavaScript numbers are IEEE-754 doubles.  A finite double is embedded as
    the rational it denotes ([Q]), and [*], [/], [+] and [-] on numbers as the
    exact operation followed by the rounding to the nearest double, ties to
    even ([Js.fl]); comparisons and [Math.round] are exact on doubles.  [NaN],
    the infinities, the sign of zero and the overflow past 2^1024 are outside
    the model.  Equalities between amounts are stated with [==].  Moves,
    user ids and game ids are non-negative whole numbers ([nat]). *)

From Stdlib Require Import QArith Qround Qabs Qpower String DecimalString Lia Lqa.
From stdpp Require Import gmap strings list fin_maps functions sorting.

Local Open Scope Q_scope.

(** ** JavaScript primitives used by the services *)

Module Js.

(** *** Numbers

    The nearest integer to a rational, halves to the even neighbour. *)
Definition round_half_even (x : Q) : Z :=
  let q := Qfloor x in
  match Qcompare (x - inject_Z q) (1 # 2) with
  | Lt => q
  | Gt => (q + 1)%Z
  | Eq => if Z.even q then q else (q + 1)%Z
  end.

(** The binary exponent of a positive rational: the [k] with
    2^k <= x < 2^(k+1). *)
Definition exponent (x : Q) : Z :=
  let k := (Z.log2 (Z.abs (Qnum x)) - Z.log2 (Zpos (Qden x)))%Z in
  if Qle_bool (2 ^ k) (Qabs x) then k else (k - 1)%Z.

(** The double nearest to a positive rational: 53 significant bits, the
    last of which weighs at least 2^-1074 (the subnormal numbers). *)
Definition nearest (x : Q) : Q :=
  let e := Z.max (exponent x - 52) (-1074) in
  inject_Z (round_half_even (x / 2 ^ e)) * 2 ^ e.

(** Rounding to the nearest double, ties to even. *)
Definition fl (x : Q) : Q :=
  match Qcompare x 0 with
  | Eq => 0
  | Gt => nearest x
  | Lt => - nearest (- x)
  end.

(** [x + y], [x - y], [x * y] and [x / y] on numbers. *)
Definition add (x y : Q) : Q := fl (x + y).
Definition sub (x y : Q) : Q := fl (x - y).
Definition mul (x y : Q) : Q := fl (x * y).
Definition div (x y : Q) : Q := fl (x / y).

(** [x < y] on numbers. *)
Definition lt (x y : Q) : bool := negb (Qle_bool y x).

(** [Math.round]: the nearest integer, halves rounded up. *)
Definition Math_round (x : Q) : Q := inject_Z (Qfloor (x + (1 # 2))).

(** *** Strings and arrays *)

(** [String(n)] for a non-negative integer. *)
Definition to_string (n : nat) : string :=
  NilEmpty.string_of_uint (Nat.to_uint n).

(** [[a, b].sort()] on two non-negative integers: without a comparator the
    elements are ordered by their string forms, code unit by code unit; the
    sort is stable. *)
Definition sort2 (a b : nat) : nat * nat :=
  if String.ltb (to_string b) (to_string a) then (b, a) else (a, b).

(** [Math.max(...elems)] on a non-empty array of non-negative integers. *)
Definition Math_max (elems : list nat) : nat := foldr Nat.max 0%nat elems.

(** Arrays are heap objects: an array literal allocates a fresh reference
    and [===] between two arrays compares the references, not the
    elements. *)
Definition ref := nat.

Record heap := Heap { next_ref : ref; cells : list (ref * list nat) }.

Definition alloc (elems : list nat) (h : heap) : ref * heap :=
  (next_ref h, Heap (S (next_ref h)) ((next_ref h, elems) :: cells h)).

Definition strict_eq_ref (r1 r2 : ref) : bool := Nat.eqb r1 r2.

Definition read (r : ref) (h : heap) : list nat :=
  match List.find (λ c, Nat.eqb (fst c) r) (cells h) with
  | Some c => snd c
  | None => []
  end.

End Js.

(** ** Data model shared by both services *)

Definition UserId := nat.
Definition GameId := nat.

(** The values the [status] string of a game takes in the sources. *)
Inductive Status := active | joined | ended | cancelled.

#[global] Instance Status_eq_dec : EqDecision Status.
Proof. solve_decision. Defined.

(** The failures of the services.  Each is an [HttpException] with status
    [FORBIDDEN] in the sources; the constructors carry the names the
    specification gives to the error kinds (section 7). *)
Inductive error :=
| InsufficientFunds        (* changeBalance: the balance would become negative *)
| InsufficientBalance      (* 'Balance needs to be higher than the game bet ...' *)
| ActiveGameLimitExceeded  (* "You can't have more than 5 active games" *)
| GameNotFound             (* 'Game does not exists' *)
| GameNotActive            (* 'You can join only active games',
                              'You can cancel only active game' *)
| SelfJoinForbidden        (* 'You can not join your own game' *)
| NotOwner                 (* 'You can not cancel another person`s game' *)
| SettlementFailure        (* the catch block of a transaction:
                              'Failed to create a game', 'Failed to join a game',
                              'Failed to cancel a game' *)
| TypeError.               (* a dereference of undefined *)

Inductive outcome (A : Type) :=
| Ok (a : A)
| Err (e : error).
Arguments Ok {A} a.
Arguments Err {A} e.

(** Events handed to the socket gateways. *)
Inductive Event (G : Type) :=
| BalanceChange (user : UserId) (balance : Q) (fromDeposit : bool)
| NewGame (id : GameId) (game : G)
| GameUpdate (id : GameId) (game : G).
Arguments BalanceChange {G} user balance fromDeposit.
Arguments NewGame {G} id game.
Arguments GameUpdate {G} id game.

Definition is_BalanceChange {G} (e : Event G) : bool :=
  match e with BalanceChange _ _ _ => true | _ => false end.

(** The persistent store (the [users] and [games] collections) together with
    the trace of events emitted so far. *)
Record Store (G : Type) := MkStore {
  balances : UserId → Q;
  games : gmap GameId G;
  events : list (Event G)
}.
Arguments MkStore {G} balances games events.
Arguments balances {G} s.
Arguments games {G} s.
Arguments events {G} s.

(** ** A state and exception monad for the [async] service methods *)

Definition M (G A : Type) : Type := Store G → outcome A * Store G.

#[global] Instance M_ret {G} : MRet (M G) := λ A a σ, (Ok a, σ).

#[global] Instance M_bind {G} : MBind (M G) := λ A B k m σ,
  match m σ with
  | (Ok a, σ') => k a σ'
  | (Err e, σ') => (Err e, σ')
  end.

Definition throw {G A} (e : error) : M G A := λ σ, (Err e, σ).

Definition emit {G} (e : Event G) : M G unit :=
  λ σ, (Ok tt, MkStore (balances σ) (games σ) (events σ ++ [e])).

(** [game.save()]. *)
Definition save {G} (id : GameId) (game : G) : M G unit :=
  λ σ, (Ok tt, MkStore (balances σ) (<[id := game]> (games σ)) (events σ)).

(** A MongoDB session: [startTransaction] ... [commitTransaction], and in the
    [catch] block [abortTransaction] followed by a fresh [HttpException].
    Aborting undoes the writes to the collections; what was already sent to
    the sockets stays sent. *)
Definition transaction {G A} (body : M G A) (failure : error) : M G A :=
  λ σ, match body σ with
       | (Ok a, σ') => (Ok a, σ')
       | (Err _, σ') => (Err failure, MkStore (balances σ) (games σ) (events σ'))
       end.

(** [await Promise.all([p1, p2, ...])]: every call of the array literal is
    started, in order, and runs whether or not another one fails; the first
    failure, if any, is what the [await] throws. *)
Fixpoint Promise_all {G} (calls : list (M G unit)) : M G unit :=
  match calls with
  | [] => mret tt
  | call :: calls =>
      λ σ, match call σ with
           | (Ok _, σ') => Promise_all calls σ'
           | (Err e, σ') => (Err e, snd (Promise_all calls σ'))
           end
  end.

(** A call whose promise is not awaited: its effects happen, its failure is
    not seen by the caller. *)
Definition detached {G} (call : M G unit) : M G unit :=
  λ σ, (Ok tt, snd (call σ)).

(** [try { body } catch (e) { throw failure }]. *)
Definition try_catch {G A} (body : M G A) (failure : error) : M G A :=
  λ σ, match body σ with
       | (Ok a, σ') => (Ok a, σ')
       | (Err _, σ') => (Err failure, σ')
       end.

(** ** The user gateway ([UserGateway] in [src/user/user.gateway.ts]) *)

Module UserGateway.

(** [balanceChangeNotify(_id, balance, fromDeposit = false)]: the event
    ['balanceChange'] is emitted to the socket room of the user. *)
Definition balanceChangeNotify {G} (_id : UserId) (balance : Q) (fromDeposit : bool)
  : M G unit :=
  emit (BalanceChange _id balance fromDeposit).

End UserGateway.

(** ** The ledger *)

Module UserService.

(** Modelled from the spec: [UserService.changeBalance] ([src/user/user.service.ts]
    is not among the sources).  Section 4.1: the signed amount is added to the
    user's balance; the call fails with [InsufficientFunds], changing nothing,
    if the result would be negative; on success the new balance is persisted
    and, if [notify] is true, a balance-changed event carrying the new balance
    is emitted through [UserGateway.balanceChangeNotify], whose [fromDeposit]
    flag keeps its default for calls that do not come from the deposit
    reconciler.

    This is the version of the method the non-transactional service calls,
    with the notification flag as third argument.  That service debits and
    credits whole numbers only, the stake and a payout that went through
    [Math.round]: on whole numbers below 2^53 the sum of two doubles is the
    exact sum (lemma [Js_add_whole]), which is what is written here. *)
Definition changeBalance {G} (user : UserId) (amount : Q) (notify : bool) : M G unit :=
  λ σ, let balance := balances σ user + amount in
       if Js.lt balance 0 then (Err InsufficientFunds, σ)
       else
         let σ' := MkStore (<[user := balance]> (balances σ)) (games σ) (events σ) in
         if notify then UserGateway.balanceChangeNotify user balance false σ'
         else (Ok tt, σ').

End UserService.

(** ** The transactional service ([GameService] in [src/user/user.gateway.ts]) *)

Module Transactional.

Record Game := MkGame {
  amount : Q;
  creator : UserId;
  creatorMove : nat;
  opponent : option UserId;
  opponentMove : option nat;
  status : Status;
  winner : option UserId;
  endedAt : option nat
}.

Record CreateGameDto := { dto_amount : Q; dto_creatorMove : nat }.
Record JoinGameDto := { gameId : GameId; move : nat }.
Record Options := { disableNotification : bool }.

Definition no_options : Options := {| disableNotification := false |}.

Definition GAME_FEE : Q := 4.

(** Modelled from the spec: [userService.changeBalance(user, amount, options)],
    the version of the ledger this service calls ([src/user/user.service.ts]
    is not among the sources).  Section 4.1, as for [UserService.changeBalance];
    the third argument is an options object, [{ disableNotification: true }]
    suppressing the balance-changed event.  The sums this service debits and
    credits carry the fee and are not whole numbers: the new balance is the
    sum as the processor computes it, the double nearest to
    [balance + amount]. *)
Definition changeBalance (user : UserId) (amount : Q) (options : Options) : M Game unit :=
  λ σ, let balance := Js.add (balances σ user) amount in
       if Js.lt balance 0 then (Err InsufficientFunds, σ)
       else
         let σ' := MkStore (<[user := balance]> (balances σ)) (games σ) (events σ) in
         if negb (disableNotification options)
         then UserGateway.balanceChangeNotify user balance false σ'
         else (Ok tt, σ').

(** [gameModel.count({ creator: userId, status: 'active' })]. *)
Definition userActiveCount (userId : UserId) (σ : Store Game) : nat :=
  size (filter (λ kv : GameId * Game, creator kv.2 = userId ∧ status kv.2 = active) (games σ)).

(** [new this.gameModel(createGameDto)] followed by the two assignments of
    [create]; the schema default of [status] is ['active']. *)
Definition newGame (user : UserId) (dto : CreateGameDto) : Game :=
  {| amount := dto_amount dto; creator := user; creatorMove := dto_creatorMove dto;
     opponent := None; opponentMove := None; status := active;
     winner := None; endedAt := None |}.

Definition create (user : UserId) (createGameDto : CreateGameDto) : M Game unit := λ σ,
  let payAmount := Js.mul (dto_amount createGameDto) (Js.add 1 (Js.div GAME_FEE 100)) in
  if Js.lt (balances σ user) payAmount then (Err InsufficientBalance, σ)
  else if (5 <=? userActiveCount user σ)%nat then (Err ActiveGameLimitExceeded, σ)
  else
    transaction
      (let id := fresh (dom (games σ)) in
       let newGame := newGame user createGameDto in
       changeBalance user (- payAmount) no_options;;
       save id newGame;;
       emit (NewGame id newGame))
      SettlementFailure σ.

(** The choice that wins between two different moves, as computed in the
    [else] branch of [pickWinner]. *)
Definition winningChoice (creatorMove opponentMove : nat) : nat :=
  let moves := Js.sort2 creatorMove opponentMove in
  if (moves.1 =? 0)%nat && (moves.2 =? 2)%nat then 0%nat else moves.2.

Definition set_winner (game : Game) (winner : UserId) : Game :=
  {| amount := amount game; creator := creator game; creatorMove := creatorMove game;
     opponent := opponent game; opponentMove := opponentMove game; status := status game;
     winner := Some winner; endedAt := endedAt game |}.

Definition set_status (game : Game) (status' : Status) : Game :=
  {| amount := amount game; creator := creator game; creatorMove := creatorMove game;
     opponent := opponent game; opponentMove := opponentMove game; status := status';
     winner := winner game; endedAt := endedAt game |}.

(** The four assignments at the head of the [try] block of [join]. *)
Definition set_joined (game : Game) (user : UserId) (move : nat) (now : nat) : Game :=
  {| amount := amount game; creator := creator game; creatorMove := creatorMove game;
     opponent := Some user; opponentMove := Some move; status := ended;
     winner := winner game; endedAt := Some now |}.

Definition silent : Options := {| disableNotification := true |}.

(** [pickWinner(game)].  The document is mutated in place ([game.winner])
    and shared with the caller, so the updated document is returned.  [join]
    sets [opponent] and [opponentMove] before the call; on a document where
    one of them is still undefined the call is modelled as a thrown
    [TypeError]. *)
Definition pickWinner (id : GameId) (game : Game) : M Game Game :=
  match opponent game, opponentMove game with
  | Some opponent, Some opponentMove =>
      let creator := creator game in
      if (creatorMove game =? opponentMove)%nat then
        changeBalance creator
          (Js.mul (amount game) (Js.add 1 (Js.div GAME_FEE 100))) silent;;
        changeBalance opponent
          (Js.mul (amount game) (Js.add 1 (Js.div GAME_FEE 100))) silent;;
        save id game;;
        mret game
      else
        let winner :=
          if (creatorMove game =? winningChoice (creatorMove game) opponentMove)%nat
          then creator else opponent in
        let game := set_winner game winner in
        changeBalance winner (Js.mul (amount game) 2) silent;;
        save id game;;
        mret game
  | _, _ => throw TypeError
  end.

(** [join(joinGameDto, user)]; [now] is the reading of [Date.now()]. *)
Definition join (joinGameDto : JoinGameDto) (user : UserId) (now : nat) : M Game unit := λ σ,
  match games σ !! gameId joinGameDto with
  | None => (Err GameNotFound, σ)
  | Some game =>
      if negb (bool_decide (status game = active)) then (Err GameNotActive, σ)
      else
        let payAmount := Js.mul (amount game) (Js.add 1 (Js.div GAME_FEE 100)) in
        if Js.lt (balances σ user) payAmount then (Err InsufficientBalance, σ)
        else if (user =? creator game)%nat then (Err SelfJoinForbidden, σ)
        else
          transaction
            (let game := set_joined game user (move joinGameDto) now in
             changeBalance user (- payAmount) no_options;;
             game ← pickWinner (gameId joinGameDto) game;
             emit (GameUpdate (gameId joinGameDto) game))
            SettlementFailure σ
  end.

(** [cancel(gameIdDto, user)]. *)
Definition cancel (gameIdDto : GameId) (user : UserId) : M Game unit := λ σ,
  match games σ !! gameIdDto with
  | None => (Err GameNotFound, σ)
  | Some game =>
      if negb (user =? creator game)%nat then (Err NotOwner, σ)
      else if negb (bool_decide (status game = active)) then (Err GameNotActive, σ)
      else
        transaction
          (let game := set_status game cancelled in
           save gameIdDto game;;
           changeBalance user
             (Js.mul (amount game) (Js.add 1 (Js.div GAME_FEE 100))) no_options;;
           emit (GameUpdate gameIdDto game))
          SettlementFailure σ
  end.

End Transactional.

(** The status values of the specification. *)
Definition status_valid (s : Status) : Prop := s = active ∨ s = ended ∨ s = cancelled.

(** A status moves only from [active] to [ended] or [cancelled]. *)
Definition status_advances (s s' : Status) : Prop :=
  s' = s ∨ (s = active ∧ (s' = ended ∨ s' = cancelled)).

(** Crediting (or, with a negative amount, debiting) a user on the ledger
    of the non-transactional service. *)
Definition credit (balances : UserId → Q) (c : UserId * Q) : UserId → Q :=
  <[c.1 := balances c.1 + c.2]> balances.

(** ** What the transactional service leaves behind

    Closed descriptions of the stores and documents its methods produce; the
    lemmas of [TransactionalProofs] show that the methods compute them. *)

Module TransactionalOutcomes.
Import Transactional.

(** The sum [create] and [join] name [payAmount], which [pickWinner] refunds
    on a tie and [cancel] gives back: [amount * (1 + GAME_FEE / 100)], three
    operations on doubles. *)
Definition payAmount (amount : Q) : Q :=
  Js.mul amount (Js.add 1 (Js.div GAME_FEE 100)).

(** Crediting (or, with a negative amount, debiting) a user on the ledger
    of this service: the new balance is the double sum. *)
Definition credit (balances : UserId → Q) (c : UserId * Q) : UserId → Q :=
  <[c.1 := Js.add (balances c.1) c.2]> balances.

(** The store a successful [create] leaves behind. *)
Definition created (user : UserId) (dto : CreateGameDto) (σ : Store Game) : Store Game :=
  let payAmount := payAmount (dto_amount dto) in
  let id := fresh (dom (games σ)) in
  MkStore (<[user := Js.add (balances σ user) (- payAmount)]> (balances σ))
          (<[id := newGame user dto]> (games σ))
          ((events σ ++ [BalanceChange user (Js.add (balances σ user) (- payAmount)) false])
             ++ [NewGame id (newGame user dto)]).

(** The winner [pickWinner] selects, if any. *)
Definition selected (creator opponent : UserId) (creatorMove opponentMove : nat)
  : option UserId :=
  if (creatorMove =? opponentMove)%nat then None
  else if (creatorMove =? winningChoice creatorMove opponentMove)%nat
       then Some creator else Some opponent.

(** The credits [pickWinner] applies, in order. *)
Definition credits (game : Game) (opponent : UserId) (opponentMove : nat)
  : list (UserId * Q) :=
  match selected (creator game) opponent (creatorMove game) opponentMove with
  | None => [(creator game, payAmount (amount game));
             (opponent, payAmount (amount game))]
  | Some winner => [(winner, Js.mul (amount game) 2)]
  end.

(** The document [pickWinner] saves. *)
Definition settled_game (game : Game) (user : UserId) (move now : nat) : Game :=
  match selected (creator game) user (creatorMove game) move with
  | None => set_joined game user move now
  | Some winner => set_winner (set_joined game user move now) winner
  end.

(** The store a successful [join] leaves behind. *)
Definition settled (dto : JoinGameDto) (user : UserId) (now : nat) (game : Game)
    (σ : Store Game) : Store Game :=
  let payAmount := payAmount (amount game) in
  let debited := <[user := Js.add (balances σ user) (- payAmount)]> (balances σ) in
  let game' := settled_game game user (move dto) now in
  MkStore (foldl credit debited (credits game user (move dto)))
          (<[gameId dto := game']> (games σ))
          ((events σ ++ [BalanceChange user (Js.add (balances σ user) (- payAmount)) false])
             ++ [GameUpdate (gameId dto) game']).

(** The store a successful [cancel] leaves behind. *)
Definition refunded (id : GameId) (user : UserId) (game : Game) (σ : Store Game)
  : Store Game :=
  let payAmount := payAmount (amount game) in
  MkStore (<[user := Js.add (balances σ user) payAmount]> (balances σ))
          (<[id := set_status game cancelled]> (games σ))
          ((events σ ++ [BalanceChange user (Js.add (balances σ user) payAmount) false])
             ++ [GameUpdate id (set_status game cancelled)]).

(** The rule of section 4.2a in the words of the specification: between two
    different moves the higher ordinal wins, except that 0 wins against 2.
    [beats a b] holds when move [a] wins against move [b]. *)
Definition beats (a b : nat) : bool :=
  match a, b with
  | 0%nat, 2%nat => true
  | 2%nat, 0%nat => false
  | _, _ => (b <? a)%nat
  end.

(** The payout of a decisive game in the words of the specification,
    section 4.2a: amount × 2 × (1 − fee), rounded to an integer. *)
Definition spec_payout (amount : Q) : Q :=
  Js.Math_round (amount * 2 * (1 - GAME_FEE / 100)).

(** The calls a client can make on the service, and the store each leaves
    behind whatever its outcome. *)
Inductive Call :=
| Create (user : UserId) (createGameDto : CreateGameDto)
| Join (joinGameDto : JoinGameDto) (user : UserId) (now : nat)
| Cancel (gameIdDto : GameId) (user : UserId).

Definition exec (c : Call) : M Game unit :=
  match c with
  | Create user createGameDto => create user createGameDto
  | Join joinGameDto user now => join joinGameDto user now
  | Cancel gameIdDto user => cancel gameIdDto user
  end.

Definition step (σ σ' : Store Game) : Prop := ∃ c, (exec c σ).2 = σ'.

End TransactionalOutcomes.

(** ** The non-transactional service ([src/game/game.serivce.ts]) *)

Module NonTransactional.

Record Game := MkGame {
  amount : Q;
  creator : UserId;
  creatorMove : nat;
  opponent : option UserId;
  opponentMove : option nat;
  status : Status;
  winner : option UserId;
  fee : Q;
  endedAt : option nat
}.

Record CreateGameDto := { dto_amount : Q; dto_creatorMove : nat }.
Record JoinGameDto := { gameId : GameId; move : nat }.

(** [userService.changeBalance(user, amount, notify)]: this version of the
    ledger takes the notification flag itself, true when left out. *)
Definition changeBalance (user : UserId) (amount : Q) (notify : bool) : M Game unit :=
  UserService.changeBalance user amount notify.

Definition userActiveCount (userId : UserId) (σ : Store Game) : nat :=
  size (filter (λ kv : GameId * Game, creator kv.2 = userId ∧ status kv.2 = active) (games σ)).

Definition set_winner (game : Game) (winner : UserId) : Game :=
  {| amount := amount game; creator := creator game; creatorMove := creatorMove game;
     opponent := opponent game; opponentMove := opponentMove game; status := status game;
     winner := Some winner; fee := fee game; endedAt := endedAt game |}.

Definition set_status (game : Game) (status' : Status) : Game :=
  {| amount := amount game; creator := creator game; creatorMove := creatorMove game;
     opponent := opponent game; opponentMove := opponentMove game; status := status';
     winner := winner game; fee := fee game; endedAt := endedAt game |}.

(** The three assignments of [join]. *)
Definition set_joined (game : Game) (user : UserId) (move : nat) : Game :=
  {| amount := amount game; creator := creator game; creatorMove := creatorMove game;
     opponent := Some user; opponentMove := Some move; status := joined;
     winner := winner game; fee := fee game; endedAt := endedAt game |}.

(** The two assignments at the head of [pickWinner]. *)
Definition set_ended (game : Game) (now : nat) : Game :=
  {| amount := amount game; creator := creator game; creatorMove := creatorMove game;
     opponent := opponent game; opponentMove := opponentMove game; status := ended;
     winner := winner game; fee := fee game; endedAt := Some now |}.

(** The [else] branch of [pickWinner] up to [winningChoice]:
    [moves === [0, 2] || moves === [2, 0]] compares the reference of
    [moves] with those of two array literals allocated on the spot. *)
Definition winningChoice (h : Js.heap) (creatorMove opponentMove : nat) : nat :=
  let '(moves, h) := Js.alloc [creatorMove; opponentMove] h in
  let '(lit02, h) := Js.alloc [0; 2]%nat h in
  if Js.strict_eq_ref moves lit02 then 0%nat
  else
    let '(lit20, h) := Js.alloc [2; 0]%nat h in
    if Js.strict_eq_ref moves lit20 then 0%nat
    else Js.Math_max (Js.read moves h).

(** [pickWinner(game)]; [h] is the heap of the process at the call and
    [now] the reading of [Date.now()].  As in the transactional service,
    a document whose [opponent] or [opponentMove] is undefined is modelled
    as a thrown [TypeError]; [join] sets both before the call. *)
Definition pickWinner (h : Js.heap) (id : GameId) (game : Game) (now : nat) : M Game unit :=
  let game := set_ended game now in
  match opponent game, opponentMove game with
  | Some opponent, Some opponentMove =>
      if (creatorMove game =? opponentMove)%nat then
        Promise_all [changeBalance (creator game) (amount game) true;
                     changeBalance opponent (amount game) true;
                     save id game];;
        emit (GameUpdate id game)
      else
        let winner :=
          if (creatorMove game =? winningChoice h (creatorMove game) opponentMove)%nat
          then creator game else opponent in
        let game := set_winner game winner in
        Promise_all [changeBalance winner
                       (Js.Math_round
                          (Js.mul (Js.mul (amount game) 2)
                                  (Js.div (Js.sub 100 (fee game)) 100))) false;
                     save id game];;
        emit (GameUpdate id game)
  | _, _ => throw TypeError
  end.

(** The part of [join] that is awaited, from the three assignments to
    [gameUpdateNotify]: the joiner is debited and the document is persisted
    and announced with the status ['joined']. *)
Definition joining (joinGameDto : JoinGameDto) (user : UserId) (game : Game)
  : M Game Game :=
  let game := set_joined game user (move joinGameDto) in
  Promise_all [changeBalance user (- amount game) true;
               save (gameId joinGameDto) game];;
  emit (GameUpdate (gameId joinGameDto) game);;
  mret game.

(** [join(joinGameDto, user)] together with the [pickWinner] it starts.  The
    final call of [pickWinner] is not awaited: the promise of [join] resolves
    when [joining] is over, with the status ['joined'] stored, and the
    settlement reaches the collections afterwards.  This definition runs the
    settlement to its end and so describes what a [join] causes; the store at
    the moment the call returns, and what other calls may do before the
    settlement lands, is the matter of [NonTransactionalRuns]. *)
Definition join (h : Js.heap) (joinGameDto : JoinGameDto) (user : UserId) (now : nat)
  : M Game unit := λ σ,
  match games σ !! gameId joinGameDto with
  | None => (Err GameNotFound, σ)
  | Some game =>
      if negb (bool_decide (status game = active)) then (Err GameNotActive, σ)
      else if Js.lt (balances σ user) (amount game) then (Err InsufficientBalance, σ)
      else if (user =? creator game)%nat then (Err SelfJoinForbidden, σ)
      else
        (game ← joining joinGameDto user game;
         detached (pickWinner h (gameId joinGameDto) game now)) σ
  end.

(** [cancel(gameIdDto, user)]. *)
Definition cancel (gameIdDto : GameId) (user : UserId) : M Game unit := λ σ,
  match games σ !! gameIdDto with
  | None => (Err GameNotFound, σ)
  | Some game =>
      if negb (user =? creator game)%nat then (Err NotOwner, σ)
      else if negb (bool_decide (status game = active)) then (Err GameNotActive, σ)
      else
        (let game := set_status game cancelled in
         Promise_all [changeBalance (creator game) (amount game) true;
                      save gameIdDto game];;
         emit (GameUpdate gameIdDto game)) σ
  end.

Section Create.

(** The default of the [fee] field (a percentage) in the game schema,
    [src/game/game.schema.ts], which is not among the sources. *)
Variable schema_fee : Q.

(** [new this.gameModel(createGameDto)] followed by the two assignments
    of [create]; the schema default of [status] is ['active']. *)
Definition newGame (user : UserId) (dto : CreateGameDto) : Game :=
  {| amount := dto_amount dto; creator := user; creatorMove := dto_creatorMove dto;
     opponent := None; opponentMove := None; status := active;
     winner := None; fee := schema_fee; endedAt := None |}.

Definition create (user : UserId) (createGameDto : CreateGameDto) : M Game unit := λ σ,
  if Js.lt (balances σ user) (dto_amount createGameDto) then (Err InsufficientBalance, σ)
  else if negb (userActiveCount user σ <? 5)%nat then (Err ActiveGameLimitExceeded, σ)
  else
    (let id := fresh (dom (games σ)) in
     let newGame := newGame user createGameDto in
     try_catch (changeBalance user (- dto_amount createGameDto) true) InsufficientBalance;;
     save id newGame;;
     emit (NewGame id newGame)) σ.

End Create.

End NonTransactional.

(** ** What the non-transactional service leaves behind *)

Module NonTransactionalOutcomes.
Import NonTransactional.

(** The winner [pickWinner] selects, if any. *)
Definition selected (h : Js.heap) (creator opponent : UserId)
    (creatorMove opponentMove : nat) : option UserId :=
  if (creatorMove =? opponentMove)%nat then None
  else if (creatorMove =? winningChoice h creatorMove opponentMove)%nat
       then Some creator else Some opponent.

(** The payout of a decisive game,
    [Math.round(amount * 2 * ((100 - fee) / 100))]: four operations on
    doubles, then the rounding to an integer. *)
Definition payout (amount fee : Q) : Q :=
  Js.Math_round (Js.mul (Js.mul amount 2) (Js.div (Js.sub 100 fee) 100)).

(** The credits [pickWinner] applies, in order. *)
Definition credits (h : Js.heap) (game : Game) (opponent : UserId) (opponentMove : nat)
  : list (UserId * Q) :=
  match selected h (creator game) opponent (creatorMove game) opponentMove with
  | None => [(creator game, amount game); (opponent, amount game)]
  | Some winner => [(winner, payout (amount game) (fee game))]
  end.

(** The document [pickWinner] saves. *)
Definition settled_game (h : Js.heap) (game : Game) (user : UserId) (move now : nat)
  : Game :=
  match selected h (creator game) user (creatorMove game) move with
  | None => set_ended (set_joined game user move) now
  | Some winner => set_winner (set_ended (set_joined game user move) now) winner
  end.

(** The calls a client can make on the service, each [join] taken with its
    settlement; [schema_fee] is the fee the deployment gives to new games,
    [h] the heap at the call. *)
Inductive Call :=
| Create (user : UserId) (createGameDto : CreateGameDto)
| Join (h : Js.heap) (joinGameDto : JoinGameDto) (user : UserId) (now : nat)
| Cancel (gameIdDto : GameId) (user : UserId).

Definition exec (schema_fee : Q) (c : Call) : M Game unit :=
  match c with
  | Create user createGameDto => create schema_fee user createGameDto
  | Join h joinGameDto user now => join h joinGameDto user now
  | Cancel gameIdDto user => cancel gameIdDto user
  end.

Definition step (schema_fee : Q) (σ σ' : Store Game) : Prop :=
  ∃ c, (exec schema_fee c σ).2 = σ'.

End NonTransactionalOutcomes.

(** In the non-transactional service a status moves from [active] to
    [joined] and on to [ended], or from [active] to [cancelled]. *)
Definition nt_status_advances (s s' : Status) : Prop :=
  s' = s ∨ (s = active ∧ (s' = joined ∨ s' = ended ∨ s' = cancelled)) ∨
  (s = joined ∧ s' = ended).

(** ** The non-transactional service between two calls

    [join] does not wait for the [pickWinner] it starts, so the next call of a
    client may find the game stored as ['joined'], the settlement still to
    come.  A state of the service is therefore the store together with the
    settlements that have been started and have not reached the collections
    yet. *)

Module NonTransactionalRuns.
Import NonTransactional.

(** [join(joinGameDto, user)] up to the moment its promise resolves: the four
    checks and the awaited part.  The result is the document, with the status
    ['joined'], that [pickWinner] is started with. *)
Definition join_returns (joinGameDto : JoinGameDto) (user : UserId) : M Game Game := λ σ,
  match games σ !! gameId joinGameDto with
  | None => (Err GameNotFound, σ)
  | Some game =>
      if negb (bool_decide (status game = active)) then (Err GameNotActive, σ)
      else if Js.lt (balances σ user) (amount game) then (Err InsufficientBalance, σ)
      else if (user =? creator game)%nat then (Err SelfJoinForbidden, σ)
      else joining joinGameDto user game σ
  end.

(** The store, and the settlements started and not yet run, each with the
    id and the document [pickWinner] was called with. *)
Record State := MkState {
  store : Store Game;
  started : list (GameId * Game)
}.

(** What a returning [join] leaves: on success one more settlement is
    started. *)
Definition joined_state (joinGameDto : JoinGameDto) (user : UserId) (s : State) : State :=
  match join_returns joinGameDto user (store s) with
  | (Ok game, σ') => MkState σ' (started s ++ [(gameId joinGameDto, game)])
  | (Err _, σ') => MkState σ' (started s)
  end.

(** One step of the service: a call of a client that runs until it returns,
    or one of the started settlements running to its end; [h] and [now] are
    the heap and the clock [pickWinner] finds. *)
Inductive step (schema_fee : Q) : State → State → Prop :=
| step_create (user : UserId) (createGameDto : CreateGameDto) (s : State) :
    step schema_fee s
      (MkState (create schema_fee user createGameDto (store s)).2 (started s))
| step_join (joinGameDto : JoinGameDto) (user : UserId) (s : State) :
    step schema_fee s (joined_state joinGameDto user s)
| step_cancel (gameIdDto : GameId) (user : UserId) (s : State) :
    step schema_fee s (MkState (cancel gameIdDto user (store s)).2 (started s))
| step_pickWinner (h : Js.heap) (now : nat) (id : GameId) (game : Game)
    (before after : list (GameId * Game)) (s : State) :
    started s = before ++ (id, game) :: after →
    step schema_fee s
      (MkState (pickWinner h id game now (store s)).2 (before ++ after)).

(** The started settlements are settlements of games stored as ['joined'],
    at most one for a game, each started with the stored document, on which
    [join] has set the opponent and the opponent's move. *)
Definition settling (s : State) : Prop :=
  NoDup (started s).*1 ∧
  (∀ id game, (id, game) ∈ started s →
     games (store s) !! id = Some game ∧ status game = joined ∧
     is_Some (opponent game) ∧ is_Some (opponentMove game)).

(** The document [pickWinner] stores, whatever becomes of the credits. *)
Definition settled_document (h : Js.heap) (game : Game) (opponent : UserId)
    (opponentMove now : nat) : Game :=
  match NonTransactionalOutcomes.selected h (creator game) opponent (creatorMove game)
          opponentMove with
  | None => set_ended game now
  | Some winner => set_winner (set_ended game now) winner
  end.

End NonTransactionalRuns.

(** ** Deposit reconciliation ([src/tasks/tasks.service.ts]) *)

Module Tasks.

(** [src/transaction/transaction.schema.ts]. *)
Inductive TransactionType := deposit | withdraw.
Inductive TransactionStatus := pending | confirmed.

#[global] Instance TransactionStatus_eq_dec : EqDecision TransactionStatus.
Proof. solve_decision. Defined.

Record Transaction := MkTransaction {
  owner : UserId;
  signature : string;
  type : TransactionType;
  status : TransactionStatus
}.

(** What one pass does to the outside: lines written to the logger and
    calls made on [TransactionService.confirmMany]. *)
Inductive Effect :=
| Log (line : string)
| ConfirmMany (batch : list Transaction).

Definition is_ConfirmMany (e : Effect) : bool :=
  match e with ConfirmMany _ => true | Log _ => false end.

Section TasksService.

(** The state [TransactionService] works on (collections, ledger,
    chain connection), with the transaction collection it holds. *)
Variable World : Type.
Variable transactions : World → list Transaction.

(** [TransactionService.confirmMany], a collaborator whose source is not
    among the sources: any state transformer. *)
Variable confirmMany : list Transaction → World → World.

(** Modelled from the spec: [TransactionService.getUnconfirmed]
    ([src/transaction/transaction.service.ts] is not among the sources).
    Section 4.3: it fetches all transaction records with status
    [pending]. *)
Definition getUnconfirmed (w : World) : list Transaction :=
  filter (λ t, status t = pending) (transactions w).

Definition checkDeposits (w : World) : list Effect * World :=
  let unConfirmedTransactions := getUnconfirmed w in
  let line :=
    (Js.to_string (length unConfirmedTransactions) ++ " unconfirmed transactions")%string in
  if (0 <? length unConfirmedTransactions)%nat
  then ([Log line; ConfirmMany unConfirmedTransactions],
        confirmMany unConfirmedTransactions w)
  else ([Log line], w).

End TasksService.

End Tasks.

(** ** The queries of the two services

    The read-only methods of both [GameService] classes are mongoose queries
    on the game collection.  Which fields of a matching document are loaded
    ([populate], [select('+creatorMove')]) is outside the model, whose
    documents carry every field and name users by their ids. *)

Module Query.

Section Query.

Context {G : Type}.

(** [gameModel.find(filter)]: the documents that match, each once, in no
    order the service relies on. *)
Definition find (P : G → Prop) `{!∀ game, Decision (P game)} (σ : Store G)
  : list (GameId * G) :=
  map_to_list (filter (λ kv : GameId * G, P kv.2) (games σ)).

(** [.sort({ updatedAt: -1 })]: most recently updated first.  The
    [updatedAt] stamp of a stored document is kept by mongoose (the
    [timestamps] option of the schema, which is not among the sources); it
    is a parameter here.  The order between two documents with the same
    stamp is not specified by the database; the model sorts stably. *)
Definition updatedAt_desc (updatedAt : GameId → nat) : relation (GameId * G) :=
  λ a b, (updatedAt b.1 ≤ updatedAt a.1)%nat.

#[global] Instance updatedAt_desc_dec (updatedAt : GameId → nat) :
  RelDecision (updatedAt_desc updatedAt) :=
  λ a b, decide (updatedAt b.1 ≤ updatedAt a.1)%nat.

Definition sort_updatedAt_desc (updatedAt : GameId → nat) (docs : list (GameId * G))
  : list (GameId * G) :=
  merge_sort (updatedAt_desc updatedAt) docs.

(** [.limit(n)]. *)
Definition limit (n : nat) (docs : list (GameId * G)) : list (GameId * G) :=
  take n docs.

End Query.

End Query.

Module TransactionalQueries.
Import Transactional.

Definition LAST_GAMES_TO_SHOW : nat := 30.

Section Queries.

Variable updatedAt : GameId → nat.

(** [UserService.findByPublicKey], a collaborator whose source is not among
    the sources: any lookup of a user by key. *)
Variable findByPublicKey : string → option UserId.

(** [findById(userId, options)]: the parameter is the id of a game, whatever
    its name; the option only asks for [creatorMove] to be loaded. *)
Definition findById (userId : GameId) (σ : Store Game) : option Game :=
  games σ !! userId.

Definition findByUserId (userId : UserId) (σ : Store Game) : list (GameId * Game) :=
  Query.sort_updatedAt_desc updatedAt
    (Query.find (λ game, (creator game = userId ∨ opponent game = Some userId)
                         ∧ status game = ended) σ).

Definition findByUserPublicKey (publicKey : string) (σ : Store Game)
  : option (list (GameId * Game)) :=
  match findByPublicKey publicKey with
  | None => None
  | Some user => Some (findByUserId user σ)
  end.

Definition getActive (σ : Store Game) : list (GameId * Game) :=
  Query.find (λ game, status game = active) σ.

Definition getLastEnded (σ : Store Game) : list (GameId * Game) :=
  Query.limit LAST_GAMES_TO_SHOW
    (Query.sort_updatedAt_desc updatedAt (Query.find (λ game, status game = ended) σ)).

End Queries.

End TransactionalQueries.

Module NonTransactionalQueries.
Import NonTransactional.

Definition LAST_GAMES_TO_SHOW : nat := 30.

Section Queries.

Variable updatedAt : GameId → nat.
Variable findByPublicKey : string → option UserId.

Definition findById (userId : GameId) (σ : Store Game) : option Game :=
  games σ !! userId.

Definition findByUserId (userId : UserId) (σ : Store Game) : list (GameId * Game) :=
  Query.sort_updatedAt_desc updatedAt
    (Query.find (λ game, (creator game = userId ∨ opponent game = Some userId)
                         ∧ status game = ended) σ).

Definition findByUserPublicKey (publicKey : string) (σ : Store Game)
  : option (list (GameId * Game)) :=
  match findByPublicKey publicKey with
  | None => None
  | Some user => Some (findByUserId user σ)
  end.

Definition getActive (σ : Store Game) : list (GameId * Game) :=
  Query.find (λ game, status game = active) σ.

Definition getLastEnded (σ : Store Game) : list (GameId * Game) :=
  Query.limit LAST_GAMES_TO_SHOW
    (Query.sort_updatedAt_desc updatedAt (Query.find (λ game, status game = ended) σ)).

End Queries.

End NonTransactionalQueries.

(** ** The scheduler of the reconciliation ([src/tasks/tasks.controller.ts]) *)

Module TaskController.

Section TaskController.

Variable World : Type.
Variable transactions : World → list Tasks.Transaction.
Variable confirmMany : list Tasks.Transaction → World → World.

(** [checkDeposits()], the handler of the cron of every ten seconds: one
    pass of the service is started. *)
Definition checkDeposits (w : World) : list Tasks.Effect * World :=
  Tasks.checkDeposits World transactions confirmMany w.

(** [n] firings of the cron, each pass being over when the next begins. *)
Fixpoint ticks (n : nat) (w : World) : list Tasks.Effect * World :=
  match n with
  | O => ([], w)
  | S n =>
      let '(effects, w') := checkDeposits w in
      let '(effects', w'') := ticks n w' in
      (effects ++ effects', w'')
  end.

End TaskController.

End TaskController.

(** ** The rooms of the user gateway ([UserGateway] in [src/user/user.gateway.ts])

    The gateway addresses the event ['balanceChange'] to the socket room named
    by the user's id; a client enters a room by the message
    ['subscribeToProfile'].  The table of rooms is that of the socket server:
    for each room name, the sockets in it. *)

Module UserGatewayRooms.

Definition Socket := nat.

(** [client.join(room)]. *)
Definition Socket_join (client : Socket) (room : string) (rooms : gmap string (gset Socket))
  : gmap string (gset Socket) :=
  <[room := {[client]} ∪ default ∅ (rooms !! room)]> rooms.

(** [server.to(room)]: the sockets an [emit] to the room reaches. *)
Definition Server_to (room : string) (rooms : gmap string (gset Socket)) : gset Socket :=
  default ∅ (rooms !! room).

(** [handleConnection(client, ...args)]: the body is empty. *)
Definition handleConnection (client : Socket) (rooms : gmap string (gset Socket))
  : gmap string (gset Socket) := rooms.

(** [handleSubscribeToProfile(client, _id)], the handler of
    ['subscribeToProfile']. *)
Definition handleSubscribeToProfile (client : Socket) (_id : string)
    (rooms : gmap string (gset Socket)) : gmap string (gset Socket) :=
  Socket_join client _id rooms.

(** The messages the gateway handles, and a run of the gateway over a
    sequence of them. *)
Inductive Message :=
| Connection (client : Socket)
| SubscribeToProfile (client : Socket) (_id : string).

Definition handle (rooms : gmap string (gset Socket)) (message : Message)
  : gmap string (gset Socket) :=
  match message with
  | Connection client => handleConnection client rooms
  | SubscribeToProfile client _id => handleSubscribeToProfile client _id rooms
  end.

Section Recipients.

(** [_id.toString()] of a user id (the hexadecimal form of an [ObjectId]). *)
Variable toString : UserId → string.

(** The sockets [balanceChangeNotify(_id, balance, fromDeposit)] reaches:
    those of [server.to(_id.toString())]. *)
Definition balanceChange_recipients (_id : UserId) (rooms : gmap string (gset Socket))
  : gset Socket :=
  Server_to (toString _id) rooms.

End Recipients.

End UserGatewayRooms.

(** ** Custodial keypairs ([src/associatedKeypair/associatedKeypair.service.ts]) *)

Module AssociatedKeypairService.

Definition ObjectId := nat.

(** A [Keypair] of the Solana library: the two keys as byte arrays. *)
Record Keypair := { publicKey : list Byte.byte; secretKey : list Byte.byte }.

(** A stored document, and a document as a query loads it: [secretKey] is
    missing from the latter when the projection leaves it out. *)
Record Stored := { stored_publicKey : string; stored_secretKey : list nat }.

Record AssociatedKeypairDocument := {
  doc_publicKey : string;
  doc_secretKey : option (list nat)
}.

(** [Array.from(bytes)]: the bytes as numbers. *)
Definition Array_from (bytes : list Byte.byte) : list nat := Byte.to_nat <$> bytes.

Section Service.

(** [publicKey.toString()], the base-58 form of a public key, which the
    library computes. *)
Variable PublicKey_toString : list Byte.byte → string.

(** Whether a query loads [secretKey] when it does not ask for it: the
    [select] option of the field in the schema, which is not among the
    sources. *)
Variable secretKey_selected : bool.

(** [create()]; [keypair] is the result of [Keypair.generate()].  The new
    document is saved under an id of its own, which is returned. *)
Definition create (keypair : Keypair) (collection : gmap ObjectId Stored)
  : ObjectId * gmap ObjectId Stored :=
  let _id := fresh (dom collection) in
  let newKeypair := {| stored_publicKey := PublicKey_toString (publicKey keypair);
                       stored_secretKey := Array_from (secretKey keypair) |} in
  (_id, <[_id := newKeypair]> collection).

(** [findById(_id, selectSecretKey = false)]:
    [.select(selectSecretKey ? '+secretKey' : '')]. *)
Definition findById (_id : ObjectId) (selectSecretKey : bool)
    (collection : gmap ObjectId Stored) : option AssociatedKeypairDocument :=
  (λ doc, {| doc_publicKey := stored_publicKey doc;
             doc_secretKey := if selectSecretKey || secretKey_selected
                              then Some (stored_secretKey doc) else None |})
    <$> collection !! _id.

End Service.

End AssociatedKeypairService.

(** ** Consistent game documents

    What the fields of a stored game say about each other, by status: a game
    that is active or cancelled has no opponent, no winner and no end date; an
    ended game has an opponent who is not its creator, the opponent's move, an
    end date, and a winner exactly when the two moves differ, the one the
    service's rule selects.  The transactional service stores no game with
    the status ['joined']; in the non-transactional one a joined game has its
    opponent and the opponent's move, and neither winner nor end date yet. *)

Module Consistency.

Definition consistent (game : Transactional.Game) : Prop :=
  match Transactional.status game with
  | active | cancelled =>
      Transactional.opponent game = None ∧ Transactional.opponentMove game = None ∧
      Transactional.winner game = None ∧ Transactional.endedAt game = None
  | ended =>
      ∃ opponent opponentMove,
        Transactional.opponent game = Some opponent ∧
        Transactional.opponentMove game = Some opponentMove ∧
        opponent ≠ Transactional.creator game ∧
        is_Some (Transactional.endedAt game) ∧
        Transactional.winner game =
          TransactionalOutcomes.selected (Transactional.creator game) opponent
            (Transactional.creatorMove game) opponentMove
  | joined => False
  end.

Definition nt_consistent (game : NonTransactional.Game) : Prop :=
  match NonTransactional.status game with
  | active | cancelled =>
      NonTransactional.opponent game = None ∧ NonTransactional.opponentMove game = None ∧
      NonTransactional.winner game = None ∧ NonTransactional.endedAt game = None
  | ended =>
      ∃ opponent opponentMove,
        NonTransactional.opponent game = Some opponent ∧
        NonTransactional.opponentMove game = Some opponentMove ∧
        opponent ≠ NonTransactional.creator game ∧
        is_Some (NonTransactional.endedAt game) ∧
        NonTransactional.winner game =
          if (NonTransactional.creatorMove game =? opponentMove)%nat then None
          else Some (if (opponentMove <? NonTransactional.creatorMove game)%nat
                     then NonTransactional.creator game else opponent)
  | joined =>
      ∃ opponent opponentMove,
        NonTransactional.opponent game = Some opponent ∧
        NonTransactional.opponentMove game = Some opponentMove ∧
        opponent ≠ NonTransactional.creator game ∧
        NonTransactional.winner game = None ∧
        NonTransactional.endedAt game = None
  end.

End Consistency.

(** ** A concrete scenario

    Two users, each holding 1000 units, and a game of stake 100 opened by the
    first with move 0 (the specification's scenario: stake 100, fee 4%). *)

Module Scenario.

Definition alice : UserId := 1%nat.
Definition bob : UserId := 2%nat.

Definition ledger : UserId → Q := λ _, 1000.

Definition stake : Transactional.CreateGameDto :=
  {| Transactional.dto_amount := 100; Transactional.dto_creatorMove := 0 |}.

Definition game : Transactional.Game :=
  Transactional.newGame alice stake.

(** No game yet. *)
Definition empty : Store Transactional.Game := MkStore ledger ∅ [].

(** The game is open under id 0. *)
Definition opened : Store Transactional.Game := MkStore ledger {[ 0%nat := game ]} [].

(** Alice has five open games. *)
Definition crowded : Store Transactional.Game :=
  MkStore ledger (list_to_map ((λ id, (id, game)) <$> seq 0 5)) [].

(** The same for the non-transactional service, with a fee of 4 percent. *)
Definition nt_stake : NonTransactional.CreateGameDto :=
  {| NonTransactional.dto_amount := 100; NonTransactional.dto_creatorMove := 0 |}.

Definition nt_game : NonTransactional.Game :=
  NonTransactional.newGame 4 alice nt_stake.

Definition nt_empty : Store NonTransactional.Game := MkStore ledger ∅ [].

Definition nt_opened : Store NonTransactional.Game :=
  MkStore ledger {[ 0%nat := nt_game ]} [].

Definition heap : Js.heap := Js.Heap 0%nat [].

(** A game whose stake is all a user holds. *)
Definition nt_all_in : NonTransactional.CreateGameDto :=
  {| NonTransactional.dto_amount := 1000; NonTransactional.dto_creatorMove := 0 |}.

Definition nt_opened_all_in : Store NonTransactional.Game :=
  MkStore ledger {[ 0%nat := NonTransactional.newGame 4 alice nt_all_in ]} [].

(** A transaction collection with one confirmed and two pending entries, and
    a [confirmMany] that marks every entry confirmed. *)
Definition collection : list Tasks.Transaction :=
  [Tasks.MkTransaction 1%nat "s1" Tasks.deposit Tasks.pending;
   Tasks.MkTransaction 2%nat "s2" Tasks.deposit Tasks.confirmed;
   Tasks.MkTransaction 1%nat "s3" Tasks.withdraw Tasks.pending].

Definition mark (batch : list Tasks.Transaction) (w : list Tasks.Transaction)
  : list Tasks.Transaction :=
  (λ t, Tasks.MkTransaction (Tasks.owner t) (Tasks.signature t) (Tasks.type t)
          Tasks.confirmed) <$> w.

(** Sums that are not whole numbers.  Bob holds 12 and opens a game of stake
    2, which leaves him the double written 9.92; Alice then opens a game of
    stake 1, under id 1. *)
Definition small (amount : Q) : Transactional.CreateGameDto :=
  {| Transactional.dto_amount := amount; Transactional.dto_creatorMove := 0 |}.

Definition purse : Store Transactional.Game := MkStore (<[bob := 12]> ledger) ∅ [].

Definition purse_opened : Store Transactional.Game :=
  (Transactional.create alice (small 1) (Transactional.create bob (small 2) purse).2).2.

(** Everybody holds the double the transactional service computes for
    9 × 1.04, which is below 9.36; Alice may have opened a game of stake 9. *)
Definition exact_change : Store Transactional.Game :=
  MkStore (λ _, TransactionalOutcomes.payAmount 9) ∅ [].

Definition exact_change_opened : Store Transactional.Game :=
  MkStore (λ _, TransactionalOutcomes.payAmount 9)
          {[ 0%nat := Transactional.newGame alice (small 9) ]} [].

(** Alice opens a game with a negative stake, which credits her, and then a
    game that takes more than she held before. *)
Definition overdrawn : Store Transactional.Game :=
  (Transactional.create alice (small 2500)
     (Transactional.create alice (small (- (2000))) empty).2).2.

Definition nt_small (amount : Q) : NonTransactional.CreateGameDto :=
  {| NonTransactional.dto_amount := amount; NonTransactional.dto_creatorMove := 0 |}.

Definition nt_overdrawn : Store NonTransactional.Game :=
  (NonTransactional.create 4 alice (nt_small 2500)
     (NonTransactional.create 4 alice (nt_small (- (2000))) nt_empty).2).2.

(** What the platform keeps of a game: what the two parties hold less after
    the settlement than before the game was created. *)
Definition fee_retained (before after : UserId → Q) (creator opponent : UserId) : Q :=
  (before creator - after creator) + (before opponent - after opponent).

(** A whole game that ends in a tie, in either service: Alice creates with
    move 0 and Bob joins with move 0. *)
Definition tie_run : outcome unit * Store Transactional.Game :=
  Transactional.join {| Transactional.gameId := 0%nat; Transactional.move := 0%nat |} bob 7%nat
    (Transactional.create alice stake empty).2.

Definition nt_tie_run : outcome unit * Store NonTransactional.Game :=
  NonTransactional.join heap
    {| NonTransactional.gameId := 0%nat; NonTransactional.move := 0%nat |} bob 7%nat
    (NonTransactional.create 4 alice nt_stake nt_empty).2.

(** A run of the non-transactional service on the open game: Bob's [join]
    returns, Alice tries to cancel the game, and then the settlement lands. *)
Definition nt_joined_state : NonTransactionalRuns.State :=
  NonTransactionalRuns.joined_state
    {| NonTransactional.gameId := 0%nat; NonTransactional.move := 1%nat |} bob
    (NonTransactionalRuns.MkState nt_opened []).

Definition nt_cancel_state : NonTransactionalRuns.State :=
  NonTransactionalRuns.MkState
    (NonTransactional.cancel 0%nat alice (NonTransactionalRuns.store nt_joined_state)).2
    (NonTransactionalRuns.started nt_joined_state).

Definition nt_run : NonTransactionalRuns.State :=
  NonTransactionalRuns.MkState
    (NonTransactional.pickWinner heap 0%nat (NonTransactional.set_joined nt_game bob 1) 7%nat
       (NonTransactionalRuns.store nt_cancel_state)).2
    ([] ++ []).

End Scenario.

(** * Properties *)

(** ** Facts about the JavaScript primitives *)

Lemma Js_lt_true (x y : Q) : x < y → Js.lt x y = true.
Proof.
  intros H. unfold Js.lt. destruct (Qle_bool y x) eqn:E; [|done].
  apply Qle_bool_iff in E. lra.
Qed.

Lemma Js_lt_false (x y : Q) : y <= x → Js.lt x y = false.
Proof.
  intros H. unfold Js.lt. apply Qle_bool_iff in H. by rewrite H.
Qed.

Lemma Js_lt_spec (x y : Q) : Js.lt x y = true ↔ x < y.
Proof.
  split; [|apply Js_lt_true].
  unfold Js.lt. destruct (Qle_bool y x) eqn:E; [done|]. intros _.
  apply Qnot_le_lt. intros H. apply Qle_bool_iff in H. congruence.
Qed.

Lemma Js_lt_spec_false (x y : Q) : Js.lt x y = false ↔ y <= x.
Proof.
  split; [|apply Js_lt_false].
  intros H. apply Qnot_lt_le. intros H'. apply Js_lt_true in H'. congruence.
Qed.

(** *** Rounding to the nearest double

    [Js.round_half_even] is the nearest integer. *)

Lemma round_half_even_comp (x y : Q) : x == y → Js.round_half_even x = Js.round_half_even y.
Proof.
  intros H. unfold Js.round_half_even.
  rewrite (Qfloor_comp _ _ H).
  assert (x - inject_Z (Qfloor y) == y - inject_Z (Qfloor y)) as -> by (rewrite H; reflexivity).
  reflexivity.
Qed.

Lemma round_half_even_Z (z : Z) : Js.round_half_even (inject_Z z) = z.
Proof.
  unfold Js.round_half_even. rewrite Qfloor_Z.
  destruct (Qcompare _ _) eqn:E; [apply Qeq_alt in E; lra|done|apply Qgt_alt in E; lra].
Qed.

Lemma round_half_even_bounds (x : Q) :
  x - (1 # 2) <= inject_Z (Js.round_half_even x) <= x + (1 # 2).
Proof.
  unfold Js.round_half_even.
  pose proof (Qfloor_le x) as Hl. pose proof (Qlt_floor x) as Hu.
  rewrite inject_Z_plus in Hu. change (inject_Z 1) with 1 in Hu.
  destruct (Qcompare (x - inject_Z (Qfloor x)) (1 # 2)) eqn:E.
  - apply Qeq_alt in E.
    destruct (Z.even _); rewrite ?inject_Z_plus; change (inject_Z 1) with 1; lra.
  - apply Qlt_alt in E. lra.
  - apply Qgt_alt in E. rewrite inject_Z_plus. change (inject_Z 1) with 1. lra.
Qed.

Lemma round_half_even_mono (x y : Q) :
  x <= y → (Js.round_half_even x <= Js.round_half_even y)%Z.
Proof.
  intros H.
  destruct (Z.le_gt_cases (Js.round_half_even x) (Js.round_half_even y)) as [|Hlt]; [done|].
  exfalso.
  pose proof (round_half_even_bounds x) as [_ Hx].
  pose proof (round_half_even_bounds y) as [Hy _].
  assert (inject_Z (Js.round_half_even y) + 1 <= inject_Z (Js.round_half_even x)) as Hz.
  { change 1 with (inject_Z 1). rewrite <- inject_Z_plus, <- Zle_Qle. lia. }
  assert (x == y) as Heq by lra.
  apply round_half_even_comp in Heq. lia.
Qed.

(** The binary exponent. *)

Lemma pow2_pos (e : Z) : 0 < 2 ^ e.
Proof. by apply Qpower_0_lt. Qed.

Lemma pow2_succ (e : Z) : 2 ^ (e + 1) == 2 * 2 ^ e.
Proof. rewrite Qpower_plus by done. change (2 ^ 1) with 2. lra. Qed.

Lemma inject_Z_pow2 (k : Z) : (0 <= k)%Z → inject_Z (2 ^ k) == 2 ^ k.
Proof. intros Hk. by rewrite Zpower_Qpower. Qed.

Lemma exponent_spec (x : Q) :
  0 < x → 2 ^ Js.exponent x <= x ∧ x < 2 ^ (Js.exponent x + 1).
Proof.
  intros Hx. unfold Js.exponent.
  rewrite (Qabs_pos x) by lra.
  destruct x as [n d]. cbn [Qnum Qden].
  assert (0 < n)%Z as Hn by (unfold Qlt in Hx; cbn in Hx; lia).
  rewrite Z.abs_eq by lia.
  set (a := Z.log2 n). set (b := Z.log2 (Z.pos d)).
  destruct (Z.log2_spec n Hn) as [Ha1 Ha2]. fold a in Ha1, Ha2.
  destruct (Z.log2_spec (Z.pos d) eq_refl) as [Hb1 Hb2]. fold b in Hb1, Hb2.
  assert (0 <= a)%Z as Ha0 by apply Z.log2_nonneg.
  assert (0 <= b)%Z as Hb0 by apply Z.log2_nonneg.
  rewrite Zle_Qle, inject_Z_pow2 in Ha1, Hb1 by done.
  rewrite <- Z.add_1_r in Ha2, Hb2.
  rewrite Zlt_Qlt, inject_Z_pow2, pow2_succ in Ha2, Hb2 by lia.
  pose proof (pow2_pos a) as HA. pose proof (pow2_pos b) as HB.
  pose proof (pow2_pos (a - b)) as HR.
  assert (2 ^ (a - b) * 2 ^ b == 2 ^ a) as Hr.
  { rewrite <- Qpower_plus by done. by replace (a - b + b)%Z with a by lia. }
  assert ((n # d) * inject_Z (Z.pos d) == inject_Z n) as Hxd.
  { rewrite (Qmake_Qdiv n d). field. discriminate. }
  set (x := n # d) in *. set (r := 2 ^ (a - b)) in *.
  set (A := 2 ^ a) in *. set (B := 2 ^ b) in *.
  set (N := inject_Z n) in *. set (D := inject_Z (Z.pos d)) in *.
  assert (x < 2 * r) as Hlt by nra.
  assert (r < 2 * x) as Hgt by nra.
  destruct (Qle_bool r x) eqn:E.
  - apply Qle_bool_iff in E. rewrite pow2_succ. fold r. split; lra.
  - assert (x < r) as E'.
    { apply Qnot_le_lt. intros H. apply Qle_bool_iff in H. congruence. }
    replace (a - b - 1 + 1)%Z with (a - b)%Z by lia. fold r.
    split; [|done].
    assert (r == 2 * 2 ^ (a - b - 1)) as Hr'.
    { unfold r. rewrite <- pow2_succ. by replace (a - b - 1 + 1)%Z with (a - b)%Z by lia. }
    lra.
Qed.

Lemma exponent_unique (x : Q) (a : Z) :
  0 < x → 2 ^ a <= x → x < 2 ^ (a + 1) → Js.exponent x = a.
Proof.
  intros Hx Ha1 Ha2. destruct (exponent_spec x Hx) as [He1 He2].
  assert (2 ^ Js.exponent x < 2 ^ (a + 1)) as H1 by lra.
  assert (2 ^ a < 2 ^ (Js.exponent x + 1)) as H2 by lra.
  apply Qpower_lt_compat_l_inv in H1; [|lra].
  apply Qpower_lt_compat_l_inv in H2; [|lra]. lia.
Qed.

Lemma exponent_comp (x y : Q) : 0 < x → x == y → Js.exponent x = Js.exponent y.
Proof.
  intros Hx H. symmetry. destruct (exponent_spec x Hx) as [He1 He2].
  apply exponent_unique; lra.
Qed.

Lemma exponent_mono (x y : Q) : 0 < x → x <= y → (Js.exponent x <= Js.exponent y)%Z.
Proof.
  intros Hx H. destruct (exponent_spec x Hx) as [Hx1 _].
  destruct (exponent_spec y) as [_ Hy2]; [lra|].
  assert (2 ^ Js.exponent x < 2 ^ (Js.exponent y + 1)) as H1 by lra.
  apply Qpower_lt_compat_l_inv in H1; [|lra]. lia.
Qed.

(** The rounding of a positive number: it keeps the order, and a number
    with at most 53 significant bits is its own rounding. *)

Lemma nearest_nonneg (x : Q) : 0 <= x → 0 <= Js.nearest x.
Proof.
  intros Hx. unfold Js.nearest.
  set (e := Z.max _ _). pose proof (pow2_pos e) as He.
  apply Qmult_le_0_compat; [|lra].
  change 0 with (inject_Z 0). rewrite <- Zle_Qle.
  rewrite <- (round_half_even_Z 0). apply round_half_even_mono.
  change (inject_Z 0) with 0. apply Qle_shift_div_l; lra.
Qed.

Lemma nearest_comp (x y : Q) : 0 < x → x == y → Js.nearest x == Js.nearest y.
Proof.
  intros Hx H. unfold Js.nearest. rewrite <- (exponent_comp x y Hx H).
  set (e := Z.max _ _).
  assert (x / 2 ^ e == y / 2 ^ e) as H' by (by rewrite H).
  by rewrite (round_half_even_comp _ _ H').
Qed.

Lemma nearest_mono (x y : Q) : 0 < x → x <= y → Js.nearest x <= Js.nearest y.
Proof.
  intros Hx H. unfold Js.nearest.
  pose proof (exponent_mono x y Hx H) as Hm.
  set (ex := Z.max (Js.exponent x - 52) (-1074)).
  set (ey := Z.max (Js.exponent y - 52) (-1074)).
  pose proof (pow2_pos ex) as Hex. pose proof (pow2_pos ey) as Hey.
  destruct (decide (ex = ey)) as [Heq|Hne].
  - rewrite Heq. apply Qmult_le_compat_r; [|lra].
    rewrite <- Zle_Qle. apply round_half_even_mono.
    apply Qmult_le_compat_r; [done|]. apply Qinv_le_0_compat. lra.
  - assert (ex + 1 <= ey)%Z as Hlt by lia.
    assert (ey = Js.exponent y - 52)%Z as Hy by lia.
    destruct (exponent_spec x Hx) as [_ Hx2].
    destruct (exponent_spec y) as [Hy1 _]; [lra|].
    (* the rounded mantissa of x is at most 2^53 *)
    assert (inject_Z (Js.round_half_even (x / 2 ^ ex)) <= 2 ^ 53) as Hmx.
    { rewrite <- (inject_Z_pow2 53) by done. rewrite <- Zle_Qle.
      rewrite <- (round_half_even_Z (2 ^ 53)). apply round_half_even_mono.
      rewrite inject_Z_pow2 by done. apply Qle_shift_div_r; [done|].
      rewrite <- Qpower_plus by done.
      apply Qlt_le_weak. eapply Qlt_le_trans; [exact Hx2|].
      apply Qpower_le_compat_l; [lia|lra]. }
    (* the rounded mantissa of y is at least 2^52 *)
    assert (2 ^ 52 <= inject_Z (Js.round_half_even (y / 2 ^ ey))) as Hmy.
    { rewrite <- (inject_Z_pow2 52) by done. rewrite <- Zle_Qle.
      rewrite <- (round_half_even_Z (2 ^ 52)). apply round_half_even_mono.
      rewrite inject_Z_pow2 by done. apply Qle_shift_div_l; [done|].
      rewrite <- Qpower_plus by done.
      eapply Qle_trans; [|exact Hy1].
      apply Qpower_le_compat_l; [lia|lra]. }
    assert (2 ^ 53 * 2 ^ ex <= 2 ^ 52 * 2 ^ ey) as Hp.
    { rewrite <- !Qpower_plus by done. apply Qpower_le_compat_l; [lia|lra]. }
    set (mx := inject_Z _) in *. set (my := inject_Z (Js.round_half_even (y / _))) in *.
    set (px := 2 ^ ex) in *. set (py := 2 ^ ey) in *.
    set (a := 2 ^ 53) in *. set (b := 2 ^ 52) in *.
    nra.
Qed.

Lemma nearest_representable (m e : Z) :
  (0 < m < 2 ^ 53)%Z → (-1074 <= e)%Z →
  Js.nearest (inject_Z m * 2 ^ e) == inject_Z m * 2 ^ e.
Proof.
  intros Hm He. unfold Js.nearest.
  pose proof (pow2_pos e) as Hpe.
  assert (0 < inject_Z m) as Hm0.
  { change 0 with (inject_Z 0). rewrite <- Zlt_Qlt. lia. }
  assert (0 < inject_Z m * 2 ^ e) as Hx by nra.
  set (L := Z.log2 m).
  destruct (Z.log2_spec m) as [HL1 HL2]; [lia|]. fold L in HL1, HL2.
  assert (0 <= L)%Z as HL0 by apply Z.log2_nonneg.
  assert (L < 53)%Z as HL53.
  { apply (Z.pow_lt_mono_r_iff 2); lia. }
  assert (Js.exponent (inject_Z m * 2 ^ e) = (L + e)%Z) as ->.
  { rewrite Zle_Qle, inject_Z_pow2 in HL1 by done.
    rewrite Zlt_Qlt, inject_Z_pow2 in HL2 by lia.
    pose proof (pow2_pos L). pose proof (pow2_pos (Z.succ L)).
    apply exponent_unique; [done|..].
    - rewrite Qpower_plus by done. nra.
    - replace (L + e + 1)%Z with (Z.succ L + e)%Z by lia.
      rewrite Qpower_plus by done. nra. }
  set (e' := Z.max (L + e - 52) (-1074)).
  assert (e' <= e)%Z as He' by lia.
  pose proof (pow2_pos e') as Hpe'.
  assert (inject_Z m * 2 ^ e / 2 ^ e' == inject_Z (m * 2 ^ (e - e'))) as Hq.
  { rewrite inject_Z_mult, inject_Z_pow2 by lia.
    rewrite Qpower_minus by done. field. lra. }
  rewrite (round_half_even_comp _ _ Hq), round_half_even_Z.
  rewrite inject_Z_mult, inject_Z_pow2 by lia.
  rewrite Qpower_minus by done. field. lra.
Qed.

(** The same for numbers of either sign. *)

Lemma fl_zero (x : Q) : x == 0 → Js.fl x = 0.
Proof.
  intros H. unfold Js.fl.
  destruct (Qcompare x 0) eqn:E; [done|apply Qlt_alt in E; lra|apply Qgt_alt in E; lra].
Qed.

Lemma fl_pos (x : Q) : 0 < x → Js.fl x = Js.nearest x.
Proof.
  intros H. unfold Js.fl.
  destruct (Qcompare x 0) eqn:E; [apply Qeq_alt in E; lra|apply Qlt_alt in E; lra|done].
Qed.

Lemma fl_neg (x : Q) : x < 0 → Js.fl x = - Js.nearest (- x).
Proof.
  intros H. unfold Js.fl.
  destruct (Qcompare x 0) eqn:E; [apply Qeq_alt in E; lra|done|apply Qgt_alt in E; lra].
Qed.

Lemma fl_cases (x : Q) :
  (x == 0 ∧ Js.fl x = 0) ∨ (0 < x ∧ Js.fl x = Js.nearest x) ∨
  (x < 0 ∧ Js.fl x = - Js.nearest (- x)).
Proof.
  destruct (Q_dec x 0) as [[H|H]|H].
  - right; right. by rewrite fl_neg.
  - right; left. by rewrite fl_pos.
  - left. by rewrite fl_zero.
Qed.

#[global] Instance fl_comp : Proper (Qeq ==> Qeq) Js.fl.
Proof.
  intros x y H.
  destruct (fl_cases x) as [[Hx ->]|[[Hx ->]|[Hx ->]]].
  - rewrite fl_zero; [done|]. by rewrite <- H.
  - rewrite fl_pos by lra. by apply nearest_comp.
  - rewrite fl_neg by lra. apply Qopp_comp. apply nearest_comp; lra.
Qed.

Lemma fl_nonneg (x : Q) : 0 <= x → 0 <= Js.fl x.
Proof.
  intros H. destruct (fl_cases x) as [[Hx ->]|[[Hx ->]|[Hx ->]]]; [lra| |lra].
  by apply nearest_nonneg.
Qed.

Lemma fl_nonpos (x : Q) : x <= 0 → Js.fl x <= 0.
Proof.
  intros H. destruct (fl_cases x) as [[Hx ->]|[[Hx ->]|[Hx ->]]]; [lra|lra|].
  pose proof (nearest_nonneg (- x)). lra.
Qed.

Lemma fl_opp (x : Q) : Js.fl (- x) == - Js.fl x.
Proof.
  destruct (fl_cases x) as [[Hx ->]|[[Hx ->]|[Hx ->]]].
  - rewrite fl_zero; lra.
  - rewrite fl_neg by lra. apply Qopp_comp. apply nearest_comp; lra.
  - rewrite fl_pos by lra. lra.
Qed.

Lemma fl_mono (x y : Q) : x <= y → Js.fl x <= Js.fl y.
Proof.
  intros H.
  destruct (fl_cases x) as [[Hx Ex]|[[Hx Ex]|[Hx Ex]]].
  - rewrite Ex. apply fl_nonneg. lra.
  - rewrite Ex, fl_pos by lra. by apply nearest_mono.
  - destruct (fl_cases y) as [[Hy Ey]|[[Hy Ey]|[Hy Ey]]].
    + rewrite Ey. apply fl_nonpos. lra.
    + pose proof (fl_nonpos x). pose proof (fl_nonneg y). lra.
    + rewrite Ex, Ey. apply Qopp_le_compat. apply nearest_mono; lra.
Qed.

Lemma fl_representable (m e : Z) :
  (Z.abs m < 2 ^ 53)%Z → (-1074 <= e)%Z →
  Js.fl (inject_Z m * 2 ^ e) == inject_Z m * 2 ^ e.
Proof.
  intros Hm He. pose proof (pow2_pos e) as Hpe.
  destruct (Z.lt_trichotomy m 0) as [Hneg|[->|Hpos]].
  - assert (inject_Z m * 2 ^ e == - (inject_Z (- m) * 2 ^ e)) as ->.
    { rewrite inject_Z_opp. ring. }
    rewrite fl_opp. apply Qopp_comp.
    assert (0 < inject_Z (- m)).
    { change 0 with (inject_Z 0). rewrite <- Zlt_Qlt. lia. }
    rewrite fl_pos by nra. apply nearest_representable; lia.
  - change (inject_Z 0) with 0. rewrite fl_zero; lra.
  - assert (0 < inject_Z m).
    { change 0 with (inject_Z 0). rewrite <- Zlt_Qlt. lia. }
    rewrite fl_pos by nra. apply nearest_representable; lia.
Qed.

Lemma fl_Z (z : Z) : (Z.abs z < 2 ^ 53)%Z → Js.fl (inject_Z z) == inject_Z z.
Proof.
  intros H. pose proof (fl_representable z 0 H) as Hr.
  change (2 ^ 0) with 1 in Hr. rewrite Qmult_1_r in Hr. apply Hr. lia.
Qed.

(** Rounding does not cross a whole number below 2^53. *)
Lemma fl_le_Z (x : Q) (z : Z) :
  (Z.abs z < 2 ^ 53)%Z → x <= inject_Z z → Js.fl x <= inject_Z z.
Proof. intros Hz H. rewrite <- (fl_Z z) by done. by apply fl_mono. Qed.

Lemma fl_ge_Z (x : Q) (z : Z) :
  (Z.abs z < 2 ^ 53)%Z → inject_Z z <= x → inject_Z z <= Js.fl x.
Proof. intros Hz H. rewrite <- (fl_Z z) by done. by apply fl_mono. Qed.

(** On whole numbers below 2^53 the operations on doubles are the exact
    ones. *)
Lemma Js_add_whole (a b : Z) :
  (Z.abs (a + b) < 2 ^ 53)%Z →
  Js.add (inject_Z a) (inject_Z b) == inject_Z a + inject_Z b.
Proof.
  intros H. unfold Js.add. rewrite <- inject_Z_plus. by apply fl_Z.
Qed.

Lemma Js_mul_whole (a b : Z) :
  (Z.abs (a * b) < 2 ^ 53)%Z →
  Js.mul (inject_Z a) (inject_Z b) == inject_Z a * inject_Z b.
Proof.
  intros H. unfold Js.mul. rewrite <- inject_Z_mult. by apply fl_Z.
Qed.

(** The sign of a result is the sign of the exact result. *)
Lemma Js_add_nonneg (x y : Q) : 0 <= x + y → 0 <= Js.add x y.
Proof. apply fl_nonneg. Qed.

Lemma Js_add_neg (x y : Q) : Js.add x y < 0 → x + y < 0.
Proof.
  intros H. apply Qnot_le_lt. intros H'. apply Js_add_nonneg in H'. lra.
Qed.

Lemma Js_sub_nonneg (x y : Q) : y <= x → 0 <= Js.sub x y.
Proof. intros H. apply fl_nonneg. lra. Qed.

Lemma Js_mul_nonneg (x y : Q) : 0 <= x → 0 <= y → 0 <= Js.mul x y.
Proof. intros Hx Hy. apply fl_nonneg. by apply Qmult_le_0_compat. Qed.

Lemma Js_mul_nonpos (x y : Q) : x <= 0 → 0 <= y → Js.mul x y <= 0.
Proof. intros Hx Hy. apply fl_nonpos. nra. Qed.

Lemma Js_div_nonneg (x y : Q) : 0 <= x → 0 < y → 0 <= Js.div x y.
Proof. intros Hx Hy. apply fl_nonneg. by apply Qle_shift_div_l; lra. Qed.

(** A reference allocated earlier is never the one a later literal gets. *)
Lemma strict_eq_ref_fresh (elems elems' : list nat) (h : Js.heap) :
  Js.strict_eq_ref (Js.alloc elems h).1 (Js.alloc elems' (Js.alloc elems h).2).1 = false.
Proof. simpl. unfold Js.strict_eq_ref. apply Nat.eqb_neq. lia. Qed.

(** ** Running the monad *)

Lemma run_bind {G A B} (m : M G A) (k : A → M G B) (σ : Store G) :
  (m ≫= k) σ = match m σ with
               | (Ok a, σ') => k a σ'
               | (Err e, σ') => (Err e, σ')
               end.
Proof. reflexivity. Qed.

Lemma run_ret {G A} (a : A) (σ : Store G) : (mret a : M G A) σ = (Ok a, σ).
Proof. reflexivity. Qed.

Ltac run_monad :=
  unfold UserGateway.balanceChangeNotify;
  unfold mbind, M_bind, mret, M_ret, save, emit, throw.

(** Closes a hypothesis of a theorem at a concrete input by evaluation. *)
Ltac concrete :=
  first [ by vm_compute
        | reflexivity
        | apply Qle_bool_imp_le; reflexivity
        | vm_compute; lia
        | vm_compute; discriminate ].

Ltac fn_simpl :=
  repeat (rewrite fn_lookup_insert || rewrite fn_lookup_insert_ne by done).

(** ** The ledger *)

Lemma changeBalance_ok {G} (user : UserId) (amount : Q) (notify : bool) (σ : Store G) :
  0 <= balances σ user + amount →
  UserService.changeBalance user amount notify σ =
    (Ok tt, MkStore (<[user := balances σ user + amount]> (balances σ)) (games σ)
                    (events σ ++ (if notify then [BalanceChange user (balances σ user + amount) false]
                                  else []))).
Proof.
  intros H. unfold UserService.changeBalance. rewrite Js_lt_false by done.
  destruct notify; cbn; by rewrite ?app_nil_r.
Qed.

Ltac ledger :=
  unfold NonTransactional.changeBalance;
  rewrite changeBalance_ok;
  cbn [balances games events
       NonTransactional.amount NonTransactional.creator NonTransactional.fee
       NonTransactional.set_winner NonTransactional.set_joined
       NonTransactional.set_status NonTransactional.set_ended];
  fn_simpl; [|lra].

Lemma changeBalance_fail {G} (user : UserId) (amount : Q) (notify : bool) (σ : Store G) :
  balances σ user + amount < 0 →
  UserService.changeBalance user amount notify σ = (Err InsufficientFunds, σ).
Proof.
  intros H. unfold UserService.changeBalance. by rewrite Js_lt_true.
Qed.

(** ** The status of a game *)

Lemma status_advances_trans (s1 s2 s3 : Status) :
  status_advances s1 s2 → status_advances s2 s3 → status_advances s1 s3.
Proof. unfold status_advances. intros [->|[-> [->| ->]]] [->|[? [->| ->]]]; naive_solver. Qed.

(** ** The transactional service *)

Module TransactionalProofs.
Import Transactional TransactionalOutcomes.

Lemma fresh_game_id (σ : Store Game) : games σ !! fresh (dom (games σ)) = None.
Proof. apply not_elem_of_dom, is_fresh. Qed.

(** *** The ledger of the transactional service *)

Lemma T_changeBalance_ok (user : UserId) (amount : Q) (options : Options) (σ : Store Game) :
  0 <= Js.add (balances σ user) amount →
  changeBalance user amount options σ =
    (Ok tt, MkStore (<[user := Js.add (balances σ user) amount]> (balances σ)) (games σ)
                    (events σ ++ (if disableNotification options then []
                                  else [BalanceChange user (Js.add (balances σ user) amount)
                                          false]))).
Proof.
  intros H. unfold changeBalance. rewrite Js_lt_false by done.
  destruct (disableNotification options); cbn; by rewrite ?app_nil_r.
Qed.

Lemma T_changeBalance_fail (user : UserId) (amount : Q) (options : Options) (σ : Store Game) :
  Js.add (balances σ user) amount < 0 →
  changeBalance user amount options σ = (Err InsufficientFunds, σ).
Proof. intros H. unfold changeBalance. by rewrite Js_lt_true. Qed.

Ltac tledger :=
  rewrite T_changeBalance_ok;
  cbn [balances games events amount creator set_winner set_joined set_status
       disableNotification no_options silent];
  fn_simpl; [|try (apply Js_add_nonneg; lra)].

(** The factor [1 + GAME_FEE / 100] is the double written 1.04. *)
Lemma fee_factor : Js.add 1 (Js.div GAME_FEE 100) == 1170935903116329 # 1125899906842624.
Proof. by vm_compute. Qed.

Lemma payAmount_nonneg (a : Q) : 0 <= a → 0 <= payAmount a.
Proof. intros H. apply Js_mul_nonneg; [done|]. rewrite fee_factor. lra. Qed.

Lemma payAmount_nonpos (a : Q) : a <= 0 → payAmount a <= 0.
Proof. intros H. apply Js_mul_nonpos; [done|]. rewrite fee_factor. lra. Qed.

Lemma winnings_nonneg (a : Q) : 0 <= a → 0 <= Js.mul a 2.
Proof. intros H. apply Js_mul_nonneg; lra. Qed.

(** *** [create] *)

Lemma create_ok (user : UserId) (dto : CreateGameDto) (σ : Store Game) :
  payAmount (dto_amount dto) <= balances σ user →
  (userActiveCount user σ < 5)%nat →
  create user dto σ = (Ok tt, created user dto σ).
Proof.
  intros Hbal Hcount. unfold create, created. fold (payAmount (dto_amount dto)).
  rewrite Js_lt_false by done.
  destruct (Nat.leb_spec 5 (userActiveCount user σ)) as [?|_]; [lia|].
  unfold transaction; run_monad. by tledger.
Qed.

Lemma create_insufficient (user : UserId) (dto : CreateGameDto) (σ : Store Game) :
  balances σ user < payAmount (dto_amount dto) →
  create user dto σ = (Err InsufficientBalance, σ).
Proof.
  intros H. unfold create. fold (payAmount (dto_amount dto)). by rewrite Js_lt_true.
Qed.

Lemma create_limit (user : UserId) (dto : CreateGameDto) (σ : Store Game) :
  payAmount (dto_amount dto) <= balances σ user →
  (5 ≤ userActiveCount user σ)%nat →
  create user dto σ = (Err ActiveGameLimitExceeded, σ).
Proof.
  intros Hbal Hcount. unfold create. fold (payAmount (dto_amount dto)).
  rewrite Js_lt_false by done.
  by destruct (Nat.leb_spec 5 (userActiveCount user σ)) as [_|?]; [|lia].
Qed.

(** *** [join]: the four checks *)

Lemma join_not_found (dto : JoinGameDto) (user : UserId) (now : nat) (σ : Store Game) :
  games σ !! gameId dto = None →
  join dto user now σ = (Err GameNotFound, σ).
Proof. intros H. unfold join. by rewrite H. Qed.

Lemma join_not_active (dto : JoinGameDto) (user : UserId) (now : nat) (σ : Store Game)
    (game : Game) :
  games σ !! gameId dto = Some game →
  status game ≠ active →
  join dto user now σ = (Err GameNotActive, σ).
Proof. intros H Hs. unfold join. rewrite H. by rewrite bool_decide_eq_false_2. Qed.

Lemma join_insufficient (dto : JoinGameDto) (user : UserId) (now : nat) (σ : Store Game)
    (game : Game) :
  games σ !! gameId dto = Some game →
  status game = active →
  balances σ user < payAmount (amount game) →
  join dto user now σ = (Err InsufficientBalance, σ).
Proof.
  intros H Hs Hb. unfold join. rewrite H, bool_decide_eq_true_2 by done.
  fold (payAmount (amount game)). by rewrite Js_lt_true.
Qed.

Lemma join_self (dto : JoinGameDto) (user : UserId) (now : nat) (σ : Store Game)
    (game : Game) :
  games σ !! gameId dto = Some game →
  status game = active →
  payAmount (amount game) <= balances σ user →
  user = creator game →
  join dto user now σ = (Err SelfJoinForbidden, σ).
Proof.
  intros H Hs Hb ->. unfold join. rewrite H, bool_decide_eq_true_2 by done.
  fold (payAmount (amount game)). by rewrite Js_lt_false, Nat.eqb_refl.
Qed.

(** *** [join]: settlement *)

Lemma join_ok (dto : JoinGameDto) (user : UserId) (now : nat) (σ : Store Game)
    (game : Game) :
  games σ !! gameId dto = Some game →
  status game = active →
  payAmount (amount game) <= balances σ user →
  user ≠ creator game →
  0 <= amount game →
  0 <= balances σ (creator game) →
  join dto user now σ = (Ok tt, settled dto user now game σ).
Proof.
  intros H Hs Hb Hne Ha Hc. unfold join.
  rewrite H, bool_decide_eq_true_2 by done.
  fold (payAmount (amount game)).
  rewrite Js_lt_false by done.
  apply Nat.eqb_neq in Hne as Hne'. rewrite Hne'.
  pose proof (payAmount_nonneg _ Ha) as Hp.
  pose proof (winnings_nonneg _ Ha) as Hp2.
  assert (0 <= Js.add (balances σ user) (- payAmount (amount game))) as Hd
    by (apply Js_add_nonneg; lra).
  unfold settled, settled_game, credits, selected.
  unfold transaction, pickWinner; run_monad.
  cbn [opponent opponentMove set_joined creator creatorMove amount].
  fold (payAmount (amount game)).
  tledger.
  destruct (creatorMove game =? move dto)%nat.
  - do 2 tledger. cbn. unfold credit; cbn. fn_simpl. by rewrite !app_nil_r.
  - destruct (creatorMove game =? winningChoice (creatorMove game) (move dto))%nat;
      tledger; cbn; unfold credit; cbn; fn_simpl; by rewrite !app_nil_r.
Qed.

(** *** [cancel] *)

Lemma cancel_not_found (id : GameId) (user : UserId) (σ : Store Game) :
  games σ !! id = None → cancel id user σ = (Err GameNotFound, σ).
Proof. intros H. unfold cancel. by rewrite H. Qed.

Lemma cancel_not_owner (id : GameId) (user : UserId) (σ : Store Game) (game : Game) :
  games σ !! id = Some game → user ≠ creator game →
  cancel id user σ = (Err NotOwner, σ).
Proof.
  intros H Hne. unfold cancel. rewrite H.
  apply Nat.eqb_neq in Hne. by rewrite Hne.
Qed.

Lemma cancel_not_active (id : GameId) (user : UserId) (σ : Store Game) (game : Game) :
  games σ !! id = Some game → user = creator game → status game ≠ active →
  cancel id user σ = (Err GameNotActive, σ).
Proof.
  intros H -> Hs. unfold cancel. rewrite H, Nat.eqb_refl.
  by rewrite bool_decide_eq_false_2.
Qed.

(** Past the three checks the outcome is the ledger's: the refund is accepted
    and the game is stored as cancelled, or it is refused and the transaction
    is rolled back. *)
Lemma cancel_accepted (id : GameId) (user : UserId) (σ : Store Game) (game : Game) :
  games σ !! id = Some game → user = creator game → status game = active →
  0 <= Js.add (balances σ user) (payAmount (amount game)) →
  cancel id user σ = (Ok tt, refunded id user game σ).
Proof.
  intros H -> Hs Hb. unfold cancel.
  rewrite H, Nat.eqb_refl, bool_decide_eq_true_2 by done.
  unfold transaction; run_monad. cbn [balances games events set_status amount].
  fold (payAmount (amount game)).
  by tledger.
Qed.

Lemma cancel_refused (id : GameId) (user : UserId) (σ : Store Game) (game : Game) :
  games σ !! id = Some game → user = creator game → status game = active →
  Js.add (balances σ user) (payAmount (amount game)) < 0 →
  cancel id user σ = (Err SettlementFailure, σ).
Proof.
  intros H -> Hs Hb. unfold cancel.
  rewrite H, Nat.eqb_refl, bool_decide_eq_true_2 by done.
  unfold transaction; run_monad. cbn [balances games events set_status amount].
  fold (payAmount (amount game)).
  rewrite T_changeBalance_fail by done. by destruct σ.
Qed.

Lemma cancel_ok (id : GameId) (user : UserId) (σ : Store Game) (game : Game) :
  games σ !! id = Some game → user = creator game → status game = active →
  0 <= amount game → 0 <= balances σ user →
  cancel id user σ = (Ok tt, refunded id user game σ).
Proof.
  intros H Hu Hs Ha Hb. apply cancel_accepted; [done..|].
  pose proof (payAmount_nonneg _ Ha) as Hp. apply Js_add_nonneg. lra.
Qed.

(** Whatever the arguments, a call either succeeds or leaves the two
    collections as they were. *)
Lemma create_success_inv (user : UserId) (dto : CreateGameDto) (σ σ' : Store Game) :
  create user dto σ = (Ok tt, σ') →
  payAmount (dto_amount dto) <= balances σ user ∧
  (userActiveCount user σ < 5)%nat ∧ σ' = created user dto σ.
Proof.
  intros H.
  destruct (Qlt_le_dec (balances σ user) (payAmount (dto_amount dto))) as [Hlt|Hle].
  { rewrite create_insufficient in H by done. discriminate. }
  destruct (Nat.le_gt_cases 5 (userActiveCount user σ)) as [Hc|Hc].
  { rewrite create_limit in H by done. discriminate. }
  rewrite create_ok in H by done. by inversion H.
Qed.

Lemma cancel_success_inv (id : GameId) (user : UserId) (σ σ' : Store Game) :
  cancel id user σ = (Ok tt, σ') →
  ∃ game, games σ !! id = Some game ∧ user = creator game ∧ status game = active.
Proof.
  intros H. destruct (games σ !! id) as [game|] eqn:Hg.
  2: { rewrite cancel_not_found in H by done. discriminate. }
  destruct (decide (user = creator game)) as [Hu|Hu].
  2: { erewrite cancel_not_owner in H by done. discriminate. }
  destruct (decide (status game = active)) as [Hs|Hs].
  2: { erewrite cancel_not_active in H by done. discriminate. }
  eauto.
Qed.

(** *** Every call either fails without touching the collections or has
    the effect described above *)

Lemma create_cases (user : UserId) (dto : CreateGameDto) (σ : Store Game) :
  (∃ e, create user dto σ = (Err e, σ)) ∨
  create user dto σ = (Ok tt, created user dto σ).
Proof.
  destruct (Qlt_le_dec (balances σ user) (payAmount (dto_amount dto))) as [Hlt|Hle].
  { left. eexists. by apply create_insufficient. }
  destruct (Nat.le_gt_cases 5 (userActiveCount user σ)) as [Hc|Hc].
  { left. eexists. by apply create_limit. }
  right. by apply create_ok.
Qed.

Lemma join_cases (dto : JoinGameDto) (user : UserId) (now : nat) (σ : Store Game) :
  (∃ e σ', join dto user now σ = (Err e, σ') ∧
           balances σ' = balances σ ∧ games σ' = games σ) ∨
  (∃ game, games σ !! gameId dto = Some game ∧ status game = active ∧
           user ≠ creator game ∧
           payAmount (amount game) <= balances σ user ∧
           join dto user now σ = (Ok tt, settled dto user now game σ)).
Proof.
  destruct (games σ !! gameId dto) as [game|] eqn:Hg.
  2: { left. do 2 eexists. by rewrite join_not_found. }
  destruct (decide (status game = active)) as [Hs|Hs].
  2: { left. do 2 eexists. by erewrite join_not_active. }
  destruct (Qlt_le_dec (balances σ user) (payAmount (amount game))) as [Hlt|Hle].
  { left. do 2 eexists. by erewrite join_insufficient. }
  destruct (decide (user = creator game)) as [Hu|Hu].
  { left. do 2 eexists. by erewrite join_self. }
  cut ((∃ e σ', join dto user now σ = (Err e, σ') ∧
                balances σ' = balances σ ∧ games σ' = games σ) ∨
       join dto user now σ = (Ok tt, settled dto user now game σ)).
  { intros [?|?]; [by left|right; eauto 10]. }
  unfold join. rewrite Hg, bool_decide_eq_true_2 by done.
  fold (payAmount (amount game)). rewrite Js_lt_false by done.
  apply Nat.eqb_neq in Hu as Hu'. rewrite Hu'. cbn [negb].
  unfold transaction, pickWinner, settled, settled_game, credits, selected.
  unfold changeBalance; run_monad.
  cbn [opponent opponentMove set_joined creator creatorMove amount set_winner
       balances games events negb disableNotification no_options silent].
  fold (payAmount (amount game)).
  rewrite (Js_lt_false (Js.add (balances σ user) (- payAmount (amount game))) 0)
    by (apply Js_add_nonneg; lra).
  destruct (creatorMove game =? move dto)%nat;
    [|destruct (creatorMove game =? winningChoice (creatorMove game) (move dto))%nat];
    repeat (match goal with |- context [Js.lt ?a ?b] => destruct (Js.lt a b) end);
    cbn [balances games events foldl credit fst snd];
    rewrite ?app_nil_r;
    first [ left; do 2 eexists; split; [reflexivity|split; reflexivity]
          | right; reflexivity ].
Qed.

Lemma join_success_inv (dto : JoinGameDto) (user : UserId) (now : nat)
    (σ σ' : Store Game) (game : Game) :
  games σ !! gameId dto = Some game →
  join dto user now σ = (Ok tt, σ') →
  status game = active ∧ user ≠ creator game ∧
  payAmount (amount game) <= balances σ user ∧
  σ' = settled dto user now game σ.
Proof.
  intros Hg Hj.
  destruct (join_cases dto user now σ)
    as [(e & σ'' & Hj' & _)|(game' & Hg' & Hs & Hne & Hb & Hj')];
    rewrite Hj' in Hj; by simplify_eq.
Qed.

Lemma cancel_cases (id : GameId) (user : UserId) (σ : Store Game) :
  (∃ e, cancel id user σ = (Err e, σ)) ∨
  (∃ game, games σ !! id = Some game ∧ user = creator game ∧ status game = active ∧
           cancel id user σ = (Ok tt, refunded id user game σ)).
Proof.
  destruct (games σ !! id) as [game|] eqn:Hg.
  2: { left. eexists. by rewrite cancel_not_found. }
  destruct (decide (user = creator game)) as [Hu|Hu].
  2: { left. eexists. by erewrite cancel_not_owner. }
  destruct (decide (status game = active)) as [Hs|Hs].
  2: { left. eexists. by erewrite cancel_not_active. }
  destruct (Qlt_le_dec (Js.add (balances σ user) (payAmount (amount game))) 0) as [Hlt|Hle].
  - left. eexists. by eapply cancel_refused.
  - right. exists game. do 3 (split; [done|]). by apply cancel_accepted.
Qed.

(** *** The life cycle of a game *)

Lemma settled_game_status (game : Game) (user : UserId) (move now : nat) :
  status (settled_game game user move now) = ended.
Proof. unfold settled_game. by destruct (selected _ _ _ _). Qed.

Lemma settled_game_amount (game : Game) (user : UserId) (move now : nat) :
  amount (settled_game game user move now) = amount game.
Proof. unfold settled_game. by destruct (selected _ _ _ _). Qed.

(** What one call does to a game that exists: nothing, or it takes an active
    game to [ended] or [cancelled], keeping its stake. *)
Lemma exec_game (c : Call) (σ : Store Game) (id : GameId) (game : Game) :
  games σ !! id = Some game →
  ∃ game', games (exec c σ).2 !! id = Some game' ∧
           amount game' = amount game ∧
           (game' = game ∨
            (status game = active ∧ (status game' = ended ∨ status game' = cancelled))).
Proof.
  intros Hg. destruct c as [user dto|dto user now|id' user]; cbn [exec].
  - destruct (create_cases user dto σ) as [[e ->]| ->]; cbn [snd]; [eauto|].
    exists game. split; [|eauto]. cbn [created games].
    rewrite lookup_insert_ne; [done|]. intros <-. by rewrite fresh_game_id in Hg.
  - destruct (join_cases dto user now σ) as [(e & σ' & -> & _ & Hgs)|(g & Hg' & Hs & _ & _ & ->)];
      cbn [snd].
    + rewrite Hgs. eauto.
    + cbn [settled games]. destruct (decide (gameId dto = id)) as [<-|Hne].
      * rewrite lookup_insert_eq. eexists. split; [done|]. simplify_eq.
        rewrite settled_game_amount, settled_game_status. eauto.
      * rewrite lookup_insert_ne by done. eauto.
  - destruct (cancel_cases id' user σ) as [[e ->]|(g & Hg' & _ & Hs & ->)]; cbn [snd]; [eauto|].
    cbn [refunded games]. destruct (decide (id' = id)) as [<-|Hne].
    + rewrite lookup_insert_eq. eexists. split; [done|]. simplify_eq. cbn. eauto.
    + rewrite lookup_insert_ne by done. eauto.
Qed.

(** A game a call brings into existence is active. *)
Lemma exec_new_game (c : Call) (σ : Store Game) (id : GameId) (game' : Game) :
  games σ !! id = None →
  games (exec c σ).2 !! id = Some game' →
  status game' = active.
Proof.
  intros Hg. destruct c as [user dto|dto user now|id' user]; cbn [exec].
  - destruct (create_cases user dto σ) as [[e ->]| ->]; cbn [snd]; [congruence|].
    cbn [created games]. intros [[_ <-]|[_ ?]]%lookup_insert_Some; [done|congruence].
  - destruct (join_cases dto user now σ) as [(e & σ' & -> & _ & Hgs)|(g & Hg' & Hs & _ & _ & ->)];
      cbn [snd].
    + rewrite Hgs. congruence.
    + cbn [settled games]. intros [[<- _]|[_ ?]]%lookup_insert_Some; congruence.
  - destruct (cancel_cases id' user σ) as [[e ->]|(g & Hg' & _ & Hs & ->)]; cbn [snd];
      [congruence|].
    cbn [refunded games]. intros [[<- _]|[_ ?]]%lookup_insert_Some; congruence.
Qed.

Lemma steps_game (σ σ' : Store Game) (id : GameId) (game : Game) :
  rtc step σ σ' →
  games σ !! id = Some game →
  ∃ game', games σ' !! id = Some game' ∧
           amount game' = amount game ∧
           status_advances (status game) (status game') ∧
           (status game ≠ active → game' = game).
Proof.
  intros Hsteps. revert game. induction Hsteps as [σ|σ σ1 σ' [c <-] _ IH]; intros game Hg.
  - exists game. unfold status_advances. eauto.
  - destruct (exec_game c σ id game Hg) as (g1 & Hg1 & Ha1 & Hcase).
    destruct (IH g1 Hg1) as (g' & Hg' & Ha' & Hadv & Hfix).
    exists g'. split; [done|]. split; [congruence|].
    destruct Hcase as [->|[Hs Hs1]]; [done|].
    split.
    + eapply status_advances_trans; [|done]. unfold status_advances. eauto.
    + congruence.
Qed.

Lemma steps_valid (σ σ' : Store Game) :
  rtc step σ σ' →
  (∀ id game, games σ !! id = Some game → status_valid (status game)) →
  ∀ id game, games σ' !! id = Some game → status_valid (status game).
Proof.
  induction 1 as [σ|σ σ1 σ' [c <-] _ IH]; intros Hinv; [done|].
  apply IH. intros id g1 Hg1.
  destruct (games σ !! id) as [g|] eqn:Hg.
  - destruct (exec_game c σ id g Hg) as (g1' & Hg1' & _ & Hcase).
    assert (g1' = g1) as -> by congruence.
    destruct Hcase as [->|[_ [Hs|Hs]]]; [by eapply Hinv|..];
      unfold status_valid; eauto.
  - left. by eapply exec_new_game.
Qed.

(** [create] followed by [cancel] credits the creator the sum that was
    debited; the balance is the double sum of the two operations. *)
Lemma create_cancel_restores (user : UserId) (dto : CreateGameDto) (σ : Store Game) :
  payAmount (dto_amount dto) <= balances σ user →
  (userActiveCount user σ < 5)%nat →
  0 <= dto_amount dto →
  ∃ σ1 σ2, create user dto σ = (Ok tt, σ1) ∧
           cancel (fresh (dom (games σ))) user σ1 = (Ok tt, σ2) ∧
           balances σ2 user =
             Js.add (Js.add (balances σ user) (- payAmount (dto_amount dto)))
                    (payAmount (dto_amount dto)) ∧
           ∀ u, u ≠ user → balances σ2 u = balances σ u.
Proof.
  intros Hb Hc Ha. pose proof (payAmount_nonneg _ Ha) as Hp.
  assert (0 <= Js.add (balances σ user) (- payAmount (dto_amount dto))) as Hd
    by (apply Js_add_nonneg; lra).
  exists (created user dto σ). eexists.
  split; [by apply create_ok|].
  split.
  - apply cancel_ok with (game := newGame user dto); cbn [created games balances newGame
      creator status amount]; [apply lookup_insert_eq|done..|by fn_simpl].
  - cbn [refunded created balances newGame amount]. split; [by fn_simpl|].
    intros u Hne. by fn_simpl.
Qed.

(** *** Settlement: who wins *)

Lemma winningChoice_beats (creatorMove opponentMove : nat) :
  (creatorMove ≤ 2)%nat → (opponentMove ≤ 2)%nat → creatorMove ≠ opponentMove →
  winningChoice creatorMove opponentMove =
    if beats creatorMove opponentMove then creatorMove else opponentMove.
Proof.
  intros Hc Ho Hne.
  destruct creatorMove as [|[|[|?]]]; [| | |lia];
    (destruct opponentMove as [|[|[|?]]]; [| | |lia]); done.
Qed.

(** For two moves of {0, 1, 2}: nobody is selected when they are equal, and
    otherwise exactly the mover whose move beats the other one. *)
Lemma selected_cyclic (creator opponent : UserId) (creatorMove opponentMove : nat) :
  (creatorMove ≤ 2)%nat → (opponentMove ≤ 2)%nat →
  selected creator opponent creatorMove opponentMove =
    if (creatorMove =? opponentMove)%nat then None
    else if beats creatorMove opponentMove then Some creator else Some opponent.
Proof.
  intros Hc Ho.
  destruct creatorMove as [|[|[|?]]]; [| | |lia];
    (destruct opponentMove as [|[|[|?]]]; [| | |lia]); done.
Qed.

(** Each move beats exactly one other move and loses to the remaining one. *)
Lemma beats_cyclic (a b : nat) :
  (a ≤ 2)%nat → (b ≤ 2)%nat → a ≠ b → beats a b = negb (beats b a).
Proof.
  intros Ha Hb Hne.
  destruct a as [|[|[|?]]]; [| | |lia]; (destruct b as [|[|[|?]]]; [| | |lia]); done.
Qed.

(** The winner recorded on the document of a joined game. *)
Lemma pickWinner_cyclic (dto : JoinGameDto) (user : UserId) (now : nat)
    (σ : Store Game) (game : Game) :
  games σ !! gameId dto = Some game →
  status game = active →
  payAmount (amount game) <= balances σ user →
  user ≠ creator game →
  0 <= amount game →
  0 <= balances σ (creator game) →
  (creatorMove game ≤ 2)%nat → (move dto ≤ 2)%nat →
  ∃ σ' game',
    join dto user now σ = (Ok tt, σ') ∧
    games σ' !! gameId dto = Some game' ∧
    status game' = ended ∧
    (creatorMove game = move dto → winner game' = winner game) ∧
    (creatorMove game ≠ move dto →
       winner game' = Some (if beats (creatorMove game) (move dto)
                            then creator game else user)).
Proof.
  intros Hg Hs Hb Hne Ha Hc Hcm Hm.
  exists (settled dto user now game σ), (settled_game game user (move dto) now).
  split; [by apply join_ok|]. cbn [settled games].
  split; [apply lookup_insert_eq|]. split; [apply settled_game_status|].
  unfold settled_game. rewrite selected_cyclic by done.
  split; intros Hmv.
  - apply Nat.eqb_eq in Hmv. by rewrite Hmv.
  - apply Nat.eqb_neq in Hmv. rewrite Hmv. by destruct (beats _ _).
Qed.

(** *** Settlement: a tie *)

Lemma credits_tie (game : Game) (user : UserId) (move : nat) :
  creatorMove game = move →
  credits game user move =
    [(creator game, payAmount (amount game)); (user, payAmount (amount game))].
Proof. intros <-. unfold credits, selected. by rewrite Nat.eqb_refl. Qed.

Lemma tie_join (dto : JoinGameDto) (user : UserId) (now : nat) (σ : Store Game)
    (game : Game) :
  games σ !! gameId dto = Some game →
  status game = active →
  payAmount (amount game) <= balances σ user →
  user ≠ creator game →
  0 <= amount game →
  0 <= balances σ (creator game) →
  creatorMove game = move dto →
  ∃ σ', join dto user now σ = (Ok tt, σ') ∧
        credits game user (move dto) =
          [(creator game, payAmount (amount game)); (user, payAmount (amount game))] ∧
        balances σ' = foldl credit (credit (balances σ) (user, - payAmount (amount game)))
                            (credits game user (move dto)) ∧
        balances σ' (creator game)
          = Js.add (balances σ (creator game)) (payAmount (amount game)) ∧
        balances σ' user
          = Js.add (Js.add (balances σ user) (- payAmount (amount game)))
                   (payAmount (amount game)) ∧
        (∀ other, other ≠ user → other ≠ creator game →
                  balances σ' other = balances σ other).
Proof.
  intros Hg Hs Hb Hne Ha Hc Hmv.
  exists (settled dto user now game σ).
  split; [by apply join_ok|]. split; [by apply credits_tie|].
  cbn [settled balances]. split; [done|].
  rewrite credits_tie by done. unfold credit; cbn [foldl fst snd].
  split; [by fn_simpl|]. split; [by fn_simpl|].
  intros other Hu Hcr. by fn_simpl.
Qed.

(** A whole game that ends in a tie: each party is credited the sum it was
    debited, and its balance is the double sum of the two operations. *)
Lemma tie_whole_game (creator user : UserId) (dto : CreateGameDto) (now : nat)
    (σ : Store Game) :
  payAmount (dto_amount dto) <= balances σ creator →
  (userActiveCount creator σ < 5)%nat →
  0 <= dto_amount dto →
  user ≠ creator →
  payAmount (dto_amount dto) <= balances σ user →
  ∃ σ1 σ2,
    create creator dto σ = (Ok tt, σ1) ∧
    balances σ1 creator = Js.add (balances σ creator) (- payAmount (dto_amount dto)) ∧
    join {| gameId := fresh (dom (games σ)); move := dto_creatorMove dto |} user now σ1
      = (Ok tt, σ2) ∧
    balances σ2 user
      = Js.add (Js.add (balances σ user) (- payAmount (dto_amount dto)))
               (payAmount (dto_amount dto)) ∧
    balances σ2 creator
      = Js.add (Js.add (balances σ creator) (- payAmount (dto_amount dto)))
               (payAmount (dto_amount dto)) ∧
    ∀ u, u ≠ creator → u ≠ user → balances σ2 u = balances σ u.
Proof.
  intros Hb Hc Ha Hne Hbu.
  pose proof (payAmount_nonneg _ Ha) as Hp.
  assert (creator ≠ user) as Hne' by congruence.
  assert (0 <= Js.add (balances σ creator) (- payAmount (dto_amount dto))) as Hd
    by (apply Js_add_nonneg; lra).
  exists (created creator dto σ). eexists.
  split; [by apply create_ok|].
  split; [cbn [created balances]; by fn_simpl|].
  split.
  { apply join_ok with (game := newGame creator dto);
      cbn [created games balances newGame Transactional.creator status amount gameId];
      [apply lookup_insert_eq|done|by fn_simpl|done|done|by fn_simpl]. }
  cbn [settled balances]. rewrite credits_tie by done.
  unfold credit; cbn [foldl fst snd created balances newGame Transactional.creator amount
                      gameId move].
  split; [by fn_simpl|]. split; [by fn_simpl|].
  intros u Hu1 Hu2. by fn_simpl.
Qed.

(** The refunds of any [join] that settles a tie. *)
Lemma tie_settled (dto : JoinGameDto) (user : UserId) (now : nat) (σ σ' : Store Game)
    (game : Game) :
  games σ !! gameId dto = Some game →
  join dto user now σ = (Ok tt, σ') →
  creatorMove game = move dto →
  credits game user (move dto) =
    [(creator game, payAmount (amount game)); (user, payAmount (amount game))] ∧
  balances σ' = foldl credit (credit (balances σ) (user, - payAmount (amount game)))
                      (credits game user (move dto)) ∧
  balances σ' (creator game)
    = Js.add (balances σ (creator game)) (payAmount (amount game)) ∧
  balances σ' user
    = Js.add (Js.add (balances σ user) (- payAmount (amount game)))
             (payAmount (amount game)) ∧
  (∀ other, other ≠ user → other ≠ creator game → balances σ' other = balances σ other) ∧
  games σ' !! gameId dto = Some (set_joined game user (move dto) now).
Proof.
  intros Hg Hj Hmv.
  destruct (join_success_inv dto user now σ σ' game Hg Hj) as (Hs & Hne & Hb & ->).
  split; [by apply credits_tie|].
  cbn [settled balances games]. split; [done|].
  unfold settled_game, selected. rewrite credits_tie, Hmv, Nat.eqb_refl by done.
  unfold credit; cbn [foldl fst snd].
  split; [by fn_simpl|]. split; [by fn_simpl|].
  split; [intros other Hu Hcr; by fn_simpl|apply lookup_insert_eq].
Qed.

(** *** Settlement: a decisive game *)

(** The payout of any [join] that settles a decisive game. *)
Lemma decisive_settled (dto : JoinGameDto) (user : UserId) (now : nat)
    (σ σ' : Store Game) (game : Game) :
  games σ !! gameId dto = Some game →
  join dto user now σ = (Ok tt, σ') →
  creatorMove game ≠ move dto →
  let debited := credit (balances σ) (user, - payAmount (amount game)) in
  ∃ winner loser,
    ((winner = creator game ∧ loser = user) ∨ (winner = user ∧ loser = creator game)) ∧
    games σ' !! gameId dto
      = Some (set_winner (set_joined game user (move dto) now) winner) ∧
    credits game user (move dto) = [(winner, Js.mul (amount game) 2)] ∧
    balances σ' = foldl credit debited (credits game user (move dto)) ∧
    balances σ' winner = Js.add (debited winner) (Js.mul (amount game) 2) ∧
    balances σ' loser = debited loser ∧
    (∀ other, other ≠ winner → balances σ' other = debited other).
Proof.
  intros Hg Hj Hmv debited.
  destruct (join_success_inv dto user now σ σ' game Hg Hj) as (Hs & Hne & Hb & ->).
  apply Nat.eqb_neq in Hmv.
  assert (∃ winner loser,
             ((winner = creator game ∧ loser = user) ∨ (winner = user ∧ loser = creator game)) ∧
             selected (creator game) user (creatorMove game) (move dto) = Some winner)
    as (winner & loser & Hwl & Hsel).
  { unfold selected. rewrite Hmv.
    destruct (creatorMove game =? winningChoice _ _)%nat;
      [exists (creator game), user|exists user, (creator game)];
      (split; [tauto|done]). }
  exists winner, loser. split; [done|].
  cbn [settled games balances]. unfold settled_game, credits. rewrite Hsel.
  split; [apply lookup_insert_eq|]. split; [done|].
  unfold credit; cbn [foldl fst snd]. split; [done|].
  split; [by fn_simpl|].
  split; [|intros other Ho; by fn_simpl].
  apply fn_lookup_insert_ne. destruct Hwl as [[-> ->]|[-> ->]]; congruence.
Qed.

(** C2, as the specification words it, fails on the scenario of its own
    section 8: with stake 100 and fee 4%, Bob joins Alice's move 0 with move 1
    and wins; having paid 104 Bob is credited 200 and holds 1096, not the
    1088 that a payout of round(200 × 0.96) = 192 would leave. *)
Lemma decisive_payout_counterexample :
  ∃ σ',
    join {| gameId := 0%nat; move := 1%nat |} Scenario.bob 7%nat Scenario.opened
      = (Ok tt, σ') ∧
    (∃ game', games σ' !! 0%nat = Some game' ∧ winner game' = Some Scenario.bob) ∧
    spec_payout 100 == 192 ∧
    balances σ' Scenario.bob == 1000 - 104 + 200 ∧
    ¬ balances σ' Scenario.bob == 1000 - 104 + spec_payout 100.
Proof.
  exists (join {| gameId := 0%nat; move := 1%nat |} Scenario.bob 7%nat Scenario.opened).2.
  split; [by vm_compute|].
  split; [eexists; split; by vm_compute|].
  split; [by vm_compute|]. split; [by vm_compute|]. by vm_compute.
Qed.

(** *** Settlement: notifications *)

Lemma pickWinner_events (id : GameId) (game : Game) (σ : Store Game) :
  events (pickWinner id game σ).2 = events σ.
Proof.
  unfold pickWinner. destruct (opponent game) as [opp|]; [|done].
  destruct (opponentMove game) as [om|]; [|done].
  unfold changeBalance; run_monad.
  cbn [negb disableNotification silent].
  destruct (creatorMove game =? om)%nat;
    [|destruct (creatorMove game =? winningChoice (creatorMove game) om)%nat];
    repeat (match goal with |- context [Js.lt ?a ?b] => destruct (Js.lt a b) end);
    cbn [snd events balances games]; by rewrite ?app_nil_r.
Qed.

(** What [pickWinner] does when it succeeds: the credits are applied to the
    ledger, the document is saved, and the trace of events is as it was. *)
Lemma pickWinner_ok (id : GameId) (game game' : Game) (σ σ' : Store Game)
    (opp : UserId) (om : nat) :
  opponent game = Some opp → opponentMove game = Some om →
  pickWinner id game σ = (Ok game', σ') →
  balances σ' = foldl credit (balances σ) (credits game opp om) ∧
  games σ' = <[id := game']> (games σ) ∧
  events σ' = events σ.
Proof.
  intros Ho Hom. unfold pickWinner. rewrite Ho, Hom.
  unfold credits, selected, payAmount.
  unfold changeBalance; run_monad.
  cbn [negb disableNotification silent].
  destruct (creatorMove game =? om)%nat;
    [|destruct (creatorMove game =? winningChoice (creatorMove game) om)%nat];
    repeat (match goal with |- context [Js.lt ?a ?b] => destruct (Js.lt a b) end);
    cbn [balances games events amount set_winner]; intros H; simplify_eq;
    cbn [balances games events foldl credit fst snd]; by rewrite ?app_nil_r.
Qed.

(** C10.  Every credit of [pickWinner], the two refunds of a tie as well as
    the winner's payout, is made with [disableNotification] set: the call
    emits no event at all, whatever the document and the store, also when it
    succeeds and the credits are on the ledger.  A successful [join] therefore
    emits, after the notification of the joiner's own debit (made with the
    default options, before the settlement), exactly one event: the game
    update carrying the settled document. *)
Theorem settlement_is_silent :
  (∀ (id : GameId) (game : Game) (σ : Store Game),
     events (pickWinner id game σ).2 = events σ) ∧
  (∀ (id : GameId) (game game' : Game) (σ σ' : Store Game) (opp : UserId) (om : nat),
     opponent game = Some opp → opponentMove game = Some om →
     pickWinner id game σ = (Ok game', σ') →
     balances σ' = foldl credit (balances σ) (credits game opp om) ∧
     events σ' = events σ) ∧
  (∀ (dto : JoinGameDto) (user : UserId) (now : nat) (σ σ' : Store Game),
     join dto user now σ = (Ok tt, σ') →
     ∃ game game',
       games σ !! gameId dto = Some game ∧
       games σ' !! gameId dto = Some game' ∧
       events (changeBalance user (- payAmount (amount game)) no_options σ).2 =
         events σ ++
           [BalanceChange user (Js.add (balances σ user) (- payAmount (amount game)))
              false] ∧
       events σ' =
         (events σ ++
            [BalanceChange user (Js.add (balances σ user) (- payAmount (amount game)))
               false])
         ++ [GameUpdate (gameId dto) game'] ∧
       filter (λ e, is_BalanceChange e = true)
              (drop (S (length (events σ))) (events σ')) = []).
Proof.
  split; [apply pickWinner_events|].
  split.
  { intros id game game' σ σ' opp om Ho Hom Hp.
    destruct (pickWinner_ok id game game' σ σ' opp om Ho Hom Hp) as (Hb & _ & He).
    by split. }
  intros dto user now σ σ' Hj.
  destruct (join_cases dto user now σ)
    as [(e & σ'' & Hj' & _)|(game & Hg & Hs & Hne & Hb & Hj')];
    rewrite Hj' in Hj; simplify_eq.
  exists game, (settled_game game user (move dto) now).
  split; [done|]. cbn [settled games events].
  split; [apply lookup_insert_eq|].
  split.
  { by rewrite T_changeBalance_ok by (apply Js_add_nonneg; lra). }
  split; [done|].
  rewrite <- app_assoc. cbn [app].
  rewrite drop_app_ge by lia.
  by replace (S (length (events σ)) - length (events σ))%nat with 1%nat by lia.
Qed.

Lemma settlement_is_silent_witness :
  ∃ game game',
    games Scenario.opened !! 0%nat = Some game ∧
    games (join {| gameId := 0%nat; move := 1%nat |} Scenario.bob 7%nat Scenario.opened).2
      !! 0%nat = Some game' ∧
    events (join {| gameId := 0%nat; move := 1%nat |} Scenario.bob 7%nat Scenario.opened).2 =
      ([] ++ [BalanceChange Scenario.bob (Js.add 1000 (- payAmount (amount game))) false])
      ++ [GameUpdate 0%nat game'].
Proof.
  destruct (proj2 (proj2 settlement_is_silent)
              {| gameId := 0%nat; move := 1%nat |} Scenario.bob 7%nat
              Scenario.opened
              (join {| gameId := 0%nat; move := 1%nat |} Scenario.bob 7%nat Scenario.opened).2
              eq_refl)
    as (game & game' & Hg & Hg' & _ & He & _).
  exists game, game'. split; [exact Hg|]. split; [exact Hg'|]. exact He.
Defined.

End TransactionalProofs.

(** ** The non-transactional service *)

Module NonTransactionalProofs.
Import NonTransactional NonTransactionalOutcomes.

(** The comparison of [moves] with the two literals never succeeds, so the
    wraparound branch is dead: the choice is always the larger move. *)
Lemma nt_winningChoice_max (h : Js.heap) (creatorMove opponentMove : nat) :
  winningChoice h creatorMove opponentMove = Nat.max creatorMove opponentMove.
Proof.
  unfold winningChoice, Js.alloc, Js.strict_eq_ref, Js.read.
  cbn [fst snd Js.next_ref Js.cells].
  set (r := Js.next_ref h).
  assert (H1 : (r =? S r)%nat = false) by (apply Nat.eqb_neq; lia).
  assert (H2 : (r =? S (S r))%nat = false) by (apply Nat.eqb_neq; lia).
  assert (H3 : (S r =? r)%nat = false) by (apply Nat.eqb_neq; lia).
  assert (H4 : (S (S r) =? r)%nat = false) by (apply Nat.eqb_neq; lia).
  rewrite H1, H2. cbn [List.find fst snd]. rewrite H3, H4, Nat.eqb_refl.
  cbn. lia.
Qed.

Lemma Math_round_nonneg (x : Q) : 0 <= x → 0 <= Js.Math_round x.
Proof.
  intros H. unfold Js.Math_round.
  change 0 with (inject_Z 0). rewrite <- Zle_Qle.
  change 0%Z with (Qfloor 0). apply Qfloor_resp_le. lra.
Qed.

Lemma payout_nonneg (amount fee : Q) :
  0 <= amount → fee <= 100 → 0 <= payout amount fee.
Proof.
  intros Ha Hf. apply Math_round_nonneg.
  apply Js_mul_nonneg; [apply Js_mul_nonneg; lra|].
  apply Js_div_nonneg; [by apply Js_sub_nonneg|lra].
Qed.

Lemma nt_create_ok (schema_fee : Q) (user : UserId) (dto : CreateGameDto) (σ : Store Game) :
  dto_amount dto <= balances σ user →
  (userActiveCount user σ < 5)%nat →
  ∃ σ', create schema_fee user dto σ = (Ok tt, σ') ∧
        balances σ' = credit (balances σ) (user, - dto_amount dto) ∧
        games σ' = <[fresh (dom (games σ)) := newGame schema_fee user dto]> (games σ).
Proof.
  intros Hb Hc. unfold create. rewrite Js_lt_false by done.
  apply Nat.ltb_lt in Hc. rewrite Hc. cbn [negb].
  unfold try_catch; run_monad. ledger. eexists. split; [reflexivity|done].
Qed.

Lemma nt_join_ok (h : Js.heap) (dto : JoinGameDto) (user : UserId) (now : nat)
    (σ : Store Game) (game : Game) :
  games σ !! gameId dto = Some game →
  status game = active →
  amount game <= balances σ user →
  user ≠ creator game →
  0 <= amount game →
  0 <= balances σ (creator game) →
  fee game <= 100 →
  ∃ σ', join h dto user now σ = (Ok tt, σ') ∧
        balances σ' = foldl credit (credit (balances σ) (user, - amount game))
                            (credits h game user (move dto)) ∧
        games σ' = <[gameId dto := settled_game h game user (move dto) now]> (games σ).
Proof.
  intros H Hs Hb Hne Ha Hc Hf. unfold join.
  rewrite H, bool_decide_eq_true_2 by done.
  rewrite Js_lt_false by done.
  apply Nat.eqb_neq in Hne as Hne'. rewrite Hne'. cbn [negb].
  pose proof (payout_nonneg _ _ Ha Hf) as Hp. unfold payout in Hp.
  unfold credits, settled_game, selected, credit, payout.
  unfold joining, detached, pickWinner, Promise_all; run_monad.
  cbn [opponent opponentMove set_joined set_ended creator creatorMove amount fee fst snd].
  ledger.
  cbn [opponent opponentMove set_joined set_ended creator creatorMove amount fee fst snd
       balances games events].
  destruct (creatorMove game =? move dto)%nat.
  - do 2 ledger. cbn [balances games events fst snd foldl].
    eexists. split; [reflexivity|]. cbn [balances games]. fn_simpl.
    split; [done|]. by rewrite insert_insert_eq.
  - destruct (creatorMove game =? winningChoice h (creatorMove game) (move dto))%nat;
      ledger; cbn [balances games events fst snd foldl];
      (eexists; split; [reflexivity|]); cbn [balances games]; fn_simpl;
      (split; [done|]); by rewrite insert_insert_eq.
Qed.

(** Between two different moves the non-transactional [pickWinner] always
    selects the mover of the larger one. *)
Lemma nt_selected_max (h : Js.heap) (creator opponent : UserId)
    (creatorMove opponentMove : nat) :
  creatorMove ≠ opponentMove →
  selected h creator opponent creatorMove opponentMove =
    Some (if (opponentMove <? creatorMove)%nat then creator else opponent).
Proof.
  intros Hne. unfold selected. rewrite nt_winningChoice_max.
  apply Nat.eqb_neq in Hne as Hne'. rewrite Hne'.
  destruct (Nat.ltb_spec opponentMove creatorMove).
  - by rewrite Nat.max_l, Nat.eqb_refl by lia.
  - replace (creatorMove =? creatorMove `max` opponentMove)%nat with false; [done|].
    symmetry. apply Nat.eqb_neq. lia.
Qed.

(** C1 on the non-transactional service.  With a creator move of 0 and an
    opponent move of 2 the comparison of [moves] with the literals [[0, 2]]
    and [[2, 0]] fails, whatever the heap, [winningChoice] is
    [Math.max(0, 2) = 2], and the game is settled in favour of the opponent,
    the mover of 2, who is paid round(200 × 0.96) = 192: the wraparound case
    is not won by the mover of 0. *)
Theorem nt_wraparound_missed :
  (∀ h : Js.heap, winningChoice h 0 2 = 2%nat) ∧
  (∀ (h : Js.heap) (now : nat),
     ∃ σ' game',
       join h {| gameId := 0%nat; move := 2%nat |} Scenario.bob now Scenario.nt_opened
         = (Ok tt, σ') ∧
       games σ' !! 0%nat = Some game' ∧
       creator game' = Scenario.alice ∧ creatorMove game' = 0%nat ∧
       opponent game' = Some Scenario.bob ∧ opponentMove game' = Some 2%nat ∧
       status game' = ended ∧
       winner game' = Some Scenario.bob ∧
       balances σ' Scenario.bob == 1000 - 100 + 192 ∧
       balances σ' Scenario.alice == 1000).
Proof.
  split; [intros h; apply nt_winningChoice_max|].
  intros h now.
  destruct (nt_join_ok h {| gameId := 0%nat; move := 2%nat |} Scenario.bob now
              Scenario.nt_opened Scenario.nt_game)
    as (σ' & Hj & Hb & Hg); [reflexivity|reflexivity|discriminate|discriminate|
                             discriminate|discriminate|discriminate|].
  cbn [gameId move] in Hb, Hg.
  exists σ', (settled_game h Scenario.nt_game Scenario.bob 2 now).
  split; [done|]. rewrite Hg, Hb. split; [apply lookup_insert_eq|].
  unfold settled_game, credits. rewrite !nt_selected_max by done.
  cbn. repeat (split; [done|]). done.
Qed.

(** *** Settlement in the non-transactional service *)

(** The winner is credited the pot minus the fee, rounded; the tie refunds
    are the bare stake. *)
Lemma nt_decisive_payout (h : Js.heap) (dto : JoinGameDto) (user : UserId) (now : nat)
    (σ : Store Game) (game : Game) :
  games σ !! gameId dto = Some game →
  status game = active →
  amount game <= balances σ user →
  user ≠ creator game →
  0 <= amount game →
  0 <= balances σ (creator game) →
  fee game <= 100 →
  creatorMove game ≠ move dto →
  ∃ σ' winner,
    join h dto user now σ = (Ok tt, σ') ∧
    winner = (if (move dto <? creatorMove game)%nat then creator game else user) ∧
    balances σ' =
      credit (credit (balances σ) (user, - amount game))
             (winner, payout (amount game) (fee game)).
Proof.
  intros Hg Hs Hb Hne Ha Hc Hf Hmv.
  destruct (nt_join_ok h dto user now σ game) as (σ' & Hj & Hbal & _); [done..|].
  exists σ'. eexists. split; [done|]. split; [done|].
  rewrite Hbal. unfold credits. by rewrite nt_selected_max by done.
Qed.

(** The winner recorded on the document of a joined game. *)
Lemma nt_join_winner (h : Js.heap) (dto : JoinGameDto) (user : UserId) (now : nat)
    (σ : Store Game) (game : Game) :
  games σ !! gameId dto = Some game →
  status game = active →
  amount game <= balances σ user →
  user ≠ creator game →
  0 <= amount game →
  0 <= balances σ (creator game) →
  fee game <= 100 →
  creatorMove game ≠ move dto →
  ∃ σ' game',
    join h dto user now σ = (Ok tt, σ') ∧
    games σ' !! gameId dto = Some game' ∧
    status game' = ended ∧
    winner game' = Some (if (move dto <? creatorMove game)%nat then creator game else user).
Proof.
  intros Hg Hs Hb Hne Ha Hc Hf Hmv.
  destruct (nt_join_ok h dto user now σ game) as (σ' & Hj & _ & Hgs); [done..|].
  exists σ', (settled_game h game user (move dto) now).
  split; [done|]. rewrite Hgs. split; [apply lookup_insert_eq|].
  unfold settled_game. by rewrite nt_selected_max by done.
Qed.

Lemma nt_tie_refund (h : Js.heap) (dto : JoinGameDto) (user : UserId) (now : nat)
    (σ : Store Game) (game : Game) :
  games σ !! gameId dto = Some game →
  status game = active →
  amount game <= balances σ user →
  user ≠ creator game →
  0 <= amount game →
  0 <= balances σ (creator game) →
  fee game <= 100 →
  creatorMove game = move dto →
  ∃ σ',
    join h dto user now σ = (Ok tt, σ') ∧
    balances σ' =
      credit (credit (credit (balances σ) (user, - amount game))
                     (creator game, amount game))
             (user, amount game) ∧
    balances σ' (creator game) == balances σ (creator game) + amount game ∧
    balances σ' user == balances σ user.
Proof.
  intros Hg Hs Hb Hne Ha Hc Hf Hmv.
  destruct (nt_join_ok h dto user now σ game) as (σ' & Hj & Hbal & _); [done..|].
  exists σ'. split; [done|].
  rewrite Hbal. unfold credits, selected. rewrite Hmv, Nat.eqb_refl.
  unfold credit; cbn [foldl fst snd]. split; [done|].
  split; fn_simpl; lra.
Qed.

(** From [create] to a settling [join] with the same move, no balance has
    changed. *)
Lemma nt_tie_whole_game (schema_fee : Q) (h : Js.heap) (creator user : UserId)
    (dto : CreateGameDto) (now : nat) (σ : Store Game) :
  dto_amount dto <= balances σ creator →
  (userActiveCount creator σ < 5)%nat →
  0 <= dto_amount dto →
  user ≠ creator →
  dto_amount dto <= balances σ user →
  schema_fee <= 100 →
  ∃ σ1 σ2,
    create schema_fee creator dto σ = (Ok tt, σ1) ∧
    balances σ1 creator == balances σ creator - dto_amount dto ∧
    join h {| gameId := fresh (dom (games σ)); move := dto_creatorMove dto |} user now σ1
      = (Ok tt, σ2) ∧
    ∀ u, balances σ2 u == balances σ u.
Proof.
  intros Hb Hc Ha Hne Hbu Hf.
  assert (creator ≠ user) as Hne' by congruence.
  destruct (nt_create_ok schema_fee creator dto σ) as (σ1 & Hcr & Hb1 & Hg1); [done..|].
  destruct (nt_tie_refund h {| gameId := fresh (dom (games σ)); move := dto_creatorMove dto |}
              user now σ1 (newGame schema_fee creator dto))
    as (σ2 & Hj & Hb2 & _);
    cbn [gameId move newGame NonTransactional.creator status amount fee creatorMove];
    rewrite ?Hg1, ?Hb1; unfold credit; cbn [fst snd];
    [apply lookup_insert_eq|done|by fn_simpl|done|done|fn_simpl; lra|done|done|].
  exists σ1, σ2. split; [done|].
  split; [rewrite Hb1; unfold credit; cbn [fst snd]; fn_simpl; lra|].
  split; [done|].
  intros u. rewrite Hb2, Hb1. unfold credit; cbn [fst snd newGame NonTransactional.creator amount].
  destruct (decide (user = u)) as [->|Hu]; fn_simpl; [lra|].
  destruct (decide (creator = u)) as [->|Hcu]; fn_simpl; lra.
Qed.

(** *** The checks of [create], [join] and [cancel] *)

Lemma nt_fresh_game_id (σ : Store Game) : games σ !! fresh (dom (games σ)) = None.
Proof. apply not_elem_of_dom, is_fresh. Qed.

Lemma nt_create_insufficient (schema_fee : Q) (user : UserId) (dto : CreateGameDto)
    (σ : Store Game) :
  balances σ user < dto_amount dto →
  create schema_fee user dto σ = (Err InsufficientBalance, σ).
Proof. intros H. unfold create. by rewrite Js_lt_true. Qed.

Lemma nt_create_limit (schema_fee : Q) (user : UserId) (dto : CreateGameDto)
    (σ : Store Game) :
  dto_amount dto <= balances σ user →
  (5 ≤ userActiveCount user σ)%nat →
  create schema_fee user dto σ = (Err ActiveGameLimitExceeded, σ).
Proof.
  intros Hb Hc. unfold create. rewrite Js_lt_false by done.
  by destruct (Nat.ltb_spec (userActiveCount user σ) 5) as [?|_]; [lia|].
Qed.

Lemma nt_create_cases (schema_fee : Q) (user : UserId) (dto : CreateGameDto)
    (σ : Store Game) :
  (∃ e, create schema_fee user dto σ = (Err e, σ)) ∨
  (∃ σ', create schema_fee user dto σ = (Ok tt, σ') ∧
         balances σ' = credit (balances σ) (user, - dto_amount dto) ∧
         games σ' = <[fresh (dom (games σ)) := newGame schema_fee user dto]> (games σ)).
Proof.
  destruct (Qlt_le_dec (balances σ user) (dto_amount dto)) as [Hlt|Hle].
  { left. eexists. by apply nt_create_insufficient. }
  destruct (Nat.le_gt_cases 5 (userActiveCount user σ)) as [Hc|Hc].
  { left. eexists. by apply nt_create_limit. }
  right. by apply nt_create_ok.
Qed.

Lemma nt_join_not_found (h : Js.heap) (dto : JoinGameDto) (user : UserId) (now : nat)
    (σ : Store Game) :
  games σ !! gameId dto = None →
  join h dto user now σ = (Err GameNotFound, σ).
Proof. intros H. unfold join. by rewrite H. Qed.

Lemma nt_join_not_active (h : Js.heap) (dto : JoinGameDto) (user : UserId) (now : nat)
    (σ : Store Game) (game : Game) :
  games σ !! gameId dto = Some game →
  status game ≠ active →
  join h dto user now σ = (Err GameNotActive, σ).
Proof. intros H Hs. unfold join. rewrite H. by rewrite bool_decide_eq_false_2. Qed.

Lemma nt_join_insufficient (h : Js.heap) (dto : JoinGameDto) (user : UserId) (now : nat)
    (σ : Store Game) (game : Game) :
  games σ !! gameId dto = Some game →
  status game = active →
  balances σ user < amount game →
  join h dto user now σ = (Err InsufficientBalance, σ).
Proof.
  intros H Hs Hb. unfold join. rewrite H, bool_decide_eq_true_2 by done.
  by rewrite Js_lt_true.
Qed.

Lemma nt_join_self (h : Js.heap) (dto : JoinGameDto) (user : UserId) (now : nat)
    (σ : Store Game) (game : Game) :
  games σ !! gameId dto = Some game →
  status game = active →
  amount game <= balances σ user →
  user = creator game →
  join h dto user now σ = (Err SelfJoinForbidden, σ).
Proof.
  intros H Hs Hb ->. unfold join. rewrite H, bool_decide_eq_true_2 by done.
  by rewrite Js_lt_false, Nat.eqb_refl.
Qed.

(** Once the checks have passed the call returns normally and the game is
    persisted as settled, whatever becomes of the credits. *)
Lemma nt_join_cases (h : Js.heap) (dto : JoinGameDto) (user : UserId) (now : nat)
    (σ : Store Game) :
  (∃ e, join h dto user now σ = (Err e, σ)) ∨
  (∃ game σ', games σ !! gameId dto = Some game ∧ status game = active ∧
              user ≠ creator game ∧ amount game <= balances σ user ∧
              join h dto user now σ = (Ok tt, σ') ∧
              games σ' = <[gameId dto := settled_game h game user (move dto) now]> (games σ)).
Proof.
  destruct (games σ !! gameId dto) as [game|] eqn:Hg.
  2: { left. eexists. by rewrite nt_join_not_found. }
  destruct (decide (status game = active)) as [Hs|Hs].
  2: { left. eexists. by erewrite nt_join_not_active. }
  destruct (Qlt_le_dec (balances σ user) (amount game)) as [Hlt|Hle].
  { left. eexists. by erewrite nt_join_insufficient. }
  destruct (decide (user = creator game)) as [Hu|Hu].
  { left. eexists. by erewrite nt_join_self. }
  right. exists game.
  cut (∃ σ', join h dto user now σ = (Ok tt, σ') ∧
             games σ' = <[gameId dto := settled_game h game user (move dto) now]> (games σ)).
  { intros (σ' & ? & ?). eauto 10. }
  unfold join. rewrite Hg, bool_decide_eq_true_2, Js_lt_false by done.
  apply Nat.eqb_neq in Hu as Hu'. rewrite Hu'. cbn [negb].
  unfold settled_game, selected.
  unfold joining, detached, pickWinner, Promise_all; run_monad.
  cbn [opponent opponentMove set_joined set_ended creator creatorMove amount fee fst snd].
  ledger.
  cbn [opponent opponentMove set_joined set_ended creator creatorMove amount fee fst snd
       balances games events].
  unfold changeBalance, UserService.changeBalance; run_monad.
  destruct (creatorMove game =? move dto)%nat;
    [|destruct (creatorMove game =? winningChoice h (creatorMove game) (move dto))%nat];
    repeat (match goal with |- context [Js.lt ?a ?b] => destruct (Js.lt a b) end);
    cbn [balances games events fst snd];
    (eexists; split; [reflexivity|]); cbn [games]; by rewrite insert_insert_eq.
Qed.

Lemma nt_cancel_not_found (id : GameId) (user : UserId) (σ : Store Game) :
  games σ !! id = None → cancel id user σ = (Err GameNotFound, σ).
Proof. intros H. unfold cancel. by rewrite H. Qed.

Lemma nt_cancel_not_owner (id : GameId) (user : UserId) (σ : Store Game) (game : Game) :
  games σ !! id = Some game → user ≠ creator game →
  cancel id user σ = (Err NotOwner, σ).
Proof.
  intros H Hne. unfold cancel. rewrite H.
  apply Nat.eqb_neq in Hne. by rewrite Hne.
Qed.

Lemma nt_cancel_not_active (id : GameId) (user : UserId) (σ : Store Game) (game : Game) :
  games σ !! id = Some game → user = creator game → status game ≠ active →
  cancel id user σ = (Err GameNotActive, σ).
Proof.
  intros H -> Hs. unfold cancel. rewrite H, Nat.eqb_refl.
  by rewrite bool_decide_eq_false_2.
Qed.

Lemma nt_cancel_ok (id : GameId) (user : UserId) (σ : Store Game) (game : Game) :
  games σ !! id = Some game → user = creator game → status game = active →
  0 <= amount game → 0 <= balances σ user →
  ∃ σ', cancel id user σ = (Ok tt, σ') ∧
        balances σ' = credit (balances σ) (user, amount game) ∧
        games σ' = <[id := set_status game cancelled]> (games σ).
Proof.
  intros H -> Hs Ha Hb. unfold cancel.
  rewrite H, Nat.eqb_refl, bool_decide_eq_true_2 by done. cbn [negb].
  unfold Promise_all; run_monad. cbn [set_status creator amount].
  ledger. cbn [balances games events fst snd].
  eexists. split; [reflexivity|done].
Qed.

(** Past the three checks the outcome is the ledger's, and the document is
    stored as cancelled in either case: the two promises of the
    [Promise.all] are not tied together. *)
Lemma nt_cancel_accepted (id : GameId) (user : UserId) (σ : Store Game) (game : Game) :
  games σ !! id = Some game → user = creator game → status game = active →
  0 <= balances σ user + amount game →
  ∃ σ', cancel id user σ = (Ok tt, σ') ∧
        balances σ' = credit (balances σ) (user, amount game) ∧
        games σ' = <[id := set_status game cancelled]> (games σ).
Proof.
  intros H -> Hs Hb. unfold cancel.
  rewrite H, Nat.eqb_refl, bool_decide_eq_true_2 by done. cbn [negb].
  unfold Promise_all; run_monad. cbn [set_status creator amount].
  ledger. cbn [balances games events fst snd].
  eexists. split; [reflexivity|done].
Qed.

Lemma nt_cancel_refused (id : GameId) (user : UserId) (σ : Store Game) (game : Game) :
  games σ !! id = Some game → user = creator game → status game = active →
  balances σ user + amount game < 0 →
  cancel id user σ =
    (Err InsufficientFunds,
     MkStore (balances σ) (<[id := set_status game cancelled]> (games σ)) (events σ)).
Proof.
  intros H -> Hs Hb. unfold cancel.
  rewrite H, Nat.eqb_refl, bool_decide_eq_true_2 by done. cbn [negb].
  unfold Promise_all; run_monad. cbn [set_status creator amount].
  unfold changeBalance. by rewrite changeBalance_fail by done.
Qed.

(** Past its three checks [cancel] persists the cancelled game, also when the
    refund should fail: the two promises are not tied together. *)
Lemma nt_cancel_cases (id : GameId) (user : UserId) (σ : Store Game) :
  (∃ e, cancel id user σ = (Err e, σ)) ∨
  (∃ game, games σ !! id = Some game ∧ user = creator game ∧ status game = active ∧
           games (cancel id user σ).2 = <[id := set_status game cancelled]> (games σ)).
Proof.
  destruct (games σ !! id) as [game|] eqn:Hg.
  2: { left. eexists. by rewrite nt_cancel_not_found. }
  destruct (decide (user = creator game)) as [Hu|Hu].
  2: { left. eexists. by erewrite nt_cancel_not_owner. }
  destruct (decide (status game = active)) as [Hs|Hs].
  2: { left. eexists. by erewrite nt_cancel_not_active. }
  right. exists game. split; [done|]. split; [done|]. split; [done|].
  unfold cancel. rewrite Hg, Hu, Nat.eqb_refl, bool_decide_eq_true_2 by done.
  cbn [negb]. unfold Promise_all.
  unfold changeBalance, UserService.changeBalance; run_monad.
  cbn [set_status creator amount].
  by destruct (Js.lt _ _).
Qed.

(** *** The life cycle of a game *)

Lemma nt_settled_game_status (h : Js.heap) (game : Game) (user : UserId) (move now : nat) :
  status (settled_game h game user move now) = ended.
Proof. unfold settled_game. by destruct (selected _ _ _ _ _). Qed.

Lemma nt_settled_game_amount (h : Js.heap) (game : Game) (user : UserId) (move now : nat) :
  amount (settled_game h game user move now) = amount game.
Proof. unfold settled_game. by destruct (selected _ _ _ _ _). Qed.

(** While a [join] is in progress the game is persisted, and announced to
    the clients, with the status [joined]. *)
Lemma nt_joining_joined (dto : JoinGameDto) (user : UserId) (σ : Store Game) (game : Game) :
  amount game <= balances σ user →
  ∃ σ', joining dto user game σ = (Ok (set_joined game user (move dto)), σ') ∧
        games σ' !! gameId dto = Some (set_joined game user (move dto)) ∧
        status (set_joined game user (move dto)) = joined ∧
        events σ' = (events σ ++ [BalanceChange user (balances σ user + - amount game) false])
                      ++ [GameUpdate (gameId dto) (set_joined game user (move dto))].
Proof.
  intros Hb. unfold joining, Promise_all; run_monad. cbn [set_joined amount].
  ledger. cbn [balances games events].
  eexists. split; [reflexivity|]. cbn [games events].
  split; [apply lookup_insert_eq|done].
Qed.

(** Where this service departs from the transactional one on the life cycle
    and on the entry checks: a joined game is first persisted and announced
    with the status [joined], and a balance equal to the bare stake is enough
    to create a game. *)
Example nt_join_passes_through_joined :
  ∃ game, GameUpdate 0%nat game
            ∈ events (join Scenario.heap {| gameId := 0%nat; move := 1%nat |}
                           Scenario.bob 7%nat Scenario.nt_opened).2 ∧
          status game = joined.
Proof.
  exists (set_joined Scenario.nt_game Scenario.bob 1). split; [|done].
  vm_compute. apply list_elem_of_further, list_elem_of_here.
Qed.

Example nt_create_with_bare_stake :
  ∃ σ', create 4 Scenario.alice {| dto_amount := 1000; dto_creatorMove := 0 |}
               Scenario.nt_empty = (Ok tt, σ') ∧
        balances σ' Scenario.alice == 0.
Proof.
  exists (create 4 Scenario.alice {| dto_amount := 1000; dto_creatorMove := 0 |}
                 Scenario.nt_empty).2.
  split; reflexivity.
Qed.

End NonTransactionalProofs.

(** ** The non-transactional service between two calls *)

Module NonTransactionalRunsProofs.
Import NonTransactional NonTransactionalOutcomes NonTransactionalRuns.

Lemma nt_status_advances_trans (s1 s2 s3 : Status) :
  nt_status_advances s1 s2 → nt_status_advances s2 s3 → nt_status_advances s1 s3.
Proof.
  unfold nt_status_advances. destruct s1, s2, s3; intros H1 H2; try (by eauto 10);
    repeat (match goal with
            | H : _ ∨ _ |- _ => destruct H
            | H : _ ∧ _ |- _ => destruct H
            end); discriminate.
Qed.

(** *** [join] until it returns *)

Lemma join_returns_cases (dto : JoinGameDto) (user : UserId) (σ : Store Game) :
  (∃ e, join_returns dto user σ = (Err e, σ)) ∨
  (∃ game σ', games σ !! gameId dto = Some game ∧ status game = active ∧
              user ≠ creator game ∧ amount game <= balances σ user ∧
              join_returns dto user σ = (Ok (set_joined game user (move dto)), σ') ∧
              balances σ' = credit (balances σ) (user, - amount game) ∧
              games σ' = <[gameId dto := set_joined game user (move dto)]> (games σ) ∧
              events σ' =
                (events σ ++ [BalanceChange user (balances σ user + - amount game) false])
                  ++ [GameUpdate (gameId dto) (set_joined game user (move dto))]).
Proof.
  unfold join_returns.
  destruct (games σ !! gameId dto) as [game|] eqn:Hg; [|left; by eexists].
  destruct (decide (status game = active)) as [Hs|Hs].
  2: { left. eexists. by rewrite bool_decide_eq_false_2. }
  rewrite bool_decide_eq_true_2 by done. cbn [negb].
  destruct (Qlt_le_dec (balances σ user) (amount game)) as [Hlt|Hle].
  { left. eexists. by rewrite Js_lt_true. }
  rewrite Js_lt_false by done.
  destruct (decide (user = creator game)) as [Hu|Hu].
  { left. eexists. by rewrite Hu, Nat.eqb_refl. }
  apply Nat.eqb_neq in Hu as Hu'. rewrite Hu'.
  right. exists game. unfold joining, Promise_all; run_monad. cbn [set_joined amount].
  ledger. cbn [balances games events].
  eexists. do 4 (split; [done|]). split; [reflexivity|]. by cbn.
Qed.

(** [join] is [join_returns] followed by the settlement it starts. *)
Lemma join_settles (h : Js.heap) (dto : JoinGameDto) (user : UserId) (now : nat)
    (σ : Store Game) :
  join h dto user now σ =
    match join_returns dto user σ with
    | (Ok game, σ') => (Ok tt, (pickWinner h (gameId dto) game now σ').2)
    | (Err e, σ') => (Err e, σ')
    end.
Proof.
  unfold join, join_returns.
  destruct (games σ !! gameId dto) as [game|]; [|done].
  destruct (negb _); [done|]. destruct (Js.lt _ _); [done|].
  destruct (_ =? _)%nat; [done|].
  unfold mbind, M_bind, detached. by destruct (joining dto user game σ) as [[g|e] σ'].
Qed.

Lemma join_returns_not_active (dto : JoinGameDto) (user : UserId) (σ : Store Game)
    (game : Game) :
  games σ !! gameId dto = Some game → status game ≠ active →
  join_returns dto user σ = (Err GameNotActive, σ).
Proof.
  intros Hg Hs. unfold join_returns. rewrite Hg. by rewrite bool_decide_eq_false_2.
Qed.

(** *** The settlement *)

Lemma pickWinner_games (h : Js.heap) (id : GameId) (game : Game) (now : nat)
    (σ : Store Game) (opp : UserId) (om : nat) :
  opponent game = Some opp → opponentMove game = Some om →
  games (pickWinner h id game now σ).2 = <[id := settled_document h game opp om now]> (games σ).
Proof.
  intros Ho Hom. unfold pickWinner, settled_document, selected.
  cbn [set_ended opponent opponentMove creatorMove creator amount fee].
  rewrite Ho, Hom.
  unfold Promise_all, changeBalance, UserService.changeBalance; run_monad.
  destruct (creatorMove game =? om)%nat;
    [|destruct (creatorMove game =? winningChoice h (creatorMove game) om)%nat];
    repeat (match goal with |- context [Js.lt ?a ?b] => destruct (Js.lt a b) end);
    by cbn.
Qed.

Lemma settled_document_status (h : Js.heap) (game : Game) (opp : UserId) (om now : nat) :
  status (settled_document h game opp om now) = ended.
Proof. unfold settled_document. by destruct (selected _ _ _ _ _). Qed.

Lemma settled_document_amount (h : Js.heap) (game : Game) (opp : UserId) (om now : nat) :
  amount (settled_document h game opp om now) = amount game.
Proof. unfold settled_document. by destruct (selected _ _ _ _ _). Qed.

(** *** One step *)

(** A game that is not stored as joined has no settlement under way. *)
Lemma not_joined_not_started (s : State) (id : GameId) (game : Game) :
  settling s → games (store s) !! id = Some game → status game ≠ joined →
  id ∉ (started s).*1.
Proof.
  intros [_ Hst] Hg Hs [[id' g'] [Hid Hin]]%list_elem_of_fmap. cbn in Hid. subst id'.
  destruct (Hst id g' Hin) as (Hg' & Hs' & _). congruence.
Qed.

Lemma step_settling (schema_fee : Q) (s s' : State) :
  step schema_fee s s' → settling s → settling s'.
Proof.
  intros Hstep Hset. pose proof Hset as [Hnd Hst].
  destruct Hstep as [user dto s|dto user s|id user s|h now id game before after s Hs].
  - split; [done|]. cbn [store started]. intros id game Hin.
    destruct (Hst id game Hin) as (Hg & Hrest). split; [|done].
    destruct (NonTransactionalProofs.nt_create_cases schema_fee user dto (store s))
      as [[e ->]|(σ' & -> & _ & Hgs)]; [done|].
    cbn [snd]. rewrite Hgs, lookup_insert_ne; [done|].
    intros <-. by rewrite NonTransactionalProofs.nt_fresh_game_id in Hg.
  - unfold joined_state.
    destruct (join_returns_cases dto user (store s))
      as [[e ->]|(game & σ' & Hg & Hs & Hne & _ & -> & _ & Hgs & _)]; [done|].
    assert (gameId dto ∉ (started s).*1) as Hfresh.
    { eapply not_joined_not_started; [done..|congruence]. }
    split; cbn [store started].
    + rewrite fmap_app. apply NoDup_app. split; [done|]. split; [|apply NoDup_singleton].
      intros x Hx Hx'. cbn in Hx'. apply list_elem_of_singleton in Hx'. by subst x.
    + intros id g [Hin|Hin%list_elem_of_singleton]%elem_of_app.
      * destruct (Hst id g Hin) as (Hg' & Hrest). split; [|done].
        rewrite Hgs, lookup_insert_ne; [done|].
        intros <-. apply Hfresh. apply list_elem_of_fmap. by exists (gameId dto, g).
      * injection Hin as -> ->. rewrite Hgs, lookup_insert_eq.
        cbn [set_joined status opponent opponentMove]. eauto.
  - split; [done|]. cbn [store started]. intros id' game Hin.
    destruct (Hst id' game Hin) as (Hg & Hs & Hrest). split; [|done].
    destruct (NonTransactionalProofs.nt_cancel_cases id user (store s))
      as [[e ->]|(g & Hg' & _ & Hs' & ->)]; [done|].
    rewrite lookup_insert_ne; [done|]. intros <-. congruence.
  - rewrite Hs in Hnd, Hst. rewrite fmap_app, fmap_cons in Hnd. cbn [fst] in Hnd.
    apply NoDup_app in Hnd as (Hnd1 & Hnd2 & Hnd3).
    apply NoDup_cons in Hnd3 as [Hnd3 Hnd4].
    destruct (Hst id game) as (Hg & Hsj & [opp Ho] & [om Hom]).
    { apply elem_of_app. right. apply list_elem_of_here. }
    split; cbn [store started].
    + rewrite fmap_app. apply NoDup_app. split; [done|]. split; [|done].
      intros x Hx Hx'. apply (Hnd2 x Hx). by apply list_elem_of_further.
    + intros id' g Hin.
      destruct (Hst id' g) as (Hg' & Hrest).
      { apply elem_of_app in Hin as [Hin|Hin]; apply elem_of_app;
          [by left|right; by apply list_elem_of_further]. }
      split; [|done].
      rewrite (pickWinner_games h id game now (store s) opp om) by done.
      rewrite lookup_insert_ne; [done|]. intros <-.
      apply elem_of_app in Hin as [Hin|Hin].
      * apply (Hnd2 id); [|apply list_elem_of_here].
        apply list_elem_of_fmap. by exists (id, g).
      * apply Hnd3. apply list_elem_of_fmap. by exists (id, g).
Qed.

(** What one step does to a game that exists: nothing, or it takes an active
    game to [joined] or [cancelled], or a joined game to [ended]; the stake
    is kept. *)
Lemma step_game (schema_fee : Q) (s s' : State) (id : GameId) (game : Game) :
  step schema_fee s s' → settling s →
  games (store s) !! id = Some game →
  ∃ game', games (store s') !! id = Some game' ∧
           amount game' = amount game ∧
           (game' = game ∨
            (status game = active ∧ (status game' = joined ∨ status game' = cancelled)) ∨
            (status game = joined ∧ status game' = ended)).
Proof.
  intros Hstep [Hnd Hst] Hg.
  destruct Hstep as [user dto s|dto user s|id' user s|h now id' g before after s Hs];
    cbn [store started].
  - destruct (NonTransactionalProofs.nt_create_cases schema_fee user dto (store s))
      as [[e ->]|(σ' & -> & _ & Hgs)]; cbn [snd]; [eauto|].
    exists game. split; [|eauto]. rewrite Hgs.
    rewrite lookup_insert_ne; [done|].
    intros <-. by rewrite NonTransactionalProofs.nt_fresh_game_id in Hg.
  - unfold joined_state.
    destruct (join_returns_cases dto user (store s))
      as [[e ->]|(g & σ' & Hg' & Hs & _ & _ & -> & _ & Hgs & _)]; cbn [store]; [eauto|].
    rewrite Hgs. destruct (decide (gameId dto = id)) as [<-|Hne].
    + rewrite lookup_insert_eq. eexists. split; [done|]. simplify_eq. cbn.
      split; [done|]. right. left. eauto.
    + rewrite lookup_insert_ne by done. eauto.
  - destruct (NonTransactionalProofs.nt_cancel_cases id' user (store s))
      as [[e ->]|(g & Hg' & _ & Hs & ->)]; cbn [snd]; [eauto|].
    destruct (decide (id' = id)) as [<-|Hne].
    + rewrite lookup_insert_eq. eexists. split; [done|]. simplify_eq. cbn.
      split; [done|]. right. left. eauto.
    + rewrite lookup_insert_ne by done. eauto.
  - destruct (Hst id' g) as (Hg' & Hsj & [opp Ho] & [om Hom]).
    { rewrite Hs. apply elem_of_app. right. apply list_elem_of_here. }
    rewrite (pickWinner_games h id' g now (store s) opp om) by done.
    destruct (decide (id' = id)) as [<-|Hne].
    + rewrite lookup_insert_eq. eexists. split; [done|]. simplify_eq.
      rewrite settled_document_amount, settled_document_status.
      split; [done|]. right. right. eauto.
    + rewrite lookup_insert_ne by done. eauto.
Qed.

(** A game a step brings into existence is active. *)
Lemma step_new_game (schema_fee : Q) (s s' : State) (id : GameId) (game' : Game) :
  step schema_fee s s' → settling s →
  games (store s) !! id = None →
  games (store s') !! id = Some game' →
  status game' = active.
Proof.
  intros Hstep [Hnd Hst] Hg.
  destruct Hstep as [user dto s|dto user s|id' user s|h now id' g before after s Hs];
    cbn [store started].
  - destruct (NonTransactionalProofs.nt_create_cases schema_fee user dto (store s))
      as [[e ->]|(σ' & -> & _ & Hgs)]; cbn [snd]; [congruence|].
    rewrite Hgs. intros [[_ <-]|[_ ?]]%lookup_insert_Some; [done|congruence].
  - unfold joined_state.
    destruct (join_returns_cases dto user (store s))
      as [[e ->]|(g & σ' & Hg' & Hs & _ & _ & -> & _ & Hgs & _)]; cbn [store]; [congruence|].
    rewrite Hgs. intros [[<- _]|[_ ?]]%lookup_insert_Some; congruence.
  - destruct (NonTransactionalProofs.nt_cancel_cases id' user (store s))
      as [[e ->]|(g & Hg' & _ & Hs & ->)]; cbn [snd]; [congruence|].
    intros [[<- _]|[_ ?]]%lookup_insert_Some; congruence.
  - destruct (Hst id' g) as (Hg' & Hsj & [opp Ho] & [om Hom]).
    { rewrite Hs. apply elem_of_app. right. apply list_elem_of_here. }
    rewrite (pickWinner_games h id' g now (store s) opp om) by done.
    intros [[<- _]|[_ ?]]%lookup_insert_Some; congruence.
Qed.

(** *** Any number of steps *)

Lemma run_settling (schema_fee : Q) (s s' : State) :
  rtc (step schema_fee) s s' → settling s → settling s'.
Proof. induction 1; eauto using step_settling. Qed.

Lemma run_game (schema_fee : Q) (s s' : State) (id : GameId) (game : Game) :
  rtc (step schema_fee) s s' → settling s →
  games (store s) !! id = Some game →
  ∃ game', games (store s') !! id = Some game' ∧
           amount game' = amount game ∧
           nt_status_advances (status game) (status game') ∧
           (status game = ended ∨ status game = cancelled → game' = game).
Proof.
  intros Hsteps. revert game.
  induction Hsteps as [s|s s1 s' Hstep _ IH]; intros game Hset Hg.
  - exists game. unfold nt_status_advances. eauto.
  - destruct (step_game schema_fee s s1 id game Hstep Hset Hg) as (g1 & Hg1 & Ha1 & Hcase).
    destruct (IH g1 (step_settling _ _ _ Hstep Hset) Hg1) as (g' & Hg' & Ha' & Hadv & Hfix).
    exists g'. split; [done|]. split; [congruence|].
    destruct Hcase as [->|[[Hs Hs1]|[Hs Hs1]]]; [done|..].
    + split.
      * eapply nt_status_advances_trans; [|done]. unfold nt_status_advances.
        rewrite Hs. destruct Hs1 as [-> | ->]; eauto 10.
      * intros [?|?]; congruence.
    + split.
      * eapply nt_status_advances_trans; [|done]. unfold nt_status_advances.
        rewrite Hs, Hs1. eauto 10.
      * intros [?|?]; congruence.
Qed.

(** Once a [join] has returned, the game is never active again. *)
Lemma run_not_active (schema_fee : Q) (s s' : State) (id : GameId) (game : Game) :
  rtc (step schema_fee) s s' → settling s →
  games (store s) !! id = Some game → status game ≠ active →
  ∃ game', games (store s') !! id = Some game' ∧ status game' ≠ active.
Proof.
  intros Hsteps Hset Hg Hs.
  destruct (run_game schema_fee s s' id game Hsteps Hset Hg) as (g' & Hg' & _ & Hadv & _).
  exists g'. split; [done|]. intros Hs'. rewrite Hs' in Hadv.
  destruct Hadv as [?|[[? _]|[_ ?]]]; congruence.
Qed.

(** *** After a [join] has returned *)

Lemma settling_nil (σ : Store Game) : settling (MkState σ []).
Proof.
  split; cbn [started].
  - apply NoDup_nil_2.
  - intros id game Hin. by apply elem_of_nil in Hin.
Qed.

(** A [join] that is refused starts nothing. *)
Lemma joined_state_rejected (dto : JoinGameDto) (user : UserId) (s : State) (e : error) :
  join_returns dto user (store s) = (Err e, store s) → joined_state dto user s = s.
Proof. intros H. unfold joined_state. rewrite H. by destruct s. Qed.

(** Once a [join] on a game has returned, whatever calls and settlements
    follow, every further [join] on the game is refused, changes nothing and
    starts no settlement, and at most one settlement of a game is under way. *)
Lemma join_returned_steps (schema_fee : Q) (dto : JoinGameDto) (user : UserId)
    (s s2 : State) (game : Game) (σ1 : Store Game) :
  settling s →
  join_returns dto user (store s) = (Ok game, σ1) →
  rtc (step schema_fee) (joined_state dto user s) s2 →
  NoDup (started s2).*1 ∧
  ∀ (move' : nat) (user' : UserId),
    join_returns {| gameId := gameId dto; move := move' |} user' (store s2)
      = (Err GameNotActive, store s2) ∧
    joined_state {| gameId := gameId dto; move := move' |} user' s2 = s2.
Proof.
  intros Hset Hj Hsteps.
  assert (settling (joined_state dto user s)) as Hset1.
  { apply (step_settling schema_fee s); [apply step_join|done]. }
  pose proof (run_settling _ _ _ Hsteps Hset1) as [Hnd _]. split; [done|].
  assert (games (store (joined_state dto user s)) !! gameId dto = Some game ∧
          status game = joined) as [Hg Hs].
  { unfold joined_state. rewrite Hj. cbn [store].
    destruct (join_returns_cases dto user (store s))
      as [[e He]|(g & σ' & _ & _ & _ & _ & Hj' & _ & Hgs & _)]; [congruence|].
    rewrite Hj' in Hj. simplify_eq. rewrite Hgs, lookup_insert_eq. by cbn. }
  destruct (run_not_active schema_fee _ s2 (gameId dto) game Hsteps Hset1 Hg)
    as (game' & Hg' & Hs'); [congruence|].
  intros move' user'.
  assert (join_returns {| gameId := gameId dto; move := move' |} user' (store s2)
            = (Err GameNotActive, store s2)) as Hrej.
  { by apply (join_returns_not_active _ _ _ game'). }
  split; [done|]. by eapply joined_state_rejected.
Qed.

(** No settlement is under way, or is ever started, for a game that has
    ended or has been cancelled. *)
Lemma finished_never_settles (schema_fee : Q) (s s' : State) (id : GameId) (game : Game) :
  rtc (step schema_fee) s s' → settling s →
  games (store s) !! id = Some game →
  status game = ended ∨ status game = cancelled →
  games (store s') !! id = Some game ∧ id ∉ (started s').*1.
Proof.
  intros Hsteps Hset Hg Hs.
  destruct (run_game schema_fee s s' id game Hsteps Hset Hg) as (g' & Hg' & _ & _ & Hfix).
  rewrite (Hfix Hs) in Hg'. split; [done|].
  eapply not_joined_not_started; [by eapply run_settling|done|].
  destruct Hs as [-> | ->]; discriminate.
Qed.

End NonTransactionalRunsProofs.


(** ** The operations of the two services *)

Module ServicesProofs.

Module T := Transactional.
Module TO := TransactionalOutcomes.
Module TP := TransactionalProofs.
Module N := NonTransactional.
Module NO := NonTransactionalOutcomes.
Module NP := NonTransactionalProofs.
Module NR := NonTransactionalRuns.
Module NRP := NonTransactionalRunsProofs.

(** *** Creating a game *)

(** C5, as the code has it.  [create] fails with [InsufficientBalance] when
    the caller's balance is below the sum the service debits: in the
    transactional service the double it computes as
    [amount * (1 + GAME_FEE / 100)], in the non-transactional one the bare
    amount.  It fails with [ActiveGameLimitExceeded] when the caller already
    has five or more active games (the balance is checked first, so with both
    defects the former is what is reported).  A failed call leaves the store
    as it was.  Otherwise the caller is debited that sum, the new balance of
    the transactional service being the double nearest to the difference, and
    a new game with status [active] is persisted under an unused id. *)
Theorem create_spec :
  (∀ (user : UserId) (dto : T.CreateGameDto) (σ : Store T.Game),
     let payAmount := TO.payAmount (T.dto_amount dto) in
     (balances σ user < payAmount →
        T.create user dto σ = (Err InsufficientBalance, σ)) ∧
     (payAmount <= balances σ user → (5 ≤ T.userActiveCount user σ)%nat →
        T.create user dto σ = (Err ActiveGameLimitExceeded, σ)) ∧
     ((5 ≤ T.userActiveCount user σ)%nat →
        ∃ e, (e = InsufficientBalance ∨ e = ActiveGameLimitExceeded) ∧
             T.create user dto σ = (Err e, σ)) ∧
     (payAmount <= balances σ user → (T.userActiveCount user σ < 5)%nat →
        ∃ σ' id,
          T.create user dto σ = (Ok tt, σ') ∧
          balances σ' user = Js.add (balances σ user) (- payAmount) ∧
          (∀ other, other ≠ user → balances σ' other = balances σ other) ∧
          games σ !! id = None ∧
          games σ' = <[id := T.newGame user dto]> (games σ) ∧
          T.status (T.newGame user dto) = active ∧
          T.creator (T.newGame user dto) = user ∧
          T.amount (T.newGame user dto) = T.dto_amount dto) ∧
     (∀ e σ', T.create user dto σ = (Err e, σ') → σ' = σ)) ∧
  (∀ (schema_fee : Q) (user : UserId) (dto : N.CreateGameDto) (σ : Store N.Game),
     let payAmount := N.dto_amount dto in
     (balances σ user < payAmount →
        N.create schema_fee user dto σ = (Err InsufficientBalance, σ)) ∧
     (payAmount <= balances σ user → (5 ≤ N.userActiveCount user σ)%nat →
        N.create schema_fee user dto σ = (Err ActiveGameLimitExceeded, σ)) ∧
     ((5 ≤ N.userActiveCount user σ)%nat →
        ∃ e, (e = InsufficientBalance ∨ e = ActiveGameLimitExceeded) ∧
             N.create schema_fee user dto σ = (Err e, σ)) ∧
     (payAmount <= balances σ user → (N.userActiveCount user σ < 5)%nat →
        ∃ σ' id,
          N.create schema_fee user dto σ = (Ok tt, σ') ∧
          balances σ' user == balances σ user - payAmount ∧
          (∀ other, other ≠ user → balances σ' other = balances σ other) ∧
          games σ !! id = None ∧
          games σ' = <[id := N.newGame schema_fee user dto]> (games σ) ∧
          N.status (N.newGame schema_fee user dto) = active ∧
          N.creator (N.newGame schema_fee user dto) = user ∧
          N.amount (N.newGame schema_fee user dto) = N.dto_amount dto) ∧
     (∀ e σ', N.create schema_fee user dto σ = (Err e, σ') → σ' = σ)).
Proof.
  split.
  - intros user dto σ. cbv zeta. split; [apply TP.create_insufficient|].
    split; [apply TP.create_limit|]. split; [|split].
    + intros Hc.
      destruct (Qlt_le_dec (balances σ user) (TO.payAmount (T.dto_amount dto))).
      * exists InsufficientBalance. split; [by left|]. by apply TP.create_insufficient.
      * exists ActiveGameLimitExceeded. split; [by right|]. by apply TP.create_limit.
    + intros Hb Hc. exists (TO.created user dto σ), (fresh (dom (games σ))).
      split; [by apply TP.create_ok|]. cbn [TO.created balances games].
      split; [by fn_simpl|].
      split; [intros other Hne; by fn_simpl|].
      split; [apply TP.fresh_game_id|done].
    + intros e σ' Hc.
      destruct (TP.create_cases user dto σ) as [[e' Hc']|Hc'];
        rewrite Hc' in Hc; by simplify_eq.
  - intros schema_fee user dto σ. cbv zeta. split; [apply NP.nt_create_insufficient|].
    split; [apply NP.nt_create_limit|]. split; [|split].
    + intros Hc.
      destruct (Qlt_le_dec (balances σ user) (N.dto_amount dto)).
      * exists InsufficientBalance. split; [by left|]. by apply NP.nt_create_insufficient.
      * exists ActiveGameLimitExceeded. split; [by right|]. by apply NP.nt_create_limit.
    + intros Hb Hc.
      destruct (NP.nt_create_ok schema_fee user dto σ Hb Hc) as (σ' & Hcr & Hbal & Hg).
      exists σ', (fresh (dom (games σ))). split; [done|].
      rewrite Hbal, Hg. unfold credit; cbn [fst snd].
      split; [fn_simpl; lra|].
      split; [intros other Hne; by fn_simpl|].
      split; [apply NP.nt_fresh_game_id|done].
    + intros e σ' Hc.
      destruct (NP.nt_create_cases schema_fee user dto σ) as [[e' Hc']|(σ'' & Hc' & _)];
        rewrite Hc' in Hc; by simplify_eq.
Qed.

Lemma create_spec_witness :
  T.create Scenario.alice {| T.dto_amount := 2000; T.dto_creatorMove := 0 |} Scenario.empty
    = (Err InsufficientBalance, Scenario.empty) ∧
  T.create Scenario.alice Scenario.stake Scenario.crowded
    = (Err ActiveGameLimitExceeded, Scenario.crowded) ∧
  (∃ σ' id,
     T.create Scenario.alice Scenario.stake Scenario.empty = (Ok tt, σ') ∧
     balances σ' Scenario.alice = Js.add 1000 (- TO.payAmount 100) ∧
     (∀ other, other ≠ Scenario.alice → balances σ' other = 1000) ∧
     games Scenario.empty !! id = None ∧
     games σ' = <[id := Scenario.game]> ∅ ∧
     T.status Scenario.game = active ∧
     T.creator Scenario.game = Scenario.alice ∧
     T.amount Scenario.game = 100) ∧
  T.create Scenario.bob (Scenario.small 22) (T.create Scenario.bob (Scenario.small 3)
                                               (MkStore (λ _, 26) ∅ [])).2
    = (Err InsufficientBalance, (T.create Scenario.bob (Scenario.small 3)
                                   (MkStore (λ _, 26) ∅ [])).2) ∧
  N.create 4 Scenario.alice {| N.dto_amount := 2000; N.dto_creatorMove := 0 |}
           Scenario.nt_empty
    = (Err InsufficientBalance, Scenario.nt_empty) ∧
  (∃ σ' id,
     N.create 4 Scenario.alice Scenario.nt_stake Scenario.nt_empty = (Ok tt, σ') ∧
     balances σ' Scenario.alice == 1000 - 100 ∧
     (∀ other, other ≠ Scenario.alice → balances σ' other = 1000) ∧
     games Scenario.nt_empty !! id = None ∧
     games σ' = <[id := Scenario.nt_game]> ∅ ∧
     N.status Scenario.nt_game = active ∧
     N.creator Scenario.nt_game = Scenario.alice ∧
     N.amount Scenario.nt_game = 100).
Proof.
  destruct create_spec as (Htx & Hnt).
  split; [|split; [|split; [|split; [|split]]]].
  - apply (proj1 (Htx Scenario.alice {| T.dto_amount := 2000; T.dto_creatorMove := 0 |}
                     Scenario.empty)); concrete.
  - apply (proj1 (proj2 (Htx Scenario.alice Scenario.stake Scenario.crowded))); concrete.
  - apply (proj1 (proj2 (proj2 (proj2 (Htx Scenario.alice Scenario.stake Scenario.empty)))));
      concrete.
  - apply (proj1 (Htx Scenario.bob (Scenario.small 22)
                     (T.create Scenario.bob (Scenario.small 3) (MkStore (λ _, 26) ∅ [])).2));
      concrete.
  - apply (proj1 (Hnt 4 Scenario.alice {| N.dto_amount := 2000; N.dto_creatorMove := 0 |}
                     Scenario.nt_empty)); concrete.
  - apply (proj1 (proj2 (proj2 (proj2 (Hnt 4 Scenario.alice Scenario.nt_stake
                                           Scenario.nt_empty))))); concrete.
Defined.

(** C5, as the specification words it, fails on both services.  In the
    non-transactional one, with a fee of 4%, Alice, who holds 1000, creates a
    game of stake 1000 although 1000 is below 1000 × 1.04; the debit is 1000.
    In the transactional one the threshold is the double computed for
    9 × 1.04, which is below 9.36: a caller who holds just that double has
    less than amount × (1 + fee) and yet creates a game of stake 9. *)
Lemma create_spec_counterexample :
  (balances Scenario.nt_empty Scenario.alice
     < N.dto_amount Scenario.nt_all_in * (1 + 4 / 100) ∧
   ∃ σ', N.create 4 Scenario.alice Scenario.nt_all_in Scenario.nt_empty = (Ok tt, σ') ∧
         N.create 4 Scenario.alice Scenario.nt_all_in Scenario.nt_empty
           ≠ (Err InsufficientBalance, Scenario.nt_empty) ∧
         games σ' !! 0%nat = Some (N.newGame 4 Scenario.alice Scenario.nt_all_in) ∧
         balances σ' Scenario.alice == 0) ∧
  (balances Scenario.exact_change Scenario.alice < 9 * (1 + 4 / 100) ∧
   ∃ σ', T.create Scenario.alice (Scenario.small 9) Scenario.exact_change = (Ok tt, σ') ∧
         games σ' !! 0%nat = Some (T.newGame Scenario.alice (Scenario.small 9)) ∧
         balances σ' Scenario.alice == 0).
Proof.
  split.
  - split; [by vm_compute|].
    exists (N.create 4 Scenario.alice Scenario.nt_all_in Scenario.nt_empty).2.
    split; [by vm_compute|]. split; [by vm_compute|]. split; by vm_compute.
  - split; [by vm_compute|].
    exists (T.create Scenario.alice (Scenario.small 9) Scenario.exact_change).2.
    split; [by vm_compute|]. split; by vm_compute.
Qed.

(** *** Joining a game: the failures *)

(** C6, as the code has it.  [join] fails with [GameNotFound] when no game
    has the given id, with [GameNotActive] when the game is not active, with
    [InsufficientBalance] when the joiner's balance is below the sum the
    service debits (in the transactional service the double it computes as
    [amount * (1 + GAME_FEE / 100)], in the non-transactional one the bare
    amount), and with [SelfJoinForbidden] when the joiner is the creator, the
    checks being made in this order; in each case the store is returned as it
    was.  Whatever the failure, no balance and no game has changed. *)
Theorem join_failures :
  (∀ (dto : T.JoinGameDto) (user : UserId) (now : nat) (σ : Store T.Game),
     (games σ !! T.gameId dto = None →
        T.join dto user now σ = (Err GameNotFound, σ)) ∧
     (∀ game, games σ !! T.gameId dto = Some game →
        (T.status game ≠ active →
           T.join dto user now σ = (Err GameNotActive, σ)) ∧
        (T.status game = active →
         balances σ user < TO.payAmount (T.amount game) →
           T.join dto user now σ = (Err InsufficientBalance, σ)) ∧
        (T.status game = active →
         TO.payAmount (T.amount game) <= balances σ user →
         user = T.creator game →
           T.join dto user now σ = (Err SelfJoinForbidden, σ)) ∧
        (T.status game ≠ active ∨
         balances σ user < TO.payAmount (T.amount game) ∨
         user = T.creator game →
           ∃ e, (e = GameNotActive ∨ e = InsufficientBalance ∨ e = SelfJoinForbidden) ∧
                T.join dto user now σ = (Err e, σ))) ∧
     (∀ e σ', T.join dto user now σ = (Err e, σ') →
        balances σ' = balances σ ∧ games σ' = games σ)) ∧
  (∀ (h : Js.heap) (dto : N.JoinGameDto) (user : UserId) (now : nat) (σ : Store N.Game),
     (games σ !! N.gameId dto = None →
        N.join h dto user now σ = (Err GameNotFound, σ)) ∧
     (∀ game, games σ !! N.gameId dto = Some game →
        (N.status game ≠ active →
           N.join h dto user now σ = (Err GameNotActive, σ)) ∧
        (N.status game = active → balances σ user < N.amount game →
           N.join h dto user now σ = (Err InsufficientBalance, σ)) ∧
        (N.status game = active → N.amount game <= balances σ user →
         user = N.creator game →
           N.join h dto user now σ = (Err SelfJoinForbidden, σ)) ∧
        (N.status game ≠ active ∨ balances σ user < N.amount game ∨
         user = N.creator game →
           ∃ e, (e = GameNotActive ∨ e = InsufficientBalance ∨ e = SelfJoinForbidden) ∧
                N.join h dto user now σ = (Err e, σ))) ∧
     (∀ e σ', N.join h dto user now σ = (Err e, σ') → σ' = σ)).
Proof.
  split.
  - intros dto user now σ. split; [apply TP.join_not_found|]. split.
    + intros game Hg.
      split; [by apply TP.join_not_active|].
      split; [by apply TP.join_insufficient|].
      split; [by apply TP.join_self|].
      intros Hbad.
      destruct (decide (T.status game = active)) as [Hs|Hs].
      2: { exists GameNotActive. split; [by left|]. by eapply TP.join_not_active. }
      destruct (Qlt_le_dec (balances σ user) (TO.payAmount (T.amount game))) as [Hlt|Hle].
      { exists InsufficientBalance. split; [by right; left|].
        by eapply TP.join_insufficient. }
      exists SelfJoinForbidden. split; [by right; right|].
      eapply TP.join_self; [done..|]. destruct Hbad as [?|[?|?]]; [done|lra|done].
    + intros e σ' Hj.
      destruct (TP.join_cases dto user now σ)
        as [(e' & σ'' & Hj' & Hb & Hg)|(g & _ & _ & _ & _ & Hj')];
        rewrite Hj' in Hj; by simplify_eq.
  - intros h dto user now σ. split; [apply NP.nt_join_not_found|]. split.
    + intros game Hg.
      split; [by apply NP.nt_join_not_active|].
      split; [by apply NP.nt_join_insufficient|].
      split; [by apply NP.nt_join_self|].
      intros Hbad.
      destruct (decide (N.status game = active)) as [Hs|Hs].
      2: { exists GameNotActive. split; [by left|]. by eapply NP.nt_join_not_active. }
      destruct (Qlt_le_dec (balances σ user) (N.amount game)) as [Hlt|Hle].
      { exists InsufficientBalance. split; [by right; left|].
        by eapply NP.nt_join_insufficient. }
      exists SelfJoinForbidden. split; [by right; right|].
      eapply NP.nt_join_self; [done..|]. destruct Hbad as [?|[?|?]]; [done|lra|done].
    + intros e σ' Hj.
      destruct (NP.nt_join_cases h dto user now σ)
        as [[e' Hj']|(g & σ'' & _ & _ & _ & _ & Hj' & _)];
        rewrite Hj' in Hj; by simplify_eq.
Qed.

Lemma join_failures_witness :
  T.join {| T.gameId := 7%nat; T.move := 1%nat |} Scenario.bob 0%nat Scenario.opened
    = (Err GameNotFound, Scenario.opened) ∧
  T.join {| T.gameId := 0%nat; T.move := 1%nat |} Scenario.alice 0%nat Scenario.opened
    = (Err SelfJoinForbidden, Scenario.opened) ∧
  T.join {| T.gameId := 0%nat; T.move := 1%nat |} Scenario.bob 0%nat
         (T.create Scenario.bob (Scenario.small 23)
            (T.create Scenario.bob (Scenario.small 1) (MkStore (λ _, 26) ∅ [])).2).2
    = (Err InsufficientBalance,
       (T.create Scenario.bob (Scenario.small 23)
          (T.create Scenario.bob (Scenario.small 1) (MkStore (λ _, 26) ∅ [])).2).2) ∧
  N.join Scenario.heap {| N.gameId := 7%nat; N.move := 1%nat |} Scenario.bob 0%nat
         Scenario.nt_opened
    = (Err GameNotFound, Scenario.nt_opened) ∧
  N.join Scenario.heap {| N.gameId := 0%nat; N.move := 1%nat |} Scenario.alice 0%nat
         Scenario.nt_opened
    = (Err SelfJoinForbidden, Scenario.nt_opened).
Proof.
  destruct join_failures as (Htx & Hnt).
  split; [|split; [|split; [|split]]].
  - apply (proj1 (Htx {| T.gameId := 7%nat; T.move := 1%nat |} Scenario.bob 0%nat
                     Scenario.opened)); concrete.
  - apply (proj1 (proj2 (Htx {| T.gameId := 0%nat; T.move := 1%nat |} Scenario.alice 0%nat
                            Scenario.opened)) Scenario.game); concrete.
  - apply (proj1 (proj2 (Htx {| T.gameId := 0%nat; T.move := 1%nat |} Scenario.bob 0%nat
                            (T.create Scenario.bob (Scenario.small 23)
                               (T.create Scenario.bob (Scenario.small 1)
                                  (MkStore (λ _, 26) ∅ [])).2).2))
             (T.newGame Scenario.bob (Scenario.small 1))); concrete.
  - apply (proj1 (Hnt Scenario.heap {| N.gameId := 7%nat; N.move := 1%nat |} Scenario.bob
                     0%nat Scenario.nt_opened)); concrete.
  - apply (proj1 (proj2 (Hnt Scenario.heap {| N.gameId := 0%nat; N.move := 1%nat |}
                            Scenario.alice 0%nat Scenario.nt_opened)) Scenario.nt_game);
      concrete.
Defined.

(** C6, as the specification words it, fails on both services.  In the
    non-transactional one, with a fee of 4%, Bob, who holds 1000, joins a game
    of stake 1000 although 1000 is below 1000 × 1.04.  In the transactional
    one Bob, who holds the double computed for 9 × 1.04, which is below 9.36,
    joins a game of stake 9. *)
Lemma join_failures_counterexample :
  (games Scenario.nt_opened_all_in !! 0%nat
     = Some (N.newGame 4 Scenario.alice Scenario.nt_all_in) ∧
   balances Scenario.nt_opened_all_in Scenario.bob
     < N.amount (N.newGame 4 Scenario.alice Scenario.nt_all_in)
       * (1 + N.fee (N.newGame 4 Scenario.alice Scenario.nt_all_in) / 100) ∧
   N.join Scenario.heap {| N.gameId := 0%nat; N.move := 1%nat |} Scenario.bob 7%nat
          Scenario.nt_opened_all_in
     ≠ (Err InsufficientBalance, Scenario.nt_opened_all_in) ∧
   (N.join Scenario.heap {| N.gameId := 0%nat; N.move := 1%nat |} Scenario.bob 7%nat
           Scenario.nt_opened_all_in).1 = Ok tt) ∧
  (games Scenario.exact_change_opened !! 0%nat
     = Some (T.newGame Scenario.alice (Scenario.small 9)) ∧
   balances Scenario.exact_change_opened Scenario.bob < 9 * (1 + 4 / 100) ∧
   (T.join {| T.gameId := 0%nat; T.move := 1%nat |} Scenario.bob 7%nat
           Scenario.exact_change_opened).1 = Ok tt).
Proof.
  split.
  - split; [by vm_compute|]. split; [by vm_compute|]. split; by vm_compute.
  - split; [by vm_compute|]. split; by vm_compute.
Qed.

(** *** Cancelling a game *)

(** C7, as the code has it.  [cancel] succeeds only when the caller is the
    creator, the game is active and the ledger accepts the refund, which it
    does whenever the stake and the creator's balance are not negative.  It
    then credits the creator the sum [create] debited for this game (in the
    transactional service the double computed as
    [amount * (1 + GAME_FEE / 100)], in the non-transactional one the bare
    amount) and sets the status to [cancelled].  It fails with
    [GameNotFound], [NotOwner] or [GameNotActive] (checked in this order) and
    returns the store as it was.  When the three checks pass and the ledger
    refuses the refund, as it may for a game with a negative stake, the
    transactional service rolls back and fails with the error of its [catch]
    block, the store as it was; the non-transactional one fails with the
    ledger's error and has stored the game as [cancelled], without a
    refund. *)
Theorem cancel_spec :
  (∀ (id : GameId) (user : UserId) (σ : Store T.Game),
     (∀ σ', T.cancel id user σ = (Ok tt, σ') →
        ∃ game, games σ !! id = Some game ∧ user = T.creator game ∧
                T.status game = active ∧
                0 <= Js.add (balances σ user) (TO.payAmount (T.amount game))) ∧
     (∀ game, games σ !! id = Some game → user = T.creator game →
        T.status game = active →
        0 <= Js.add (balances σ user) (TO.payAmount (T.amount game)) →
        ∃ σ', T.cancel id user σ = (Ok tt, σ') ∧
              balances σ' user
                = Js.add (balances σ user) (TO.payAmount (T.amount game)) ∧
              (∀ other, other ≠ user → balances σ' other = balances σ other) ∧
              games σ' = <[id := T.set_status game cancelled]> (games σ) ∧
              T.status (T.set_status game cancelled) = cancelled ∧
              T.amount (T.set_status game cancelled) = T.amount game) ∧
     (∀ game, 0 <= T.amount game → 0 <= balances σ user →
        0 <= Js.add (balances σ user) (TO.payAmount (T.amount game))) ∧
     (games σ !! id = None → T.cancel id user σ = (Err GameNotFound, σ)) ∧
     (∀ game, games σ !! id = Some game → user ≠ T.creator game →
        T.cancel id user σ = (Err NotOwner, σ)) ∧
     (∀ game, games σ !! id = Some game → user = T.creator game →
        T.status game ≠ active →
        T.cancel id user σ = (Err GameNotActive, σ)) ∧
     (∀ game, games σ !! id = Some game → user = T.creator game →
        T.status game = active →
        Js.add (balances σ user) (TO.payAmount (T.amount game)) < 0 →
        T.cancel id user σ = (Err SettlementFailure, σ)) ∧
     (∀ e σ', T.cancel id user σ = (Err e, σ') → σ' = σ)) ∧
  (∀ (id : GameId) (user : UserId) (σ : Store N.Game),
     (∀ σ', N.cancel id user σ = (Ok tt, σ') →
        ∃ game, games σ !! id = Some game ∧ user = N.creator game ∧
                N.status game = active ∧
                0 <= balances σ user + N.amount game) ∧
     (∀ game, games σ !! id = Some game → user = N.creator game →
        N.status game = active → 0 <= balances σ user + N.amount game →
        ∃ σ', N.cancel id user σ = (Ok tt, σ') ∧
              balances σ' user == balances σ user + N.amount game ∧
              (∀ other, other ≠ user → balances σ' other = balances σ other) ∧
              games σ' = <[id := N.set_status game cancelled]> (games σ) ∧
              N.status (N.set_status game cancelled) = cancelled ∧
              N.amount (N.set_status game cancelled) = N.amount game) ∧
     (games σ !! id = None → N.cancel id user σ = (Err GameNotFound, σ)) ∧
     (∀ game, games σ !! id = Some game → user ≠ N.creator game →
        N.cancel id user σ = (Err NotOwner, σ)) ∧
     (∀ game, games σ !! id = Some game → user = N.creator game →
        N.status game ≠ active →
        N.cancel id user σ = (Err GameNotActive, σ)) ∧
     (∀ game, games σ !! id = Some game → user = N.creator game →
        N.status game = active → balances σ user + N.amount game < 0 →
        N.cancel id user σ =
          (Err InsufficientFunds,
           MkStore (balances σ) (<[id := N.set_status game cancelled]> (games σ))
                   (events σ))) ∧
     (∀ e σ', N.cancel id user σ = (Err e, σ') →
        e = GameNotFound ∨ e = NotOwner ∨ e = GameNotActive → σ' = σ)).
Proof.
  split.
  - intros id user σ. split.
    { intros σ' Hc.
      destruct (TP.cancel_success_inv id user σ σ' Hc) as (game & Hg & Hu & Hs).
      exists game. do 3 (split; [done|]).
      apply Qnot_lt_le. intros Hlt.
      rewrite (TP.cancel_refused id user σ game) in Hc by done. discriminate. }
    split.
    { intros game Hg Hu Hs Hb. exists (TO.refunded id user game σ).
      split; [by apply TP.cancel_accepted|]. cbn [TO.refunded balances games].
      split; [by fn_simpl|]. split; [intros other Hne; by fn_simpl|done]. }
    split.
    { intros game Ha Hb. pose proof (TP.payAmount_nonneg _ Ha).
      apply Js_add_nonneg. lra. }
    split; [apply TP.cancel_not_found|].
    split; [apply TP.cancel_not_owner|].
    split; [apply TP.cancel_not_active|].
    split; [apply TP.cancel_refused|].
    intros e σ' Hc.
    destruct (TP.cancel_cases id user σ) as [[e' Hc']|(g & _ & _ & _ & Hc')];
      rewrite Hc' in Hc; by simplify_eq.
  - intros id user σ. split.
    { intros σ' Hc.
      destruct (games σ !! id) as [game|] eqn:Hg.
      2: { rewrite NP.nt_cancel_not_found in Hc by done. discriminate. }
      destruct (decide (user = N.creator game)) as [Hu|Hu].
      2: { erewrite NP.nt_cancel_not_owner in Hc by done. discriminate. }
      destruct (decide (N.status game = active)) as [Hs|Hs].
      2: { erewrite NP.nt_cancel_not_active in Hc by done. discriminate. }
      exists game. do 3 (split; [done|]).
      apply Qnot_lt_le. intros Hlt.
      erewrite NP.nt_cancel_refused in Hc by done. discriminate. }
    split.
    { intros game Hg Hu Hs Hb.
      destruct (NP.nt_cancel_accepted id user σ game) as (σ' & Hc & Hbal & Hgs); [done..|].
      exists σ'. split; [done|]. rewrite Hbal, Hgs. unfold credit; cbn [fst snd].
      split; [fn_simpl; lra|]. split; [intros other Hne; by fn_simpl|done]. }
    split; [apply NP.nt_cancel_not_found|].
    split; [apply NP.nt_cancel_not_owner|].
    split; [apply NP.nt_cancel_not_active|].
    split; [apply NP.nt_cancel_refused|].
    intros e σ' Hc He.
    destruct (games σ !! id) as [game|] eqn:Hg.
    2: { rewrite NP.nt_cancel_not_found in Hc by done. by simplify_eq. }
    destruct (decide (user = N.creator game)) as [Hu|Hu].
    2: { erewrite NP.nt_cancel_not_owner in Hc by done. by simplify_eq. }
    destruct (decide (N.status game = active)) as [Hs|Hs].
    2: { erewrite NP.nt_cancel_not_active in Hc by done. by simplify_eq. }
    destruct (Qlt_le_dec (balances σ user + N.amount game) 0) as [Hlt|Hle].
    + erewrite NP.nt_cancel_refused in Hc by done. simplify_eq.
      destruct He as [?|[?|?]]; discriminate.
    + destruct (NP.nt_cancel_accepted id user σ game) as (σ'' & Hc' & _); [done..|].
      rewrite Hc' in Hc. discriminate.
Qed.

Lemma cancel_spec_witness :
  (∃ σ', T.cancel 0%nat Scenario.alice Scenario.opened = (Ok tt, σ') ∧
         balances σ' Scenario.alice = Js.add 1000 (TO.payAmount 100) ∧
         (∀ other, other ≠ Scenario.alice → balances σ' other = 1000) ∧
         games σ' = <[0%nat := T.set_status Scenario.game cancelled]> {[ 0%nat := Scenario.game ]} ∧
         T.status (T.set_status Scenario.game cancelled) = cancelled ∧
         T.amount (T.set_status Scenario.game cancelled) = 100) ∧
  T.cancel 0%nat Scenario.bob Scenario.opened = (Err NotOwner, Scenario.opened) ∧
  T.cancel 0%nat Scenario.alice Scenario.overdrawn
    = (Err SettlementFailure, Scenario.overdrawn) ∧
  (∃ σ', N.cancel 0%nat Scenario.alice Scenario.nt_opened = (Ok tt, σ') ∧
         balances σ' Scenario.alice == 1000 + 100 ∧
         (∀ other, other ≠ Scenario.alice → balances σ' other = 1000) ∧
         games σ' = <[0%nat := N.set_status Scenario.nt_game cancelled]>
                      {[ 0%nat := Scenario.nt_game ]} ∧
         N.status (N.set_status Scenario.nt_game cancelled) = cancelled ∧
         N.amount (N.set_status Scenario.nt_game cancelled) = 100) ∧
  N.cancel 0%nat Scenario.bob Scenario.nt_opened = (Err NotOwner, Scenario.nt_opened) ∧
  N.cancel 0%nat Scenario.alice Scenario.nt_overdrawn
    = (Err InsufficientFunds,
       MkStore (balances Scenario.nt_overdrawn)
               (<[0%nat := N.set_status (N.newGame 4 Scenario.alice
                                           (Scenario.nt_small (- (2000)))) cancelled]>
                  (games Scenario.nt_overdrawn))
               (events Scenario.nt_overdrawn)).
Proof.
  destruct cancel_spec as (Htx & Hnt).
  split; [|split; [|split; [|split; [|split]]]].
  - apply (proj1 (proj2 (Htx 0%nat Scenario.alice Scenario.opened)) Scenario.game); concrete.
  - apply (proj1 (proj2 (proj2 (proj2 (proj2 (Htx 0%nat Scenario.bob Scenario.opened)))))
             Scenario.game); concrete.
  - apply (proj1 (proj2 (proj2 (proj2 (proj2 (proj2 (proj2
             (Htx 0%nat Scenario.alice Scenario.overdrawn)))))))
             (T.newGame Scenario.alice (Scenario.small (- (2000))))); concrete.
  - apply (proj1 (proj2 (Hnt 0%nat Scenario.alice Scenario.nt_opened)) Scenario.nt_game);
      concrete.
  - apply (proj1 (proj2 (proj2 (proj2 (Hnt 0%nat Scenario.bob Scenario.nt_opened))))
             Scenario.nt_game); concrete.
  - apply (proj1 (proj2 (proj2 (proj2 (proj2 (proj2
             (Hnt 0%nat Scenario.alice Scenario.nt_overdrawn))))))
             (N.newGame 4 Scenario.alice (Scenario.nt_small (- (2000))))); concrete.
Defined.

(** C7, as the specification words it, fails on both services.  In the
    non-transactional one, with stake 100 and a fee of 4%, the creator who
    cancels is credited 100, not 104.  Alice then opens a game of stake
    -2000, which credits her 2000, and a game of stake 2500: when she cancels
    the former the ledger refuses the refund, a debit of 2000 from the 500
    she holds.  The non-transactional service fails with the ledger's error,
    none of the three the claim names, and has changed the game, now stored
    as [cancelled]; the transactional service, whose sums are 2080 and 2600,
    fails with the error of its [catch] block, none of the three either. *)
Lemma cancel_spec_counterexample :
  ((N.cancel 0%nat Scenario.alice Scenario.nt_opened).1 = Ok tt ∧
   balances (N.cancel 0%nat Scenario.alice Scenario.nt_opened).2 Scenario.alice
     == balances Scenario.nt_opened Scenario.alice + 100 ∧
   ¬ balances (N.cancel 0%nat Scenario.alice Scenario.nt_opened).2 Scenario.alice
     == balances Scenario.nt_opened Scenario.alice
        + N.amount Scenario.nt_game * (1 + N.fee Scenario.nt_game / 100)) ∧
  (balances Scenario.nt_overdrawn Scenario.alice == 500 ∧
   (∃ game, games Scenario.nt_overdrawn !! 0%nat = Some game ∧
            N.creator game = Scenario.alice ∧ N.status game = active ∧
            N.amount game == - (2000)) ∧
   (N.cancel 0%nat Scenario.alice Scenario.nt_overdrawn).1 = Err InsufficientFunds ∧
   (∃ game, games (N.cancel 0%nat Scenario.alice Scenario.nt_overdrawn).2 !! 0%nat
              = Some game ∧ N.status game = cancelled) ∧
   (N.cancel 0%nat Scenario.alice Scenario.nt_overdrawn).2 ≠ Scenario.nt_overdrawn ∧
   balances (N.cancel 0%nat Scenario.alice Scenario.nt_overdrawn).2 Scenario.alice
     == 500) ∧
  (balances Scenario.overdrawn Scenario.alice == 480 ∧
   (∃ game, games Scenario.overdrawn !! 0%nat = Some game ∧
            T.creator game = Scenario.alice ∧ T.status game = active ∧
            T.amount game == - (2000)) ∧
   T.cancel 0%nat Scenario.alice Scenario.overdrawn
     = (Err SettlementFailure, Scenario.overdrawn)).
Proof.
  split; [|split].
  - split; [by vm_compute|]. split; by vm_compute.
  - split; [by vm_compute|].
    split; [eexists; split; [by vm_compute|]; split; [done|]; split; [done|by vm_compute]|].
    split; [by vm_compute|].
    split; [eexists; split; by vm_compute|].
    split; [|by vm_compute].
    intros H. apply (f_equal (λ σ, N.status <$> games σ !! 0%nat)) in H.
    vm_compute in H. discriminate.
  - split; [by vm_compute|].
    split; [eexists; split; [by vm_compute|]; split; [done|]; split; [done|by vm_compute]|].
    by vm_compute.
Qed.

(** *** Settlement: a tie *)

(** C3, as the code has it.  When the joiner's move equals the creator's,
    each of the two parties is credited back the sum the service debited from
    it on entry: in the transactional service the double computed as
    [amount * (1 + GAME_FEE / 100)], in the non-transactional one the bare
    amount.  No fee is retained.  In the non-transactional service, whose
    sums are whole numbers, every balance is back to what it was before the
    game.  In the transactional service a balance [b] ends as the double
    [(b - payAmount) + payAmount], two rounded operations, which is [b] when
    the sums are exact (stake 100 from a balance of 1000) and otherwise may
    miss it by a rounding error. *)
Theorem tie_refund :
  (∀ (dto : T.JoinGameDto) (user : UserId) (now : nat) (σ σ' : Store T.Game) (game : T.Game),
     games σ !! T.gameId dto = Some game →
     T.join dto user now σ = (Ok tt, σ') →
     T.creatorMove game = T.move dto →
     TO.credits game user (T.move dto) =
       [(T.creator game, TO.payAmount (T.amount game));
        (user, TO.payAmount (T.amount game))] ∧
     balances σ' = foldl TO.credit
                         (TO.credit (balances σ) (user, - TO.payAmount (T.amount game)))
                         (TO.credits game user (T.move dto)) ∧
     balances σ' (T.creator game)
       = Js.add (balances σ (T.creator game)) (TO.payAmount (T.amount game)) ∧
     balances σ' user
       = Js.add (Js.add (balances σ user) (- TO.payAmount (T.amount game)))
                (TO.payAmount (T.amount game)) ∧
     (∀ other, other ≠ user → other ≠ T.creator game →
               balances σ' other = balances σ other) ∧
     games σ' !! T.gameId dto = Some (T.set_joined game user (T.move dto) now)) ∧
  (∀ (creator user : UserId) (dto : T.CreateGameDto) (now : nat) (σ : Store T.Game),
     TO.payAmount (T.dto_amount dto) <= balances σ creator →
     (T.userActiveCount creator σ < 5)%nat →
     0 <= T.dto_amount dto →
     user ≠ creator →
     TO.payAmount (T.dto_amount dto) <= balances σ user →
     ∃ σ1 σ2,
       T.create creator dto σ = (Ok tt, σ1) ∧
       balances σ1 creator
         = Js.add (balances σ creator) (- TO.payAmount (T.dto_amount dto)) ∧
       T.join {| T.gameId := fresh (dom (games σ)); T.move := T.dto_creatorMove dto |}
              user now σ1 = (Ok tt, σ2) ∧
       balances σ2 user
         = Js.add (Js.add (balances σ user) (- TO.payAmount (T.dto_amount dto)))
                  (TO.payAmount (T.dto_amount dto)) ∧
       balances σ2 creator
         = Js.add (Js.add (balances σ creator) (- TO.payAmount (T.dto_amount dto)))
                  (TO.payAmount (T.dto_amount dto)) ∧
       ∀ u, u ≠ creator → u ≠ user → balances σ2 u = balances σ u) ∧
  (∀ (h : Js.heap) (dto : N.JoinGameDto) (user : UserId) (now : nat)
     (σ : Store N.Game) (game : N.Game),
     games σ !! N.gameId dto = Some game →
     N.status game = active →
     N.amount game <= balances σ user →
     user ≠ N.creator game →
     0 <= N.amount game →
     0 <= balances σ (N.creator game) →
     N.fee game <= 100 →
     N.creatorMove game = N.move dto →
     ∃ σ',
       N.join h dto user now σ = (Ok tt, σ') ∧
       balances σ' =
         credit (credit (credit (balances σ) (user, - N.amount game))
                        (N.creator game, N.amount game))
                (user, N.amount game) ∧
       balances σ' (N.creator game) == balances σ (N.creator game) + N.amount game ∧
       balances σ' user == balances σ user) ∧
  (∀ (schema_fee : Q) (h : Js.heap) (creator user : UserId) (dto : N.CreateGameDto)
     (now : nat) (σ : Store N.Game),
     N.dto_amount dto <= balances σ creator →
     (N.userActiveCount creator σ < 5)%nat →
     0 <= N.dto_amount dto →
     user ≠ creator →
     N.dto_amount dto <= balances σ user →
     schema_fee <= 100 →
     ∃ σ1 σ2,
       N.create schema_fee creator dto σ = (Ok tt, σ1) ∧
       balances σ1 creator == balances σ creator - N.dto_amount dto ∧
       N.join h {| N.gameId := fresh (dom (games σ)); N.move := N.dto_creatorMove dto |}
              user now σ1 = (Ok tt, σ2) ∧
       ∀ u, balances σ2 u == balances σ u).
Proof.
  split; [apply TP.tie_settled|].
  split; [apply TP.tie_whole_game|].
  split; [apply NP.nt_tie_refund|apply NP.nt_tie_whole_game].
Qed.

Lemma tie_refund_witness :
  (TO.credits Scenario.game Scenario.bob 0
     = [(Scenario.alice, TO.payAmount 100); (Scenario.bob, TO.payAmount 100)] ∧
   balances Scenario.tie_run.2 Scenario.bob
     = Js.add (Js.add 1000 (- TO.payAmount 100)) (TO.payAmount 100)) ∧
  (∃ σ1 σ2,
     T.create Scenario.alice Scenario.stake Scenario.empty = (Ok tt, σ1) ∧
     balances σ1 Scenario.alice = Js.add 1000 (- TO.payAmount 100) ∧
     T.join {| T.gameId := fresh (dom (games Scenario.empty)); T.move := 0%nat |}
            Scenario.bob 7%nat σ1 = (Ok tt, σ2) ∧
     balances σ2 Scenario.bob = Js.add (Js.add 1000 (- TO.payAmount 100)) (TO.payAmount 100) ∧
     balances σ2 Scenario.alice
       = Js.add (Js.add 1000 (- TO.payAmount 100)) (TO.payAmount 100) ∧
     ∀ u, u ≠ Scenario.alice → u ≠ Scenario.bob → balances σ2 u = 1000) ∧
  (∃ σ',
     N.join Scenario.heap {| N.gameId := 0%nat; N.move := 0%nat |} Scenario.bob 7%nat
            Scenario.nt_opened = (Ok tt, σ') ∧
     balances σ' =
       credit (credit (credit Scenario.ledger (Scenario.bob, - (100)))
                      (Scenario.alice, 100))
              (Scenario.bob, 100) ∧
     balances σ' Scenario.alice == 1000 + 100 ∧
     balances σ' Scenario.bob == 1000) ∧
  (∃ σ1 σ2,
     N.create 4 Scenario.alice Scenario.nt_stake Scenario.nt_empty = (Ok tt, σ1) ∧
     balances σ1 Scenario.alice == 1000 - 100 ∧
     N.join Scenario.heap
            {| N.gameId := fresh (dom (games Scenario.nt_empty)); N.move := 0%nat |}
            Scenario.bob 7%nat σ1 = (Ok tt, σ2) ∧
     ∀ u, balances σ2 u == 1000).
Proof.
  destruct tie_refund as (Hsettled & Hwhole & Hnt & Hntwhole).
  split; [|split; [|split]].
  - destruct (Hsettled {| T.gameId := 0%nat; T.move := 0%nat |} Scenario.bob 7%nat
                (T.create Scenario.alice Scenario.stake Scenario.empty).2
                Scenario.tie_run.2 Scenario.game)
      as (Hcr & _ & _ & Hbob & _); [concrete..|].
    split; [exact Hcr|exact Hbob].
  - apply (Hwhole Scenario.alice Scenario.bob Scenario.stake 7%nat Scenario.empty); concrete.
  - apply (Hnt Scenario.heap {| N.gameId := 0%nat; N.move := 0%nat |} Scenario.bob 7%nat
             Scenario.nt_opened Scenario.nt_game); concrete.
  - apply (Hntwhole 4 Scenario.heap Scenario.alice Scenario.bob Scenario.nt_stake 7%nat
             Scenario.nt_empty); concrete.
Defined.

(** C3, as the specification words it, fails on both services.  In the
    non-transactional one, with stake 100 and a fee of 4%, a tie refunds each
    party 100, what it had paid, and not 104.  In the transactional one the
    net balance delta is not always zero: Bob, who holds the double written
    9.92, joins Alice's game of stake 1 with her move, is debited and
    credited the same double, written 1.04, and ends with 9.919999999999998,
    less than he held. *)
Lemma tie_refund_counterexample :
  ((N.join Scenario.heap {| N.gameId := 0%nat; N.move := 0%nat |} Scenario.bob 7%nat
           Scenario.nt_opened).1 = Ok tt ∧
   NO.credits Scenario.heap Scenario.nt_game Scenario.bob 0
     = [(Scenario.alice, 100); (Scenario.bob, 100)] ∧
   balances (N.join Scenario.heap {| N.gameId := 0%nat; N.move := 0%nat |} Scenario.bob 7%nat
                    Scenario.nt_opened).2 Scenario.alice
     == balances Scenario.nt_opened Scenario.alice + 100 ∧
   ¬ balances (N.join Scenario.heap {| N.gameId := 0%nat; N.move := 0%nat |} Scenario.bob
                      7%nat Scenario.nt_opened).2 Scenario.alice
     == balances Scenario.nt_opened Scenario.alice
        + N.amount Scenario.nt_game * (1 + N.fee Scenario.nt_game / 100)) ∧
  (games Scenario.purse_opened !! 1%nat = Some (T.newGame Scenario.alice (Scenario.small 1)) ∧
   balances Scenario.purse_opened Scenario.bob == Js.fl (992 # 100) ∧
   (T.join {| T.gameId := 1%nat; T.move := 0%nat |} Scenario.bob 7%nat
           Scenario.purse_opened).1 = Ok tt ∧
   TO.credits (T.newGame Scenario.alice (Scenario.small 1)) Scenario.bob 0
     = [(Scenario.alice, TO.payAmount 1); (Scenario.bob, TO.payAmount 1)] ∧
   balances (T.join {| T.gameId := 1%nat; T.move := 0%nat |} Scenario.bob 7%nat
                    Scenario.purse_opened).2 Scenario.bob
     == 2792231768969707 # 281474976710656 ∧
   balances (T.join {| T.gameId := 1%nat; T.move := 0%nat |} Scenario.bob 7%nat
                    Scenario.purse_opened).2 Scenario.bob
     < balances Scenario.purse_opened Scenario.bob).
Proof.
  split.
  - split; [by vm_compute|]. split; [by vm_compute|]. split; by vm_compute.
  - split; [by vm_compute|]. split; [by vm_compute|]. split; [by vm_compute|].
    split; [done|]. split; by vm_compute.
Qed.

(** *** Settlement: a decisive game *)

(** C2, as the code has it.  When the two moves differ the winner alone is
    credited, and the sum credited depends on the service.  The
    transactional one, which charges the fee on top of each stake on entry,
    credits the double [amount * 2] and takes nothing off the payout; the
    non-transactional one, which debits the bare stake, credits
    [Math.round(amount * 2 * ((100 - fee) / 100))], the rounding to an
    integer of a product of doubles.  With stake 100 and a fee of 4% that is
    200 after paying 104, or 192 after paying 100; with stake 75 and a fee of
    31% the product of doubles is just below 103.5 and the payout is 103.
    Compared with the ledger right after the joiner's debit every other
    balance, the loser's among them, is untouched. *)
Theorem decisive_payout :
  (∀ (dto : T.JoinGameDto) (user : UserId) (now : nat) (σ σ' : Store T.Game) (game : T.Game),
     games σ !! T.gameId dto = Some game →
     T.join dto user now σ = (Ok tt, σ') →
     T.creatorMove game ≠ T.move dto →
     let debited :=
       TO.credit (balances σ) (user, - TO.payAmount (T.amount game)) in
     ∃ winner loser,
       ((winner = T.creator game ∧ loser = user) ∨
        (winner = user ∧ loser = T.creator game)) ∧
       games σ' !! T.gameId dto
         = Some (T.set_winner (T.set_joined game user (T.move dto) now) winner) ∧
       TO.credits game user (T.move dto) = [(winner, Js.mul (T.amount game) 2)] ∧
       balances σ' = foldl TO.credit debited (TO.credits game user (T.move dto)) ∧
       balances σ' winner = Js.add (debited winner) (Js.mul (T.amount game) 2) ∧
       balances σ' loser = debited loser ∧
       (∀ other, other ≠ winner → balances σ' other = debited other)) ∧
  (∀ (dto : T.JoinGameDto) (user : UserId) (now : nat) (σ : Store T.Game) (game : T.Game),
     games σ !! T.gameId dto = Some game →
     T.status game = active →
     TO.payAmount (T.amount game) <= balances σ user →
     user ≠ T.creator game →
     0 <= T.amount game →
     0 <= balances σ (T.creator game) →
     ∃ σ', T.join dto user now σ = (Ok tt, σ')) ∧
  (∀ (h : Js.heap) (dto : N.JoinGameDto) (user : UserId) (now : nat)
     (σ : Store N.Game) (game : N.Game),
     games σ !! N.gameId dto = Some game →
     N.status game = active →
     N.amount game <= balances σ user →
     user ≠ N.creator game →
     0 <= N.amount game →
     0 <= balances σ (N.creator game) →
     N.fee game <= 100 →
     N.creatorMove game ≠ N.move dto →
     ∃ σ' winner,
       N.join h dto user now σ = (Ok tt, σ') ∧
       winner = (if (N.move dto <? N.creatorMove game)%nat then N.creator game else user) ∧
       balances σ' =
         credit (credit (balances σ) (user, - N.amount game))
                (winner, NO.payout (N.amount game) (N.fee game))) ∧
  (NO.payout 100 4 == 192 ∧ NO.payout 75 31 == 103 ∧
   Js.Math_round (75 * 2 * ((100 - 31) / 100)) == 104).
Proof.
  split; [apply TP.decisive_settled|].
  split; [|split; [apply NP.nt_decisive_payout|]].
  - intros dto user now σ game Hg Hs Hb Hne Ha Hc. eexists. by apply TP.join_ok.
  - split; [by vm_compute|]. split; by vm_compute.
Qed.

Lemma decisive_payout_witness :
  (∃ winner loser,
     ((winner = Scenario.alice ∧ loser = Scenario.bob) ∨
      (winner = Scenario.bob ∧ loser = Scenario.alice)) ∧
     games (T.join {| T.gameId := 0%nat; T.move := 1%nat |} Scenario.bob 7%nat
                   Scenario.opened).2 !! 0%nat
       = Some (T.set_winner (T.set_joined Scenario.game Scenario.bob 1 7) winner) ∧
     TO.credits Scenario.game Scenario.bob 1 = [(winner, Js.mul 100 2)]) ∧
  (∃ σ', T.join {| T.gameId := 0%nat; T.move := 1%nat |} Scenario.bob 7%nat Scenario.opened
           = (Ok tt, σ')) ∧
  (∃ σ' winner,
     N.join Scenario.heap {| N.gameId := 0%nat; N.move := 1%nat |} Scenario.bob 7%nat
            Scenario.nt_opened = (Ok tt, σ') ∧
     winner = Scenario.bob ∧
     balances σ' =
       credit (credit Scenario.ledger (Scenario.bob, - (100)))
              (winner, NO.payout 100 4)).
Proof.
  destruct decisive_payout as (Hpaid & Hjoin & Hnt & _).
  split; [|split].
  - destruct (Hpaid {| T.gameId := 0%nat; T.move := 1%nat |} Scenario.bob 7%nat
                Scenario.opened
                (T.join {| T.gameId := 0%nat; T.move := 1%nat |} Scenario.bob 7%nat
                        Scenario.opened).2
                Scenario.game)
      as (winner & loser & Hwl & Hg & Hcr & _); [concrete..|].
    exists winner, loser. split; [exact Hwl|]. split; [exact Hg|exact Hcr].
  - apply (Hjoin {| T.gameId := 0%nat; T.move := 1%nat |} Scenario.bob 7%nat
             Scenario.opened Scenario.game); concrete.
  - apply (Hnt Scenario.heap {| N.gameId := 0%nat; N.move := 1%nat |} Scenario.bob 7%nat
             Scenario.nt_opened Scenario.nt_game); concrete.
Defined.

(** *** The status of a game over any sequence of calls *)

(** C4, as the code has it.  In the transactional service, over any sequence
    of [create], [join] and [cancel] calls, with any arguments and whether
    they succeed or fail, the status of every game is one of [active],
    [ended] and [cancelled]; it only ever moves from [active] to [ended] or
    [cancelled], and a game that is no longer active is never modified again;
    [join] and [cancel] on a game that is not active fail and return the store
    as it was, so once a [join] has settled a game every later [join] on the
    same id fails with [GameNotActive] and changes no balance.

    The non-transactional service has a fourth status.  When its [join]
    returns, the game is stored and announced as [joined], the joiner is
    debited and nothing has been credited; the settlement lands later.  Over
    any run of calls and settlements, in any order, one step leaves a game as
    it is or takes it from [active] to [joined] or [cancelled], or from
    [joined] to [ended]; the stake never changes; an ended or cancelled game
    is never modified again and a game that has left [active] never returns
    to it.  [join] and [cancel] on a game that is not active fail and return
    the store as it was.  So once a [join] on a game has returned, every later
    [join] on it fails with [GameNotActive], changes no balance and starts no
    settlement, at most one settlement of a game is ever under way, and none
    for a game that has ended. *)
Theorem status_lifecycle :
  (∀ σ σ' : Store T.Game,
     rtc TO.step σ σ' →
     (∀ id game, games σ !! id = Some game → status_valid (T.status game)) →
     ∀ id game, games σ' !! id = Some game → status_valid (T.status game)) ∧
  (∀ (σ σ' : Store T.Game) (id : GameId) (game : T.Game),
     rtc TO.step σ σ' →
     games σ !! id = Some game →
     ∃ game', games σ' !! id = Some game' ∧
              T.amount game' = T.amount game ∧
              status_advances (T.status game) (T.status game') ∧
              (T.status game ≠ active → game' = game)) ∧
  (∀ (dto : T.JoinGameDto) (user : UserId) (now : nat) (σ : Store T.Game) (game : T.Game),
     games σ !! T.gameId dto = Some game → T.status game ≠ active →
     T.join dto user now σ = (Err GameNotActive, σ)) ∧
  (∀ (id : GameId) (user : UserId) (σ : Store T.Game) (game : T.Game),
     games σ !! id = Some game → T.status game ≠ active →
     ∃ e, (e = NotOwner ∨ e = GameNotActive) ∧ T.cancel id user σ = (Err e, σ)) ∧
  (∀ (dto : T.JoinGameDto) (user : UserId) (now : nat) (σ σ1 σ2 : Store T.Game),
     T.join dto user now σ = (Ok tt, σ1) →
     rtc TO.step σ1 σ2 →
     ∀ (move' : nat) (user' : UserId) (now' : nat),
       T.join {| T.gameId := T.gameId dto; T.move := move' |} user' now' σ2
         = (Err GameNotActive, σ2)) ∧
  (∀ (schema_fee : Q) (s s' : NR.State),
     NR.step schema_fee s s' → NR.settling s →
     NR.settling s' ∧
     ∀ id game, games (NR.store s) !! id = Some game →
       ∃ game', games (NR.store s') !! id = Some game' ∧
                N.amount game' = N.amount game ∧
                (game' = game ∨
                 (N.status game = active ∧
                  (N.status game' = joined ∨ N.status game' = cancelled)) ∨
                 (N.status game = joined ∧ N.status game' = ended))) ∧
  (∀ (schema_fee : Q) (s s' : NR.State) (id : GameId) (game : N.Game),
     rtc (NR.step schema_fee) s s' → NR.settling s →
     games (NR.store s) !! id = Some game →
     ∃ game', games (NR.store s') !! id = Some game' ∧
              N.amount game' = N.amount game ∧
              nt_status_advances (N.status game) (N.status game') ∧
              (N.status game ≠ active → N.status game' ≠ active) ∧
              (N.status game = ended ∨ N.status game = cancelled →
                 game' = game ∧ id ∉ (NR.started s').*1)) ∧
  (∀ (dto : N.JoinGameDto) (user : UserId) (σ : Store N.Game) (game : N.Game),
     games σ !! N.gameId dto = Some game → N.status game ≠ active →
     NR.join_returns dto user σ = (Err GameNotActive, σ) ∧
     ∀ (h : Js.heap) (now : nat), N.join h dto user now σ = (Err GameNotActive, σ)) ∧
  (∀ (id : GameId) (user : UserId) (σ : Store N.Game) (game : N.Game),
     games σ !! id = Some game → N.status game ≠ active →
     ∃ e, (e = NotOwner ∨ e = GameNotActive) ∧ N.cancel id user σ = (Err e, σ)) ∧
  (∀ (schema_fee : Q) (dto : N.JoinGameDto) (user : UserId) (s s2 : NR.State)
     (game : N.Game) (σ1 : Store N.Game),
     NR.settling s →
     NR.join_returns dto user (NR.store s) = (Ok game, σ1) →
     rtc (NR.step schema_fee) (NR.joined_state dto user s) s2 →
     NoDup (NR.started s2).*1 ∧
     ∀ (move' : nat) (user' : UserId),
       NR.join_returns {| N.gameId := N.gameId dto; N.move := move' |} user' (NR.store s2)
         = (Err GameNotActive, NR.store s2) ∧
       NR.joined_state {| N.gameId := N.gameId dto; N.move := move' |} user' s2 = s2) ∧
  (∀ (dto : N.JoinGameDto) (user : UserId) (σ : Store N.Game) (game : N.Game),
     games σ !! N.gameId dto = Some game →
     N.status game = active →
     N.amount game <= balances σ user →
     user ≠ N.creator game →
     ∃ σ', NR.join_returns dto user σ = (Ok (N.set_joined game user (N.move dto)), σ') ∧
           games σ' = <[N.gameId dto := N.set_joined game user (N.move dto)]> (games σ) ∧
           N.status (N.set_joined game user (N.move dto)) = joined ∧
           balances σ' = credit (balances σ) (user, - N.amount game)).
Proof.
  split; [apply TP.steps_valid|].
  split; [intros σ σ' id game Hsteps Hg; by apply (TP.steps_game σ)|].
  split; [intros; by eapply TP.join_not_active|].
  split.
  { intros id user σ game Hg Hs.
    destruct (decide (user = T.creator game)) as [Hu|Hu].
    - exists GameNotActive. split; [by right|]. by eapply TP.cancel_not_active.
    - exists NotOwner. split; [by left|]. by eapply TP.cancel_not_owner. }
  split.
  { intros dto user now σ σ1 σ2 Hj Hsteps move' user' now'.
    destruct (TP.join_cases dto user now σ)
      as [(e & σ'' & Hj' & _)|(game & Hg & Hs & Hne & Hb & Hj')];
      rewrite Hj' in Hj; simplify_eq.
    destruct (TP.steps_game _ σ2 (T.gameId dto)
                (TO.settled_game game user (T.move dto) now) Hsteps)
      as (game' & Hg' & _ & _ & Hfix).
    { cbn [TO.settled games]. apply lookup_insert_eq. }
    rewrite Hfix in Hg' by (by rewrite TP.settled_game_status).
    eapply TP.join_not_active; [exact Hg'|]. by rewrite TP.settled_game_status. }
  split.
  { intros fee s s' Hstep Hset. split; [by eapply NRP.step_settling|].
    intros id game Hg. by eapply NRP.step_game. }
  split.
  { intros fee s s' id game Hsteps Hset Hg.
    destruct (NRP.run_game fee s s' id game Hsteps Hset Hg)
      as (game' & Hg' & Ha & Hadv & Hfix).
    exists game'. do 3 (split; [done|]). split.
    - intros Hs.
      destruct (NRP.run_not_active fee s s' id game Hsteps Hset Hg Hs) as (g & Hg2 & Hs2).
      congruence.
    - intros Hs.
      destruct (NRP.finished_never_settles fee s s' id game Hsteps Hset Hg Hs) as [_ Hni].
      split; [by apply Hfix|done]. }
  split.
  { intros dto user σ game Hg Hs. split; [by eapply NRP.join_returns_not_active|].
    intros h now. by eapply NP.nt_join_not_active. }
  split.
  { intros id user σ game Hg Hs.
    destruct (decide (user = N.creator game)) as [Hu|Hu].
    - exists GameNotActive. split; [by right|]. by eapply NP.nt_cancel_not_active.
    - exists NotOwner. split; [by left|]. by eapply NP.nt_cancel_not_owner. }
  split.
  { intros fee dto user s s2 game σ1 Hset Hj Hsteps. by eapply NRP.join_returned_steps. }
  intros dto user σ game Hg Hs Hb Hne.
  destruct (NRP.join_returns_cases dto user σ)
    as [[e He]|(g & σ' & Hg' & _ & _ & _ & Hj & Hbal & Hgs & _)].
  - exfalso. revert He. unfold NR.join_returns. rewrite Hg.
    rewrite bool_decide_eq_true_2 by done. cbn [negb].
    rewrite Js_lt_false by done.
    apply Nat.eqb_neq in Hne. rewrite Hne.
    destruct (NP.nt_joining_joined dto user σ game Hb) as (σ' & -> & _). discriminate.
  - simplify_eq. by exists σ'.
Qed.

Lemma status_lifecycle_witness :
  T.join {| T.gameId := 0%nat; T.move := 2%nat |} Scenario.alice 9%nat
         (T.cancel 0%nat Scenario.alice
            (T.join {| T.gameId := 0%nat; T.move := 1%nat |} Scenario.bob 7%nat
                    Scenario.opened).2).2
  = (Err GameNotActive,
     (T.cancel 0%nat Scenario.alice
        (T.join {| T.gameId := 0%nat; T.move := 1%nat |} Scenario.bob 7%nat
                Scenario.opened).2).2) ∧
  (NoDup (NR.started Scenario.nt_run).*1 ∧
   ∀ (move' : nat) (user' : UserId),
     NR.join_returns {| N.gameId := 0%nat; N.move := move' |} user'
                     (NR.store Scenario.nt_run)
       = (Err GameNotActive, NR.store Scenario.nt_run) ∧
     NR.joined_state {| N.gameId := 0%nat; N.move := move' |} user' Scenario.nt_run
       = Scenario.nt_run) ∧
  (∃ game', games (NR.store Scenario.nt_run) !! 0%nat = Some game' ∧
            N.amount game' = N.amount Scenario.nt_game ∧
            nt_status_advances active (N.status game')) ∧
  (∃ σ', NR.join_returns {| N.gameId := 0%nat; N.move := 1%nat |} Scenario.bob
                         Scenario.nt_opened
           = (Ok (N.set_joined Scenario.nt_game Scenario.bob 1), σ') ∧
         games σ' = <[0%nat := N.set_joined Scenario.nt_game Scenario.bob 1]>
                      (games Scenario.nt_opened) ∧
         N.status (N.set_joined Scenario.nt_game Scenario.bob 1) = joined ∧
         balances σ' = credit (balances Scenario.nt_opened) (Scenario.bob, - (100))).
Proof.
  destruct status_lifecycle as (_ & _ & _ & _ & Htx & _ & Hrun & _ & _ & Hnt & Hjoined).
  assert (rtc (NR.step 4)
            (NR.joined_state {| N.gameId := 0%nat; N.move := 1%nat |} Scenario.bob
                             (NR.MkState Scenario.nt_opened []))
            Scenario.nt_run) as Hsteps.
  { eapply rtc_l; [apply (NR.step_cancel 4 0%nat Scenario.alice)|].
    eapply rtc_l; [|apply rtc_refl].
    apply (NR.step_pickWinner 4 Scenario.heap 7%nat 0%nat
             (N.set_joined Scenario.nt_game Scenario.bob 1) [] []).
    by vm_compute. }
  split; [|split; [|split]].
  - apply (Htx {| T.gameId := 0%nat; T.move := 1%nat |} Scenario.bob 7%nat Scenario.opened
             (T.join {| T.gameId := 0%nat; T.move := 1%nat |} Scenario.bob 7%nat
                     Scenario.opened).2).
    + concrete.
    + eapply rtc_l; [|apply rtc_refl]. exists (TO.Cancel 0%nat Scenario.alice). concrete.
  - apply (Hnt 4 {| N.gameId := 0%nat; N.move := 1%nat |} Scenario.bob
             (NR.MkState Scenario.nt_opened []) Scenario.nt_run
             (N.set_joined Scenario.nt_game Scenario.bob 1)
             (NR.join_returns {| N.gameId := 0%nat; N.move := 1%nat |} Scenario.bob
                              Scenario.nt_opened).2).
    + apply NRP.settling_nil.
    + by vm_compute.
    + exact Hsteps.
  - destruct (Hrun 4 (NR.MkState Scenario.nt_opened []) Scenario.nt_run 0%nat
                Scenario.nt_game) as (game' & Hg' & Ha & Hadv & _).
    + eapply rtc_l; [apply (NR.step_join 4 {| N.gameId := 0%nat; N.move := 1%nat |}
                              Scenario.bob)|exact Hsteps].
    + apply NRP.settling_nil.
    + by vm_compute.
    + exists game'. split; [exact Hg'|]. split; [exact Ha|exact Hadv].
  - apply (Hjoined {| N.gameId := 0%nat; N.move := 1%nat |} Scenario.bob Scenario.nt_opened
             Scenario.nt_game); concrete.
Defined.

(** C4, as the specification words it, fails on the non-transactional
    service: when Bob's [join] returns, the game is stored with the status
    [joined], which is none of [active], [ended] and [cancelled], and the
    clients have been told so. *)
Lemma status_lifecycle_counterexample :
  ∃ game σ',
    NR.join_returns {| N.gameId := 0%nat; N.move := 1%nat |} Scenario.bob
                    Scenario.nt_opened = (Ok game, σ') ∧
    games σ' !! 0%nat = Some game ∧
    N.status game = joined ∧
    ¬ status_valid (N.status game) ∧
    GameUpdate 0%nat game ∈ events σ'.
Proof.
  exists (N.set_joined Scenario.nt_game Scenario.bob 1).
  exists (NR.join_returns {| N.gameId := 0%nat; N.move := 1%nat |} Scenario.bob
                          Scenario.nt_opened).2.
  split; [by vm_compute|]. split; [by vm_compute|]. split; [reflexivity|].
  split; [intros [H|[H|H]]; discriminate|].
  vm_compute. apply list_elem_of_further, list_elem_of_here.
Qed.

End ServicesProofs.

(** ** The two services compared *)

Module VariantsProofs.

(** For a whole-number stake the sum the transactional service debits and
    refunds is above the stake, which is what the non-transactional one
    debits and refunds. *)
Lemma payAmount_small_checked :
  forallb (λ n, Js.lt (inject_Z (Z.of_nat n))
                      (TransactionalOutcomes.payAmount (inject_Z (Z.of_nat n))))
          (seq 1 24) = true.
Proof. by vm_compute. Qed.

Lemma payAmount_above (z : Z) :
  (1 <= z < 2 ^ 52)%Z → inject_Z z < TransactionalOutcomes.payAmount (inject_Z z).
Proof.
  intros [Hz1 Hz2].
  destruct (Z.lt_ge_cases z 25) as [Hsmall|Hlarge].
  - pose proof payAmount_small_checked as H.
    rewrite List.forallb_forall in H.
    specialize (H (Z.to_nat z)). rewrite Z2Nat.id in H by lia.
    apply Js_lt_spec, H. apply in_seq. lia.
  - unfold TransactionalOutcomes.payAmount, Js.mul.
    apply Qlt_le_trans with (inject_Z (z + 1)).
    { rewrite <- Zlt_Qlt. lia. }
    apply fl_ge_Z; [lia|].
    rewrite TransactionalProofs.fee_factor, inject_Z_plus.
    assert (25 <= inject_Z z) as H25.
    { change 25 with (inject_Z 25). rewrite <- Zle_Qle. lia. }
    change (inject_Z 1) with 1. lra.
Qed.

(** C8, as the code has it.  The two services settle differently.  With a
    creator move of 0 and an opponent move of 2 the transactional service
    selects the creator and the non-transactional one the opponent: there the
    array of moves is compared with the literals [[0, 2]] and [[2, 0]] by
    reference, which never holds, so the choice is always the larger move.
    On a tie the transactional service credits each party the double it
    computes as [amount * (1 + GAME_FEE / 100)] and the non-transactional one
    the bare amount; for a whole-number stake the former is the larger.  Each
    refund is the sum the same service debited on entry: neither retains a
    fee on a tie. *)
Theorem variants_differ :
  (∀ (h : Js.heap) (creator opponent : UserId),
     Transactional.winningChoice 0 2 = 0%nat ∧
     NonTransactional.winningChoice h 0 2 = 2%nat ∧
     TransactionalOutcomes.selected creator opponent 0 2 = Some creator ∧
     NonTransactionalOutcomes.selected h creator opponent 0 2 = Some opponent) ∧
  (∀ (dto : Transactional.JoinGameDto) (user : UserId) (now : nat)
     (σ : Store Transactional.Game) (game : Transactional.Game),
     games σ !! Transactional.gameId dto = Some game →
     Transactional.status game = active →
     TransactionalOutcomes.payAmount (Transactional.amount game) <= balances σ user →
     user ≠ Transactional.creator game →
     0 <= Transactional.amount game →
     0 <= balances σ (Transactional.creator game) →
     Transactional.creatorMove game = 0%nat → Transactional.move dto = 2%nat →
     ∃ σ' game',
       Transactional.join dto user now σ = (Ok tt, σ') ∧
       games σ' !! Transactional.gameId dto = Some game' ∧
       Transactional.winner game' = Some (Transactional.creator game)) ∧
  (∀ (h : Js.heap) (dto : NonTransactional.JoinGameDto) (user : UserId) (now : nat)
     (σ : Store NonTransactional.Game) (game : NonTransactional.Game),
     games σ !! NonTransactional.gameId dto = Some game →
     NonTransactional.status game = active →
     NonTransactional.amount game <= balances σ user →
     user ≠ NonTransactional.creator game →
     0 <= NonTransactional.amount game →
     0 <= balances σ (NonTransactional.creator game) →
     NonTransactional.fee game <= 100 →
     NonTransactional.creatorMove game = 0%nat → NonTransactional.move dto = 2%nat →
     ∃ σ' game',
       NonTransactional.join h dto user now σ = (Ok tt, σ') ∧
       games σ' !! NonTransactional.gameId dto = Some game' ∧
       NonTransactional.winner game' = Some user) ∧
  (∀ (h : Js.heap) (creatorMove opponentMove : nat),
     NonTransactional.winningChoice h creatorMove opponentMove
       = Nat.max creatorMove opponentMove) ∧
  (∀ (dto : Transactional.JoinGameDto) (user : UserId) (now : nat)
     (σ : Store Transactional.Game) (game : Transactional.Game),
     games σ !! Transactional.gameId dto = Some game →
     Transactional.status game = active →
     TransactionalOutcomes.payAmount (Transactional.amount game) <= balances σ user →
     user ≠ Transactional.creator game →
     0 <= Transactional.amount game →
     0 <= balances σ (Transactional.creator game) →
     Transactional.creatorMove game = Transactional.move dto →
     ∃ σ', Transactional.join dto user now σ = (Ok tt, σ') ∧
           TransactionalOutcomes.credits game user (Transactional.move dto)
             = [(Transactional.creator game,
                 TransactionalOutcomes.payAmount (Transactional.amount game));
                (user, TransactionalOutcomes.payAmount (Transactional.amount game))] ∧
           balances σ' (Transactional.creator game)
             = Js.add (balances σ (Transactional.creator game))
                      (TransactionalOutcomes.payAmount (Transactional.amount game)) ∧
           balances σ' user
             = Js.add (Js.add (balances σ user)
                              (- TransactionalOutcomes.payAmount (Transactional.amount game)))
                      (TransactionalOutcomes.payAmount (Transactional.amount game))) ∧
  (∀ (h : Js.heap) (dto : NonTransactional.JoinGameDto) (user : UserId) (now : nat)
     (σ : Store NonTransactional.Game) (game : NonTransactional.Game),
     games σ !! NonTransactional.gameId dto = Some game →
     NonTransactional.status game = active →
     NonTransactional.amount game <= balances σ user →
     user ≠ NonTransactional.creator game →
     0 <= NonTransactional.amount game →
     0 <= balances σ (NonTransactional.creator game) →
     NonTransactional.fee game <= 100 →
     NonTransactional.creatorMove game = NonTransactional.move dto →
     ∃ σ', NonTransactional.join h dto user now σ = (Ok tt, σ') ∧
           NonTransactionalOutcomes.credits h game user (NonTransactional.move dto)
             = [(NonTransactional.creator game, NonTransactional.amount game);
                (user, NonTransactional.amount game)] ∧
           balances σ' (NonTransactional.creator game)
             == balances σ (NonTransactional.creator game) + NonTransactional.amount game ∧
           balances σ' user == balances σ user) ∧
  (∀ stake : Z, (1 <= stake < 2 ^ 52)%Z →
     inject_Z stake < TransactionalOutcomes.payAmount (inject_Z stake)) ∧
  (∀ (creator user : UserId) (dto : Transactional.CreateGameDto) (now : nat)
     (σ : Store Transactional.Game),
     TransactionalOutcomes.payAmount (Transactional.dto_amount dto) <= balances σ creator →
     (Transactional.userActiveCount creator σ < 5)%nat →
     0 <= Transactional.dto_amount dto →
     user ≠ creator →
     TransactionalOutcomes.payAmount (Transactional.dto_amount dto) <= balances σ user →
     ∃ σ1 σ2,
       Transactional.create creator dto σ = (Ok tt, σ1) ∧
       balances σ1 creator
         = Js.add (balances σ creator)
                  (- TransactionalOutcomes.payAmount (Transactional.dto_amount dto)) ∧
       Transactional.join {| Transactional.gameId := fresh (dom (games σ));
                             Transactional.move := Transactional.dto_creatorMove dto |}
                          user now σ1 = (Ok tt, σ2) ∧
       balances σ2 =
         foldl TransactionalOutcomes.credit (balances σ)
           [(creator, - TransactionalOutcomes.payAmount (Transactional.dto_amount dto));
            (user, - TransactionalOutcomes.payAmount (Transactional.dto_amount dto));
            (creator, TransactionalOutcomes.payAmount (Transactional.dto_amount dto));
            (user, TransactionalOutcomes.payAmount (Transactional.dto_amount dto))]) ∧
  (∀ (schema_fee : Q) (h : Js.heap) (creator user : UserId)
     (dto : NonTransactional.CreateGameDto) (now : nat) (σ : Store NonTransactional.Game),
     NonTransactional.dto_amount dto <= balances σ creator →
     (NonTransactional.userActiveCount creator σ < 5)%nat →
     0 <= NonTransactional.dto_amount dto →
     user ≠ creator →
     NonTransactional.dto_amount dto <= balances σ user →
     schema_fee <= 100 →
     ∃ σ1 σ2,
       NonTransactional.create schema_fee creator dto σ = (Ok tt, σ1) ∧
       NonTransactional.join h {| NonTransactional.gameId := fresh (dom (games σ));
                                  NonTransactional.move :=
                                    NonTransactional.dto_creatorMove dto |}
                             user now σ1 = (Ok tt, σ2) ∧
       Scenario.fee_retained (balances σ) (balances σ2) creator user == 0).
Proof.
  split.
  { intros h creator opponent.
    split; [done|]. split; [apply NonTransactionalProofs.nt_winningChoice_max|].
    split; [done|]. by rewrite NonTransactionalProofs.nt_selected_max. }
  split.
  { intros dto user now σ game Hg Hs Hb Hne Ha Hc Hcm Hm.
    destruct (TransactionalProofs.pickWinner_cyclic dto user now σ game)
      as (σ' & game' & Hj & Hg' & _ & _ & Hw); [done..|lia|lia|].
    exists σ', game'. split; [done|]. split; [done|].
    rewrite Hw by lia. by rewrite Hcm, Hm. }
  split.
  { intros h dto user now σ game Hg Hs Hb Hne Ha Hc Hf Hcm Hm.
    destruct (NonTransactionalProofs.nt_join_winner h dto user now σ game)
      as (σ' & game' & Hj & Hg' & _ & Hw); [done..|lia|].
    exists σ', game'. split; [done|]. split; [done|].
    by rewrite Hw, Hcm, Hm. }
  split; [apply NonTransactionalProofs.nt_winningChoice_max|].
  split.
  { intros dto user now σ game Hg Hs Hb Hne Ha Hc Hmv.
    destruct (TransactionalProofs.tie_join dto user now σ game)
      as (σ' & Hj & Hcred & _ & Hcr & Hu & _); [done..|].
    by exists σ'. }
  split.
  { intros h dto user now σ game Hg Hs Hb Hne Ha Hc Hf Hmv.
    destruct (NonTransactionalProofs.nt_tie_refund h dto user now σ game)
      as (σ' & Hj & _ & Hcr & Hu); [done..|].
    exists σ'. split; [done|]. split; [|done].
    unfold NonTransactionalOutcomes.credits, NonTransactionalOutcomes.selected.
    by rewrite Hmv, Nat.eqb_refl. }
  split; [apply payAmount_above|].
  split.
  { intros creator user dto now σ Hb Hc Ha Hne Hbu.
    destruct (TransactionalProofs.tie_whole_game creator user dto now σ)
      as (σ1 & σ2 & Hcr & Hb1 & Hj & _); [done..|].
    exists σ1, σ2. split; [done|]. split; [done|]. split; [done|].
    apply TransactionalProofs.create_success_inv in Hcr as (_ & _ & ->).
    pose proof Hj as Hj'.
    apply (TransactionalProofs.join_success_inv _ _ _ _ _
             (Transactional.newGame creator dto)) in Hj' as (_ & _ & _ & ->);
      [|apply lookup_insert_eq].
    cbn [TransactionalOutcomes.settled balances TransactionalOutcomes.created
         Transactional.gameId Transactional.move Transactional.newGame Transactional.amount].
    rewrite TransactionalProofs.credits_tie by done.
    unfold TransactionalOutcomes.credit;
      cbn [foldl fst snd Transactional.newGame Transactional.creator Transactional.amount].
    assert (creator ≠ user) by congruence. by fn_simpl. }
  intros schema_fee h creator user dto now σ Hb Hc Ha Hne Hbu Hf.
  destruct (NonTransactionalProofs.nt_tie_whole_game schema_fee h creator user dto now σ)
    as (σ1 & σ2 & Hcr & _ & Hj & Hall); [done..|].
  exists σ1, σ2. split; [done|]. split; [done|].
  unfold Scenario.fee_retained. rewrite (Hall creator), (Hall user). lra.
Qed.

Lemma variants_differ_witness :
  (∃ σ' game',
     Transactional.join {| Transactional.gameId := 0%nat; Transactional.move := 2%nat |}
       Scenario.bob 7%nat Scenario.opened = (Ok tt, σ') ∧
     games σ' !! 0%nat = Some game' ∧
     Transactional.winner game' = Some Scenario.alice) ∧
  (∃ σ' game',
     NonTransactional.join Scenario.heap
       {| NonTransactional.gameId := 0%nat; NonTransactional.move := 2%nat |}
       Scenario.bob 7%nat Scenario.nt_opened = (Ok tt, σ') ∧
     games σ' !! 0%nat = Some game' ∧
     NonTransactional.winner game' = Some Scenario.bob) ∧
  (∃ σ', Transactional.join
           {| Transactional.gameId := 0%nat; Transactional.move := 0%nat |}
           Scenario.bob 7%nat Scenario.opened = (Ok tt, σ') ∧
         TransactionalOutcomes.credits Scenario.game Scenario.bob 0
           = [(Scenario.alice, TransactionalOutcomes.payAmount 100);
              (Scenario.bob, TransactionalOutcomes.payAmount 100)] ∧
         balances σ' Scenario.alice = Js.add 1000 (TransactionalOutcomes.payAmount 100) ∧
         balances σ' Scenario.bob
           = Js.add (Js.add 1000 (- TransactionalOutcomes.payAmount 100))
                    (TransactionalOutcomes.payAmount 100)) ∧
  (∃ σ', NonTransactional.join Scenario.heap
           {| NonTransactional.gameId := 0%nat; NonTransactional.move := 0%nat |}
           Scenario.bob 7%nat Scenario.nt_opened = (Ok tt, σ') ∧
         NonTransactionalOutcomes.credits Scenario.heap Scenario.nt_game Scenario.bob 0
           = [(Scenario.alice, 100); (Scenario.bob, 100)] ∧
         balances σ' Scenario.alice == 1000 + 100 ∧
         balances σ' Scenario.bob == 1000) ∧
  inject_Z 100 < TransactionalOutcomes.payAmount (inject_Z 100).
Proof.
  destruct variants_differ as (_ & Hwin & Hwin' & _ & Htie & Htie' & Hne & _).
  split; [|split; [|split; [|split]]].
  - apply (Hwin {| Transactional.gameId := 0%nat; Transactional.move := 2%nat |}
             Scenario.bob 7%nat Scenario.opened Scenario.game); concrete.
  - apply (Hwin' Scenario.heap
             {| NonTransactional.gameId := 0%nat; NonTransactional.move := 2%nat |}
             Scenario.bob 7%nat Scenario.nt_opened Scenario.nt_game); concrete.
  - apply (Htie {| Transactional.gameId := 0%nat; Transactional.move := 0%nat |}
             Scenario.bob 7%nat Scenario.opened Scenario.game); concrete.
  - apply (Htie' Scenario.heap
             {| NonTransactional.gameId := 0%nat; NonTransactional.move := 0%nat |}
             Scenario.bob 7%nat Scenario.nt_opened Scenario.nt_game); concrete.
  - apply (Hne 100%Z). concrete.
Defined.

(** C8, as the specification words it, fails where it says that the two
    services disagree on whether fees are retained on a tie: on the scenario
    (stake 100, both moves 0) each service ends the game with both parties
    holding their initial 1000, the transactional one having debited and
    refunded 104 and the other one 100; the fee retained is zero in both. *)
Lemma fees_on_ties_agree :
  Scenario.tie_run.1 = Ok tt ∧
  Scenario.nt_tie_run.1 = Ok tt ∧
  (balances Scenario.tie_run.2 Scenario.alice == 1000 ∧
   balances Scenario.tie_run.2 Scenario.bob == 1000) ∧
  (balances Scenario.nt_tie_run.2 Scenario.alice == 1000 ∧
   balances Scenario.nt_tie_run.2 Scenario.bob == 1000) ∧
  Scenario.fee_retained Scenario.ledger (balances Scenario.tie_run.2)
    Scenario.alice Scenario.bob == 0 ∧
  Scenario.fee_retained Scenario.ledger (balances Scenario.nt_tie_run.2)
    Scenario.alice Scenario.bob == 0 ∧
  ¬ (Scenario.fee_retained Scenario.ledger (balances Scenario.tie_run.2)
       Scenario.alice Scenario.bob == 0
     ↔ ¬ Scenario.fee_retained Scenario.ledger (balances Scenario.nt_tie_run.2)
           Scenario.alice Scenario.bob == 0).
Proof.
  assert (Scenario.fee_retained Scenario.ledger (balances Scenario.tie_run.2)
            Scenario.alice Scenario.bob == 0) as H1 by (by vm_compute).
  do 4 (split; [repeat split; by vm_compute|]).
  split; [done|]. split; [by vm_compute|].
  intros [H _]. by apply H.
Qed.

End VariantsProofs.

(** ** Deposit reconciliation *)

Module TasksProofs.
Import Tasks.

Section CheckDeposits.

Context {World : Type} (transactions : World → list Transaction)
        (confirmMany : list Transaction → World → World).

Lemma getUnconfirmed_spec (w : World) (t : Transaction) :
  t ∈ getUnconfirmed World transactions w ↔ t ∈ transactions w ∧ status t = pending.
Proof. unfold getUnconfirmed. by rewrite list_elem_of_filter, (comm and). Qed.

(** C9.  One pass of [checkDeposits] fetches the pending transactions (all of
    them, and only them, in the order of the collection), logs their count,
    and calls [confirmMany] exactly once, with that whole batch, when the
    batch is not empty; when it is empty the pass calls nothing and leaves the
    state as it was. *)
Theorem checkDeposits_spec (w : World) :
  let batch := getUnconfirmed World transactions w in
  let line := (Js.to_string (length batch) ++ " unconfirmed transactions")%string in
  batch = filter (λ t, status t = pending) (transactions w) ∧
  (∀ t, t ∈ batch ↔ t ∈ transactions w ∧ status t = pending) ∧
  (batch ≠ [] →
     checkDeposits World transactions confirmMany w
       = ([Log line; ConfirmMany batch], confirmMany batch w)) ∧
  (batch = [] →
     checkDeposits World transactions confirmMany w
       = ([Log "0 unconfirmed transactions"], w)) ∧
  filter (λ e, is_ConfirmMany e = true) (checkDeposits World transactions confirmMany w).1
    = (if decide (batch = []) then [] else [ConfirmMany batch]).
Proof.
  cbv zeta. split; [done|]. split; [apply getUnconfirmed_spec|].
  unfold checkDeposits.
  destruct (getUnconfirmed World transactions w) as [|t batch] eqn:Hb; cbn [length Nat.ltb Nat.leb].
  - split; [done|]. split; [done|]. by rewrite decide_True.
  - split; [done|]. split; [done|]. by rewrite decide_False.
Qed.

End CheckDeposits.

Lemma checkDeposits_spec_witness :
  checkDeposits (list Transaction) id Scenario.mark Scenario.collection
    = ([Log "2 unconfirmed transactions";
        ConfirmMany [MkTransaction 1%nat "s1" deposit pending;
                     MkTransaction 1%nat "s3" withdraw pending]],
       Scenario.mark [MkTransaction 1%nat "s1" deposit pending;
                      MkTransaction 1%nat "s3" withdraw pending]
                     Scenario.collection) ∧
  checkDeposits (list Transaction) id Scenario.mark [MkTransaction 2%nat "s2" deposit confirmed]
    = ([Log "0 unconfirmed transactions"], [MkTransaction 2%nat "s2" deposit confirmed]).
Proof.
  split.
  - exact (proj1 (proj2 (proj2 (checkDeposits_spec id Scenario.mark Scenario.collection)))
             ltac:(concrete)).
  - exact (proj1 (proj2 (proj2 (proj2
             (checkDeposits_spec id Scenario.mark
                [MkTransaction 2%nat "s2" deposit confirmed]))))
             eq_refl).
Defined.

End TasksProofs.

(** ** The queries *)

Module QueryProofs.

Section Query.

Context {G : Type}.

Implicit Types (σ : Store G) (docs : list (GameId * G)) (updatedAt : GameId → nat).

Lemma elem_of_find (P : G → Prop) `{!∀ game, Decision (P game)} σ (id : GameId) (game : G) :
  (id, game) ∈ Query.find P σ ↔ games σ !! id = Some game ∧ P game.
Proof.
  unfold Query.find. by rewrite elem_of_map_to_list, map_lookup_filter_Some.
Qed.

Lemma NoDup_find (P : G → Prop) `{!∀ game, Decision (P game)} σ : NoDup (Query.find P σ).
Proof. apply NoDup_map_to_list. Qed.

Lemma find_insert_not (P : G → Prop) `{!∀ game, Decision (P game)} σ σ'
    (id : GameId) (game' : G) :
  games σ' = <[id := game']> (games σ) →
  ¬ P game' →
  (∀ game, games σ !! id = Some game → ¬ P game) →
  Query.find P σ' = Query.find P σ.
Proof.
  intros Hg Hnew Hold. unfold Query.find. rewrite Hg. f_equal.
  by apply (map_filter_insert_not' (λ kv : GameId * G, P kv.2)).
Qed.

#[local] Instance updatedAt_desc_total updatedAt :
  Total (Query.updatedAt_desc (G := G) updatedAt).
Proof. intros a b. unfold Query.updatedAt_desc. lia. Qed.

#[local] Instance updatedAt_desc_trans updatedAt :
  Transitive (Query.updatedAt_desc (G := G) updatedAt).
Proof. intros a b c. unfold Query.updatedAt_desc. lia. Qed.

Lemma elem_of_sort updatedAt docs (doc : GameId * G) :
  doc ∈ Query.sort_updatedAt_desc updatedAt docs ↔ doc ∈ docs.
Proof. unfold Query.sort_updatedAt_desc. by rewrite merge_sort_Permutation. Qed.

Lemma sort_sorted updatedAt docs :
  StronglySorted (Query.updatedAt_desc updatedAt) (Query.sort_updatedAt_desc updatedAt docs).
Proof. apply StronglySorted_merge_sort; apply _. Qed.

Lemma NoDup_sort updatedAt docs :
  NoDup docs → NoDup (Query.sort_updatedAt_desc updatedAt docs).
Proof. unfold Query.sort_updatedAt_desc. by rewrite merge_sort_Permutation. Qed.

(** A page of the [n] most recently updated matches. *)
Lemma limit_sort_find (P : G → Prop) `{!∀ game, Decision (P game)} updatedAt (n : nat) σ :
  let listed := Query.limit n (Query.sort_updatedAt_desc updatedAt (Query.find P σ)) in
  (length listed ≤ n)%nat ∧
  NoDup listed ∧
  (∀ id game, (id, game) ∈ listed → games σ !! id = Some game ∧ P game) ∧
  StronglySorted (Query.updatedAt_desc updatedAt) listed ∧
  (∀ id game, games σ !! id = Some game → P game → (id, game) ∉ listed →
     length listed = n ∧
     ∀ id' game', (id', game') ∈ listed → (updatedAt id ≤ updatedAt id')%nat).
Proof.
  intros listed. unfold Query.limit in listed.
  set (sorted := Query.sort_updatedAt_desc updatedAt (Query.find P σ)) in *.
  assert (StronglySorted (Query.updatedAt_desc updatedAt) (listed ++ drop n sorted)) as Hs.
  { unfold listed. rewrite take_drop. apply sort_sorted. }
  split; [unfold listed; rewrite length_take; lia|].
  split.
  { eapply sublist_NoDup; [|apply sublist_take]. apply NoDup_sort, NoDup_find. }
  split.
  { intros id game Hin. apply (elem_of_find P).
    eapply elem_of_sort, subseteq_take, Hin. }
  split; [by apply StronglySorted_app_1_l in Hs|].
  intros id game Hg HP Hout.
  assert ((id, game) ∈ drop n sorted) as Hdrop.
  { assert ((id, game) ∈ listed ++ drop n sorted) as [?|?]%elem_of_app; [|done..].
    unfold listed. rewrite take_drop. by apply elem_of_sort, elem_of_find. }
  split.
  - unfold listed. rewrite length_take. apply Nat.min_l.
    destruct (decide (n ≤ length sorted)%nat) as [|Hlt]; [done|].
    rewrite drop_ge in Hdrop by lia. by apply elem_of_nil in Hdrop.
  - intros id' game' Hin.
    apply (StronglySorted_app_1_elem_of _ _ _ (id', game') (id, game) Hs Hin Hdrop).
Qed.

End Query.

(** Counting the matching documents of a collection, as
    [gameModel.count(filter)] does, before and after a document is written. *)
Section Count.

Context {G : Type} (P : GameId * G → Prop) `{!∀ kv, Decision (P kv)}.

Lemma size_filter_delete (m : gmap GameId G) (i : GameId) :
  size (filter P m) =
    (size (filter P (delete i m))
     + match m !! i with
       | Some y => if decide (P (i, y)) then 1 else 0
       | None => 0
       end)%nat.
Proof.
  destruct (m !! i) as [y|] eqn:Hi; [|by rewrite delete_id, Nat.add_0_r].
  rewrite <-(insert_delete_id m i y) at 1 by done.
  rewrite map_filter_insert. case_decide.
  - rewrite map_size_insert_None; [lia|].
    rewrite map_lookup_filter_None. left. apply lookup_delete_eq.
  - by rewrite delete_delete_eq, Nat.add_0_r.
Qed.

Lemma size_filter_insert (m : gmap GameId G) (i : GameId) (x : G) :
  size (filter P (<[i := x]> m)) =
    (size (filter P (delete i m)) + if decide (P (i, x)) then 1 else 0)%nat.
Proof.
  rewrite (size_filter_delete (<[i := x]> m) i).
  by rewrite delete_insert_eq, lookup_insert_eq.
Qed.

End Count.

End QueryProofs.

(** ** The queries of the transactional service *)

Module TransactionalQueriesProofs.
Import Transactional TransactionalOutcomes TransactionalQueries.

Lemma userActiveCount_insert (u : UserId) (σ σ' : Store Game) (id : GameId) (game' : Game) :
  games σ' = <[id := game']> (games σ) →
  (userActiveCount u σ'
   + match games σ !! id with
     | Some game => if decide (creator game = u ∧ status game = active) then 1 else 0
     | None => 0
     end
   = userActiveCount u σ
     + if decide (creator game' = u ∧ status game' = active) then 1 else 0)%nat.
Proof.
  intros Hg. unfold userActiveCount. rewrite Hg.
  rewrite (QueryProofs.size_filter_insert
             (λ kv : GameId * Game, creator kv.2 = u ∧ status kv.2 = active)).
  rewrite (QueryProofs.size_filter_delete
             (λ kv : GameId * Game, creator kv.2 = u ∧ status kv.2 = active) (games σ) id).
  cbn [snd]. lia.
Qed.

Lemma userActiveCount_games (u : UserId) (σ σ' : Store Game) :
  games σ' = games σ → userActiveCount u σ' = userActiveCount u σ.
Proof. unfold userActiveCount. by intros ->. Qed.

Lemma getActive_insert (σ σ' : Store Game) (id : GameId) (game' : Game)
    (doc : GameId * Game) :
  games σ' = <[id := game']> (games σ) →
  doc ∈ getActive σ' ↔
    (doc = (id, game') ∧ status game' = active) ∨ (doc ∈ getActive σ ∧ doc.1 ≠ id).
Proof.
  intros Hg. destruct doc as [i g]. unfold getActive.
  rewrite !(QueryProofs.elem_of_find (λ game, status game = active)), Hg.
  rewrite lookup_insert_Some. cbn [fst].
  split.
  - intros [[[<- <-]|[? ?]] ?]; [by left|right; eauto].
  - intros [[[= -> ->] ?]|[[? ?] ?]]; [split; [by left|done]|split; [right|]; eauto].
Qed.

Lemma create_counts (user : UserId) (dto : CreateGameDto) (σ σ' : Store Game) :
  create user dto σ = (Ok tt, σ') →
  σ' = created user dto σ ∧
  (userActiveCount user σ < 5)%nat ∧
  ∀ u, userActiveCount u σ' =
       (userActiveCount u σ + if decide (user = u) then 1 else 0)%nat.
Proof.
  intros Hc.
  destruct (TransactionalProofs.create_success_inv user dto σ σ' Hc) as (_ & Hcount & ->).
  do 2 (split; [done|]). intros u.
  assert (games (created user dto σ)
          = <[fresh (dom (games σ)) := newGame user dto]> (games σ)) as Hg by done.
  pose proof (userActiveCount_insert u _ _ _ _ Hg) as Hu.
  rewrite TransactionalProofs.fresh_game_id in Hu. cbn [newGame creator status] in Hu.
  destruct (decide (user = u)) as [Hu'|Hu'].
  - rewrite decide_True in Hu by done. lia.
  - rewrite decide_False in Hu by (by intros [? _]). lia.
Qed.

Lemma join_counts (dto : JoinGameDto) (user : UserId) (now : nat) (σ σ' : Store Game) :
  join dto user now σ = (Ok tt, σ') →
  ∃ game, games σ !! gameId dto = Some game ∧ status game = active ∧
          σ' = settled dto user now game σ ∧
          ∀ u, (userActiveCount u σ' + if decide (creator game = u) then 1 else 0)%nat
               = userActiveCount u σ.
Proof.
  intros Hj.
  destruct (TransactionalProofs.join_cases dto user now σ)
    as [(e & σ'' & Hj' & _)|(game & Hg & Hs & Hne & Hb & Hj')];
    rewrite Hj' in Hj; simplify_eq.
  exists game. do 3 (split; [done|]). intros u.
  assert (games (settled dto user now game σ)
          = <[gameId dto := settled_game game user (move dto) now]> (games σ)) as Hgs by done.
  pose proof (userActiveCount_insert u _ _ _ _ Hgs) as Hn.
  rewrite Hg, TransactionalProofs.settled_game_status, Hs in Hn.
  rewrite (decide_False (P := _ ∧ ended = active)) in Hn by (by intros [_ ?]).
  destruct (decide (creator game = u)) as [Hu|Hu].
  - rewrite decide_True in Hn by done. lia.
  - rewrite decide_False in Hn by (by intros [? _]). lia.
Qed.

Lemma cancel_counts (id : GameId) (user : UserId) (σ σ' : Store Game) :
  cancel id user σ = (Ok tt, σ') →
  ∃ game, games σ !! id = Some game ∧ status game = active ∧ user = creator game ∧
          σ' = refunded id user game σ ∧
          ∀ u, (userActiveCount u σ' + if decide (user = u) then 1 else 0)%nat
               = userActiveCount u σ.
Proof.
  intros Hc.
  destruct (TransactionalProofs.cancel_cases id user σ)
    as [(e & Hc')|(game & Hg & Hu & Hs & Hc')];
    rewrite Hc' in Hc; simplify_eq.
  exists game. do 4 (split; [done|]). intros u.
  assert (games (refunded id (creator game) game σ)
          = <[id := set_status game cancelled]> (games σ)) as Hgs by done.
  pose proof (userActiveCount_insert u _ _ _ _ Hgs) as Hn.
  rewrite Hg, Hs in Hn. cbn [set_status creator status] in Hn.
  rewrite (decide_False (P := _ ∧ cancelled = active)) in Hn by (by intros [_ ?]).
  destruct (decide (creator game = u)) as [Hu|Hu].
  - rewrite decide_True in Hn by done. lia.
  - rewrite decide_False in Hn by (by intros [? _]). lia.
Qed.

(** What a call does to the number of active games of a user: it leaves it
    or lowers it, or it is a [create] that passed the check and adds one. *)
Lemma exec_userActiveCount (c : Call) (u : UserId) (σ : Store Game) :
  (userActiveCount u (exec c σ).2 ≤ userActiveCount u σ)%nat ∨
  ((userActiveCount u σ < 5)%nat ∧
   userActiveCount u (exec c σ).2 = S (userActiveCount u σ)).
Proof.
  destruct c as [user dto|dto user now|id user]; cbn [exec].
  - destruct (create user dto σ) as [[[]|e] σ'] eqn:Hc.
    + destruct (create_counts user dto σ σ' Hc) as (_ & Hlt & Hn).
      cbn [snd]. rewrite Hn. destruct (decide (user = u)) as [->|Hu]; [right|left]; lia.
    + left. destruct (TransactionalProofs.create_cases user dto σ) as [[e' Hc']|Hc'];
        rewrite Hc' in Hc; simplify_eq. done.
  - left. destruct (join dto user now σ) as [[[]|e] σ'] eqn:Hj.
    + destruct (join_counts dto user now σ σ' Hj) as (game & _ & _ & _ & Hn).
      cbn [snd]. specialize (Hn u). lia.
    + destruct (TransactionalProofs.join_cases dto user now σ)
        as [(e' & σ'' & Hj' & _ & Hgs)|(game & _ & _ & _ & _ & Hj')];
        rewrite Hj' in Hj; simplify_eq.
      cbn [snd]. by rewrite (userActiveCount_games u σ σ').
  - left. destruct (cancel id user σ) as [[[]|e] σ'] eqn:Hc.
    + destruct (cancel_counts id user σ σ' Hc) as (game & _ & _ & _ & _ & Hn).
      cbn [snd]. specialize (Hn u). lia.
    + destruct (TransactionalProofs.cancel_cases id user σ)
        as [(e' & Hc')|(game & _ & _ & _ & Hc')];
        rewrite Hc' in Hc; simplify_eq. done.
Qed.

(** X1.  After a successful [create] the new game is listed as active under an id
    that was free, beside the games that were listed before; the creator has
    one more active game and is still within the limit of five; the listings
    of ended games are what they were. *)
Theorem create_listed (updatedAt : GameId → nat) (user : UserId) (dto : CreateGameDto)
    (σ σ' : Store Game) :
  create user dto σ = (Ok tt, σ') →
  let id := fresh (dom (games σ)) in
  findById id σ = None ∧
  findById id σ' = Some (newGame user dto) ∧
  (∀ doc, doc ∈ getActive σ' ↔ doc = (id, newGame user dto) ∨ doc ∈ getActive σ) ∧
  userActiveCount user σ' = S (userActiveCount user σ) ∧
  (userActiveCount user σ' ≤ 5)%nat ∧
  (∀ u, u ≠ user → userActiveCount u σ' = userActiveCount u σ) ∧
  getLastEnded updatedAt σ' = getLastEnded updatedAt σ ∧
  (∀ u, findByUserId updatedAt u σ' = findByUserId updatedAt u σ).
Proof.
  intros Hc id.
  destruct (create_counts user dto σ σ' Hc) as (-> & Hcount & Hn).
  assert (games (created user dto σ) = <[id := newGame user dto]> (games σ)) as Hg by done.
  assert (games σ !! id = None) as Hfresh by apply TransactionalProofs.fresh_game_id.
  split; [done|]. split; [unfold findById; rewrite Hg; apply lookup_insert_eq|].
  split.
  { intros doc. rewrite (getActive_insert _ _ _ _ doc Hg). split.
    - intros [[-> _]|[Hin _]]; [by left|by right].
    - intros [->|Hin]; [by left|]. right. split; [done|].
      destruct doc as [i g].
      apply (QueryProofs.elem_of_find (λ game, status game = active)) in Hin as [Hin _].
      cbn. intros ->. congruence. }
  split; [rewrite Hn, decide_True by done; lia|].
  split; [rewrite Hn, decide_True by done; lia|].
  split; [intros u Hu; rewrite Hn, decide_False by done; lia|].
  split.
  - unfold getLastEnded. f_equal. f_equal.
    apply (QueryProofs.find_insert_not _ _ _ _ _ Hg); [done|]. intros g. by rewrite Hfresh.
  - intros u. unfold findByUserId. f_equal.
    apply (QueryProofs.find_insert_not _ _ _ _ _ Hg); [by intros [_ ?]|].
    intros g. by rewrite Hfresh.
Qed.

Lemma create_listed_witness :
  findById 0%nat (create Scenario.alice Scenario.stake Scenario.empty).2
    = Some (newGame Scenario.alice Scenario.stake) ∧
  userActiveCount Scenario.alice (create Scenario.alice Scenario.stake Scenario.empty).2
    = 1%nat ∧
  (0%nat, newGame Scenario.alice Scenario.stake)
    ∈ getActive (create Scenario.alice Scenario.stake Scenario.empty).2.
Proof.
  pose proof (create_listed (λ _, 0%nat) Scenario.alice Scenario.stake Scenario.empty
                (create Scenario.alice Scenario.stake Scenario.empty).2) as Hw.
  cbv zeta in Hw. destruct Hw as (_ & Hnew & Hact & Hcount & _); [concrete|].
  split; [exact Hnew|]. split; [exact Hcount|]. apply Hact. by left.
Defined.

Lemma settled_game_parties (game : Game) (user : UserId) (move now : nat) :
  creator (settled_game game user move now) = creator game ∧
  opponent (settled_game game user move now) = Some user.
Proof. unfold settled_game. by destruct (selected _ _ _ _). Qed.

Lemma elem_of_findByUserId (updatedAt : GameId → nat) (u : UserId) (σ : Store Game)
    (id : GameId) (game : Game) :
  (id, game) ∈ findByUserId updatedAt u σ ↔
    games σ !! id = Some game ∧
    (creator game = u ∨ opponent game = Some u) ∧ status game = ended.
Proof.
  unfold findByUserId. rewrite QueryProofs.elem_of_sort.
  apply (QueryProofs.elem_of_find
           (λ game, (creator game = u ∨ opponent game = Some u) ∧ status game = ended)).
Qed.

(** X2.  After a successful [join] the game, which was listed as active, is no
    longer; it is stored as ended with the joiner as opponent and is part of
    the history of both players, also when the history is asked for by public
    key; the creator has one active game less. *)
Theorem join_listed (updatedAt : GameId → nat) (findByPublicKey : string → option UserId)
    (dto : JoinGameDto) (user : UserId) (now : nat) (σ σ' : Store Game) :
  join dto user now σ = (Ok tt, σ') →
  ∃ game game',
    findById (gameId dto) σ = Some game ∧
    (gameId dto, game) ∈ getActive σ ∧
    findById (gameId dto) σ' = Some game' ∧
    status game' = ended ∧ creator game' = creator game ∧ opponent game' = Some user ∧
    (∀ doc, doc ∈ getActive σ' ↔ doc ∈ getActive σ ∧ doc.1 ≠ gameId dto) ∧
    (gameId dto, game') ∈ findByUserId updatedAt user σ' ∧
    (gameId dto, game') ∈ findByUserId updatedAt (creator game) σ' ∧
    (∀ publicKey, findByPublicKey publicKey = Some user →
       ∃ listed, findByUserPublicKey updatedAt findByPublicKey publicKey σ' = Some listed ∧
                 (gameId dto, game') ∈ listed) ∧
    S (userActiveCount (creator game) σ') = userActiveCount (creator game) σ ∧
    (∀ u, u ≠ creator game → userActiveCount u σ' = userActiveCount u σ).
Proof.
  intros Hj.
  destruct (join_counts dto user now σ σ' Hj) as (game & Hg & Hs & -> & Hn).
  set (game' := settled_game game user (move dto) now).
  assert (games (settled dto user now game σ) = <[gameId dto := game']> (games σ))
    as Hgs by done.
  assert (status game' = ended) as Hs' by apply TransactionalProofs.settled_game_status.
  destruct (settled_game_parties game user (move dto) now) as [Hc Ho]. fold game' in Hc, Ho.
  assert ((gameId dto, game') ∈ findByUserId updatedAt user (settled dto user now game σ))
    as Hhist.
  { apply elem_of_findByUserId. rewrite Hgs, lookup_insert_eq. eauto. }
  exists game, game'.
  split; [done|].
  split; [by apply (QueryProofs.elem_of_find (λ game, status game = active))|].
  split; [unfold findById; rewrite Hgs; apply lookup_insert_eq|].
  do 3 (split; [done|]).
  split.
  { intros doc. rewrite (getActive_insert _ _ _ _ doc Hgs). split.
    - intros [[_ ?]|?]; [congruence|done].
    - by right. }
  split; [done|].
  split; [apply elem_of_findByUserId; rewrite Hgs, lookup_insert_eq; eauto|].
  split.
  { intros publicKey Hk. unfold findByUserPublicKey. rewrite Hk. eauto. }
  split.
  - specialize (Hn (creator game)). rewrite decide_True in Hn by done. lia.
  - intros u Hu. specialize (Hn u). rewrite decide_False in Hn by done. lia.
Qed.

Lemma join_listed_witness :
  ∃ game',
    findById 0%nat
      (join {| gameId := 0%nat; move := 1%nat |} Scenario.bob 7%nat Scenario.opened).2
      = Some game' ∧
    status game' = ended ∧
    (0%nat, game')
      ∈ findByUserId (λ _, 0%nat) Scenario.alice
          (join {| gameId := 0%nat; move := 1%nat |} Scenario.bob 7%nat Scenario.opened).2 ∧
    (0%nat, game')
      ∈ findByUserId (λ _, 0%nat) Scenario.bob
          (join {| gameId := 0%nat; move := 1%nat |} Scenario.bob 7%nat Scenario.opened).2.
Proof.
  destruct (join_listed (λ _, 0%nat) (λ _, None)
              {| gameId := 0%nat; move := 1%nat |} Scenario.bob 7%nat Scenario.opened
              (join {| gameId := 0%nat; move := 1%nat |} Scenario.bob 7%nat Scenario.opened).2)
    as (game & game' & Hg & _ & Hg' & Hs & _ & _ & _ & Hbob & Halice & _); [concrete|].
  exists game'. split; [exact Hg'|]. split; [exact Hs|]. split; [|exact Hbob].
  assert (creator game = Scenario.alice) as <-; [|exact Halice].
  unfold findById in Hg. injection Hg as <-. reflexivity.
Defined.

(** X3.  After a successful [cancel] the game, which was listed as active, is no
    longer, and it is listed nowhere else: the page of the last ended games
    and every user's history are what they were; the creator has one active
    game less. *)
Theorem cancel_listed (updatedAt : GameId → nat) (id : GameId) (user : UserId)
    (σ σ' : Store Game) :
  cancel id user σ = (Ok tt, σ') →
  ∃ game,
    findById id σ = Some game ∧
    (id, game) ∈ getActive σ ∧
    creator game = user ∧
    findById id σ' = Some (set_status game cancelled) ∧
    (∀ doc, doc ∈ getActive σ' ↔ doc ∈ getActive σ ∧ doc.1 ≠ id) ∧
    getLastEnded updatedAt σ' = getLastEnded updatedAt σ ∧
    (∀ u, findByUserId updatedAt u σ' = findByUserId updatedAt u σ) ∧
    (∀ game', (id, game') ∉ getLastEnded updatedAt σ') ∧
    (∀ u game', (id, game') ∉ findByUserId updatedAt u σ') ∧
    S (userActiveCount user σ') = userActiveCount user σ ∧
    (∀ u, u ≠ user → userActiveCount u σ' = userActiveCount u σ).
Proof.
  intros Hc.
  destruct (cancel_counts id user σ σ' Hc) as (game & Hg & Hs & -> & -> & Hn).
  set (game' := set_status game cancelled).
  assert (games (refunded id (creator game) game σ) = <[id := game']> (games σ))
    as Hgs by done.
  assert (∀ P : Game → Prop, ∀ HP : ∀ g, Decision (P g),
            (∀ g, P g → status g = ended) →
            Query.find P (refunded id (creator game) game σ) = Query.find P σ) as Hsame.
  { intros P HP Hended. apply (QueryProofs.find_insert_not _ _ _ _ _ Hgs).
    - intros HP'. by apply Hended in HP'.
    - intros g Hg' HP'. apply Hended in HP'. congruence. }
  assert (getLastEnded updatedAt (refunded id (creator game) game σ) = getLastEnded updatedAt σ)
    as Hlast.
  { unfold getLastEnded. by rewrite Hsame. }
  assert (∀ u, findByUserId updatedAt u (refunded id (creator game) game σ)
               = findByUserId updatedAt u σ) as Hhist.
  { intros u. unfold findByUserId. rewrite Hsame; [done|]. by intros g [_ ?]. }
  exists game.
  split; [done|].
  split; [by apply (QueryProofs.elem_of_find (λ game, status game = active))|].
  split; [done|].
  split; [unfold findById; rewrite Hgs; apply lookup_insert_eq|].
  split.
  { intros doc. rewrite (getActive_insert _ _ _ _ doc Hgs). split.
    - intros [[_ ?]|?]; [done|done].
    - by right. }
  do 2 (split; [done|]).
  split.
  { intros g Hin. rewrite Hlast in Hin.
    apply (QueryProofs.limit_sort_find (λ game, status game = ended)) in Hin as [Hin Hs'].
    congruence. }
  split.
  { intros u g Hin. rewrite Hhist in Hin.
    apply elem_of_findByUserId in Hin as (Hin & _ & Hs'). congruence. }
  split.
  - specialize (Hn (creator game)). rewrite decide_True in Hn by done. lia.
  - intros u Hu. specialize (Hn u). rewrite decide_False in Hn by done. lia.
Qed.

Lemma cancel_listed_witness :
  findById 0%nat (cancel 0%nat Scenario.alice Scenario.opened).2
    = Some (set_status Scenario.game cancelled) ∧
  getActive (cancel 0%nat Scenario.alice Scenario.opened).2 = [] ∧
  userActiveCount Scenario.alice (cancel 0%nat Scenario.alice Scenario.opened).2 = 0%nat.
Proof.
  destruct (cancel_listed (λ _, 0%nat) 0%nat Scenario.alice Scenario.opened
              (cancel 0%nat Scenario.alice Scenario.opened).2)
    as (game & Hg & _ & _ & Hg' & _ & _ & _ & _ & _ & Hcount & _); [concrete|].
  unfold findById in Hg. injection Hg as <-.
  split; [exact Hg'|]. split; [reflexivity|].
  apply Nat.succ_inj. exact Hcount.
Defined.

(** X4.  Admission control.  Over any sequence of [create], [join] and [cancel]
    calls, whatever their arguments and outcomes, no user ever has more active
    games than five, or than it had at the start if that was more. *)
Theorem active_games_capped (σ σ' : Store Game) (u : UserId) :
  rtc step σ σ' →
  (userActiveCount u σ' ≤ Nat.max 5 (userActiveCount u σ))%nat.
Proof.
  induction 1 as [σ|σ σ1 σ' [c <-] _ IH]; [lia|].
  destruct (exec_userActiveCount c u σ) as [Hle|[Hlt Heq]]; lia.
Qed.

Lemma active_games_capped_witness :
  (userActiveCount Scenario.alice
     (create Scenario.alice Scenario.stake Scenario.crowded).2 ≤ 5)%nat.
Proof.
  apply (active_games_capped Scenario.crowded
           (create Scenario.alice Scenario.stake Scenario.crowded).2 Scenario.alice).
  eapply rtc_l; [|apply rtc_refl]. by exists (Create Scenario.alice Scenario.stake).
Defined.

End TransactionalQueriesProofs.

(** ** The queries of the non-transactional service *)

Module NonTransactionalQueriesProofs.
Import NonTransactional NonTransactionalOutcomes NonTransactionalQueries.

Lemma nt_userActiveCount_insert (u : UserId) (σ σ' : Store Game) (id : GameId)
    (game' : Game) :
  games σ' = <[id := game']> (games σ) →
  (userActiveCount u σ'
   + match games σ !! id with
     | Some game => if decide (creator game = u ∧ status game = active) then 1 else 0
     | None => 0
     end
   = userActiveCount u σ
     + if decide (creator game' = u ∧ status game' = active) then 1 else 0)%nat.
Proof.
  intros Hg. unfold userActiveCount. rewrite Hg.
  rewrite (QueryProofs.size_filter_insert
             (λ kv : GameId * Game, creator kv.2 = u ∧ status kv.2 = active)).
  rewrite (QueryProofs.size_filter_delete
             (λ kv : GameId * Game, creator kv.2 = u ∧ status kv.2 = active) (games σ) id).
  cbn [snd]. lia.
Qed.

Lemma nt_getActive_insert (σ σ' : Store Game) (id : GameId) (game' : Game)
    (doc : GameId * Game) :
  games σ' = <[id := game']> (games σ) →
  doc ∈ getActive σ' ↔
    (doc = (id, game') ∧ status game' = active) ∨ (doc ∈ getActive σ ∧ doc.1 ≠ id).
Proof.
  intros Hg. destruct doc as [i g]. unfold getActive.
  rewrite !(QueryProofs.elem_of_find (λ game, status game = active)), Hg.
  rewrite lookup_insert_Some. cbn [fst].
  split.
  - intros [[[<- <-]|[? ?]] ?]; [by left|right; eauto].
  - intros [[[= -> ->] ?]|[[? ?] ?]]; [split; [by left|done]|split; [right|]; eauto].
Qed.

Lemma nt_elem_of_findByUserId (updatedAt : GameId → nat) (u : UserId) (σ : Store Game)
    (id : GameId) (game : Game) :
  (id, game) ∈ findByUserId updatedAt u σ ↔
    games σ !! id = Some game ∧
    (creator game = u ∨ opponent game = Some u) ∧ status game = ended.
Proof.
  unfold findByUserId. rewrite QueryProofs.elem_of_sort.
  apply (QueryProofs.elem_of_find
           (λ game, (creator game = u ∨ opponent game = Some u) ∧ status game = ended)).
Qed.

Lemma nt_settled_game_parties (h : Js.heap) (game : Game) (user : UserId) (move now : nat) :
  creator (settled_game h game user move now) = creator game ∧
  opponent (settled_game h game user move now) = Some user.
Proof. unfold settled_game. by destruct (selected _ _ _ _ _). Qed.

Lemma nt_create_counts (schema_fee : Q) (user : UserId) (dto : CreateGameDto)
    (σ σ' : Store Game) :
  create schema_fee user dto σ = (Ok tt, σ') →
  games σ' = <[fresh (dom (games σ)) := newGame schema_fee user dto]> (games σ) ∧
  (userActiveCount user σ < 5)%nat ∧
  ∀ u, userActiveCount u σ' =
       (userActiveCount u σ + if decide (user = u) then 1 else 0)%nat.
Proof.
  intros Hc.
  assert (userActiveCount user σ < 5)%nat as Hcount.
  { destruct (decide (userActiveCount user σ < 5)%nat) as [|Hge]; [done|].
    destruct (Qlt_le_dec (balances σ user) (dto_amount dto)) as [Hlt|Hle].
    - rewrite NonTransactionalProofs.nt_create_insufficient in Hc by done. discriminate.
    - rewrite NonTransactionalProofs.nt_create_limit in Hc by (done || lia). discriminate. }
  destruct (NonTransactionalProofs.nt_create_cases schema_fee user dto σ)
    as [[e Hc']|(σ'' & Hc' & _ & Hg)]; rewrite Hc' in Hc; simplify_eq.
  do 2 (split; [done|]). intros u.
  pose proof (nt_userActiveCount_insert u _ _ _ _ Hg) as Hu.
  rewrite NonTransactionalProofs.nt_fresh_game_id in Hu. cbn [newGame creator status] in Hu.
  destruct (decide (user = u)) as [Hu'|Hu'].
  - rewrite decide_True in Hu by done. lia.
  - rewrite decide_False in Hu by (by intros [? _]). lia.
Qed.

Lemma nt_join_counts (h : Js.heap) (dto : JoinGameDto) (user : UserId) (now : nat)
    (σ σ' : Store Game) :
  join h dto user now σ = (Ok tt, σ') →
  ∃ game, games σ !! gameId dto = Some game ∧ status game = active ∧
          amount game <= balances σ user ∧
          games σ' = <[gameId dto := settled_game h game user (move dto) now]> (games σ) ∧
          ∀ u, (userActiveCount u σ' + if decide (creator game = u) then 1 else 0)%nat
               = userActiveCount u σ.
Proof.
  intros Hj.
  destruct (NonTransactionalProofs.nt_join_cases h dto user now σ)
    as [[e Hj']|(game & σ'' & Hg & Hs & Hne & Hb & Hj' & Hgs)];
    rewrite Hj' in Hj; simplify_eq.
  exists game. do 4 (split; [done|]). intros u.
  pose proof (nt_userActiveCount_insert u _ _ _ _ Hgs) as Hn.
  rewrite Hg, NonTransactionalProofs.nt_settled_game_status, Hs in Hn.
  rewrite (decide_False (P := _ ∧ ended = active)) in Hn by (by intros [_ ?]).
  destruct (decide (creator game = u)) as [Hu|Hu].
  - rewrite decide_True in Hn by done. lia.
  - rewrite decide_False in Hn by (by intros [? _]). lia.
Qed.

Lemma nt_cancelled_counts (id : GameId) (σ σ' : Store Game) (game : Game) :
  games σ !! id = Some game → status game = active →
  games σ' = <[id := set_status game cancelled]> (games σ) →
  ∀ u, (userActiveCount u σ' + if decide (creator game = u) then 1 else 0)%nat
       = userActiveCount u σ.
Proof.
  intros Hg Hs Hgs u.
  pose proof (nt_userActiveCount_insert u _ _ _ _ Hgs) as Hn.
  rewrite Hg, Hs in Hn. cbn [set_status creator status] in Hn.
  rewrite (decide_False (P := _ ∧ cancelled = active)) in Hn by (by intros [_ ?]).
  destruct (decide (creator game = u)) as [Hu|Hu].
  - rewrite decide_True in Hn by done. lia.
  - rewrite decide_False in Hn by (by intros [? _]). lia.
Qed.

Lemma nt_cancel_counts (id : GameId) (user : UserId) (σ σ' : Store Game) :
  cancel id user σ = (Ok tt, σ') →
  ∃ game, games σ !! id = Some game ∧ status game = active ∧ user = creator game ∧
          games σ' = <[id := set_status game cancelled]> (games σ) ∧
          ∀ u, (userActiveCount u σ' + if decide (user = u) then 1 else 0)%nat
               = userActiveCount u σ.
Proof.
  intros Hc.
  destruct (NonTransactionalProofs.nt_cancel_cases id user σ)
    as [(e & Hc')|(game & Hg & Hu & Hs & Hgs)].
  { rewrite Hc' in Hc. discriminate. }
  rewrite Hc in Hgs. cbn [snd] in Hgs. subst user.
  exists game. do 4 (split; [done|]). by apply (nt_cancelled_counts id).
Qed.

Lemma nt_exec_userActiveCount (schema_fee : Q) (c : Call) (u : UserId) (σ : Store Game) :
  (userActiveCount u (exec schema_fee c σ).2 ≤ userActiveCount u σ)%nat ∨
  ((userActiveCount u σ < 5)%nat ∧
   userActiveCount u (exec schema_fee c σ).2 = S (userActiveCount u σ)).
Proof.
  destruct c as [user dto|h dto user now|id user]; cbn [exec].
  - destruct (create schema_fee user dto σ) as [[[]|e] σ'] eqn:Hc.
    + destruct (nt_create_counts schema_fee user dto σ σ' Hc) as (_ & Hlt & Hn).
      cbn [snd]. rewrite Hn. destruct (decide (user = u)) as [->|Hu]; [right|left]; lia.
    + left. destruct (NonTransactionalProofs.nt_create_cases schema_fee user dto σ)
        as [[e' Hc']|(σ'' & Hc' & _)]; rewrite Hc' in Hc; simplify_eq. done.
  - left. destruct (join h dto user now σ) as [[[]|e] σ'] eqn:Hj.
    + destruct (nt_join_counts h dto user now σ σ' Hj) as (game & _ & _ & _ & _ & Hn).
      cbn [snd]. specialize (Hn u). lia.
    + destruct (NonTransactionalProofs.nt_join_cases h dto user now σ)
        as [[e' Hj']|(game & σ'' & _ & _ & _ & _ & Hj' & _)];
        rewrite Hj' in Hj; simplify_eq. done.
  - left. destruct (NonTransactionalProofs.nt_cancel_cases id user σ)
      as [(e' & ->)|(game & Hg & Hu & Hs & Hgs)]; [done|].
    pose proof (nt_cancelled_counts id _ _ game Hg Hs Hgs u). lia.
Qed.

(** X5.  After a successful [create] of the non-transactional service the new
    game is listed as active under an id that was free, beside the games that
    were listed before; the creator has one more active game and is still
    within the limit of five; the listings of ended games are what they
    were. *)
Theorem nt_create_listed (updatedAt : GameId → nat) (schema_fee : Q) (user : UserId)
    (dto : CreateGameDto) (σ σ' : Store Game) :
  create schema_fee user dto σ = (Ok tt, σ') →
  let id := fresh (dom (games σ)) in
  findById id σ = None ∧
  findById id σ' = Some (newGame schema_fee user dto) ∧
  (∀ doc, doc ∈ getActive σ' ↔ doc = (id, newGame schema_fee user dto) ∨ doc ∈ getActive σ) ∧
  userActiveCount user σ' = S (userActiveCount user σ) ∧
  (userActiveCount user σ' ≤ 5)%nat ∧
  (∀ u, u ≠ user → userActiveCount u σ' = userActiveCount u σ) ∧
  getLastEnded updatedAt σ' = getLastEnded updatedAt σ ∧
  (∀ u, findByUserId updatedAt u σ' = findByUserId updatedAt u σ).
Proof.
  intros Hc id. subst id.
  destruct (nt_create_counts schema_fee user dto σ σ' Hc) as (Hg & Hcount & Hn).
  pose proof (NonTransactionalProofs.nt_fresh_game_id σ) as Hfresh.
  split; [done|]. split; [unfold findById; rewrite Hg; apply lookup_insert_eq|].
  split.
  { intros doc. rewrite (nt_getActive_insert _ _ _ _ doc Hg). split.
    - intros [[-> _]|[Hin _]]; [by left|by right].
    - intros [->|Hin]; [by left|]. right. split; [done|].
      destruct doc as [i g].
      apply (QueryProofs.elem_of_find (λ game, status game = active)) in Hin as [Hin _].
      cbn. intros ->. congruence. }
  split; [rewrite Hn, decide_True by done; lia|].
  split; [rewrite Hn, decide_True by done; lia|].
  split; [intros u Hu; rewrite Hn, decide_False by done; lia|].
  split.
  - unfold getLastEnded. f_equal. f_equal.
    apply (QueryProofs.find_insert_not _ _ _ _ _ Hg); [done|]. intros g. by rewrite Hfresh.
  - intros u. unfold findByUserId. f_equal.
    apply (QueryProofs.find_insert_not _ _ _ _ _ Hg); [by intros [_ ?]|].
    intros g. by rewrite Hfresh.
Qed.

Lemma nt_create_listed_witness :
  findById 0%nat (create 4 Scenario.alice Scenario.nt_stake Scenario.nt_empty).2
    = Some (newGame 4 Scenario.alice Scenario.nt_stake) ∧
  userActiveCount Scenario.alice
    (create 4 Scenario.alice Scenario.nt_stake Scenario.nt_empty).2 = 1%nat ∧
  (0%nat, newGame 4 Scenario.alice Scenario.nt_stake)
    ∈ getActive (create 4 Scenario.alice Scenario.nt_stake Scenario.nt_empty).2.
Proof.
  pose proof (nt_create_listed (λ _, 0%nat) 4 Scenario.alice Scenario.nt_stake
                Scenario.nt_empty
                (create 4 Scenario.alice Scenario.nt_stake Scenario.nt_empty).2) as Hw.
  cbv zeta in Hw. destruct Hw as (_ & Hnew & Hact & Hcount & _); [concrete|].
  split; [exact Hnew|]. split; [exact Hcount|]. apply Hact. by left.
Defined.

(** X6.  After a successful [join] of the non-transactional service the game,
    which was listed as active, is no longer; it is stored as ended with the
    joiner as opponent and is part of the history of both players; the creator
    has one active game less.  In between, when the awaited part of the call
    is over and the game has the status ['joined'], no listing shows it:
    neither the active games, nor the last ended games, nor any history. *)
Theorem nt_join_listed (updatedAt : GameId → nat) (findByPublicKey : string → option UserId)
    (h : Js.heap) (dto : JoinGameDto) (user : UserId) (now : nat) (σ σ' : Store Game) :
  join h dto user now σ = (Ok tt, σ') →
  ∃ game game',
    findById (gameId dto) σ = Some game ∧
    (gameId dto, game) ∈ getActive σ ∧
    findById (gameId dto) σ' = Some game' ∧
    status game' = ended ∧ creator game' = creator game ∧ opponent game' = Some user ∧
    (∀ doc, doc ∈ getActive σ' ↔ doc ∈ getActive σ ∧ doc.1 ≠ gameId dto) ∧
    (gameId dto, game') ∈ findByUserId updatedAt user σ' ∧
    (gameId dto, game') ∈ findByUserId updatedAt (creator game) σ' ∧
    (∀ publicKey, findByPublicKey publicKey = Some user →
       ∃ listed, findByUserPublicKey updatedAt findByPublicKey publicKey σ' = Some listed ∧
                 (gameId dto, game') ∈ listed) ∧
    S (userActiveCount (creator game) σ') = userActiveCount (creator game) σ ∧
    (∀ u, u ≠ creator game → userActiveCount u σ' = userActiveCount u σ) ∧
    (∃ σj, joining dto user game σ = (Ok (set_joined game user (move dto)), σj) ∧
           findById (gameId dto) σj = Some (set_joined game user (move dto)) ∧
           ∀ g, ((gameId dto, g) ∉ getActive σj) ∧
                ((gameId dto, g) ∉ getLastEnded updatedAt σj) ∧
                (∀ u, (gameId dto, g) ∉ findByUserId updatedAt u σj)).
Proof.
  intros Hj.
  destruct (nt_join_counts h dto user now σ σ' Hj) as (game & Hg & Hs & Hb & Hgs & Hn).
  set (game' := settled_game h game user (move dto) now) in *.
  assert (status game' = ended) as Hs' by apply NonTransactionalProofs.nt_settled_game_status.
  destruct (nt_settled_game_parties h game user (move dto) now) as [Hc Ho].
  fold game' in Hc, Ho.
  assert ((gameId dto, game') ∈ findByUserId updatedAt user σ') as Hhist.
  { apply nt_elem_of_findByUserId. rewrite Hgs, lookup_insert_eq. eauto. }
  exists game, game'.
  split; [done|].
  split; [by apply (QueryProofs.elem_of_find (λ game, status game = active))|].
  split; [unfold findById; rewrite Hgs; apply lookup_insert_eq|].
  do 3 (split; [done|]).
  split.
  { intros doc. rewrite (nt_getActive_insert _ _ _ _ doc Hgs). split.
    - intros [[_ ?]|?]; [congruence|done].
    - by right. }
  split; [done|].
  split; [apply nt_elem_of_findByUserId; rewrite Hgs, lookup_insert_eq; eauto|].
  split.
  { intros publicKey Hk. unfold findByUserPublicKey. rewrite Hk. eauto. }
  split; [specialize (Hn (creator game)); rewrite decide_True in Hn by done; lia|].
  split; [intros u Hu; specialize (Hn u); rewrite decide_False in Hn by done; lia|].
  destruct (NonTransactionalProofs.nt_joining_joined dto user σ game Hb)
    as (σj & Hjoin & Hgj & Hsj & _).
  exists σj. do 2 (split; [done|]). intros g.
  split; [|split; [|intros u]]; intros Hin.
  - apply (QueryProofs.elem_of_find (λ game, status game = active)) in Hin as [Hin Hact].
    rewrite Hgj in Hin. injection Hin as <-. congruence.
  - apply (QueryProofs.limit_sort_find (λ game, status game = ended)) in Hin as [Hin Hend].
    rewrite Hgj in Hin. injection Hin as <-. congruence.
  - apply nt_elem_of_findByUserId in Hin as (Hin & _ & Hend).
    rewrite Hgj in Hin. injection Hin as <-. congruence.
Qed.

Lemma nt_join_listed_witness :
  ∃ game',
    findById 0%nat
      (join Scenario.heap {| gameId := 0%nat; move := 1%nat |} Scenario.bob 7%nat
            Scenario.nt_opened).2 = Some game' ∧
    status game' = ended ∧
    (0%nat, game')
      ∈ findByUserId (λ _, 0%nat) Scenario.bob
          (join Scenario.heap {| gameId := 0%nat; move := 1%nat |} Scenario.bob 7%nat
                Scenario.nt_opened).2.
Proof.
  destruct (nt_join_listed (λ _, 0%nat) (λ _, None) Scenario.heap
              {| gameId := 0%nat; move := 1%nat |} Scenario.bob 7%nat Scenario.nt_opened
              (join Scenario.heap {| gameId := 0%nat; move := 1%nat |} Scenario.bob 7%nat
                    Scenario.nt_opened).2)
    as (game & game' & _ & _ & Hg' & Hs & _ & _ & _ & Hbob & _); [concrete|].
  exists game'. split; [exact Hg'|]. split; [exact Hs|exact Hbob].
Defined.

(** X7.  After a successful [cancel] of the non-transactional service the game,
    which was listed as active, is no longer, and it is listed nowhere else:
    the page of the last ended games and every user's history are what they
    were; the creator has one active game less. *)
Theorem nt_cancel_listed (updatedAt : GameId → nat) (id : GameId) (user : UserId)
    (σ σ' : Store Game) :
  cancel id user σ = (Ok tt, σ') →
  ∃ game,
    findById id σ = Some game ∧
    (id, game) ∈ getActive σ ∧
    creator game = user ∧
    findById id σ' = Some (set_status game cancelled) ∧
    (∀ doc, doc ∈ getActive σ' ↔ doc ∈ getActive σ ∧ doc.1 ≠ id) ∧
    getLastEnded updatedAt σ' = getLastEnded updatedAt σ ∧
    (∀ u, findByUserId updatedAt u σ' = findByUserId updatedAt u σ) ∧
    (∀ game', (id, game') ∉ getLastEnded updatedAt σ') ∧
    (∀ u game', (id, game') ∉ findByUserId updatedAt u σ') ∧
    S (userActiveCount user σ') = userActiveCount user σ ∧
    (∀ u, u ≠ user → userActiveCount u σ' = userActiveCount u σ).
Proof.
  intros Hc.
  destruct (nt_cancel_counts id user σ σ' Hc) as (game & Hg & Hs & -> & Hgs & Hn).
  assert (∀ P : Game → Prop, ∀ HP : ∀ g, Decision (P g),
            (∀ g, P g → status g = ended) →
            Query.find P σ' = Query.find P σ) as Hsame.
  { intros P HP Hended. apply (QueryProofs.find_insert_not _ _ _ _ _ Hgs).
    - intros HP'. by apply Hended in HP'.
    - intros g Hg' HP'. apply Hended in HP'. congruence. }
  assert (getLastEnded updatedAt σ' = getLastEnded updatedAt σ) as Hlast.
  { unfold getLastEnded. by rewrite Hsame. }
  assert (∀ u, findByUserId updatedAt u σ' = findByUserId updatedAt u σ) as Hhist.
  { intros u. unfold findByUserId. rewrite Hsame; [done|]. by intros g [_ ?]. }
  exists game.
  split; [done|].
  split; [by apply (QueryProofs.elem_of_find (λ game, status game = active))|].
  split; [done|].
  split; [unfold findById; rewrite Hgs; apply lookup_insert_eq|].
  split.
  { intros doc. rewrite (nt_getActive_insert _ _ _ _ doc Hgs). split.
    - intros [[_ ?]|?]; [done|done].
    - by right. }
  do 2 (split; [done|]).
  split.
  { intros g Hin. rewrite Hlast in Hin.
    apply (QueryProofs.limit_sort_find (λ game, status game = ended)) in Hin as [Hin Hs'].
    congruence. }
  split.
  { intros u g Hin. rewrite Hhist in Hin.
    apply nt_elem_of_findByUserId in Hin as (Hin & _ & Hs'). congruence. }
  split.
  - specialize (Hn (creator game)). rewrite decide_True in Hn by done. lia.
  - intros u Hu. specialize (Hn u). rewrite decide_False in Hn by done. lia.
Qed.

Lemma nt_cancel_listed_witness :
  findById 0%nat (cancel 0%nat Scenario.alice Scenario.nt_opened).2
    = Some (set_status Scenario.nt_game cancelled) ∧
  getActive (cancel 0%nat Scenario.alice Scenario.nt_opened).2 = [] ∧
  userActiveCount Scenario.alice (cancel 0%nat Scenario.alice Scenario.nt_opened).2 = 0%nat.
Proof.
  destruct (nt_cancel_listed (λ _, 0%nat) 0%nat Scenario.alice Scenario.nt_opened
              (cancel 0%nat Scenario.alice Scenario.nt_opened).2)
    as (game & Hg & _ & _ & Hg' & _ & _ & _ & _ & _ & Hcount & _); [concrete|].
  unfold findById in Hg. injection Hg as <-.
  split; [exact Hg'|]. split; [reflexivity|].
  apply Nat.succ_inj. exact Hcount.
Defined.

(** X8.  Admission control in the non-transactional service.  Over any sequence
    of [create], [join] and [cancel] calls, whatever their arguments and
    outcomes, no user ever has more active games than five, or than it had at
    the start if that was more. *)
Theorem nt_active_games_capped (schema_fee : Q) (σ σ' : Store Game) (u : UserId) :
  rtc (step schema_fee) σ σ' →
  (userActiveCount u σ' ≤ Nat.max 5 (userActiveCount u σ))%nat.
Proof.
  induction 1 as [σ|σ σ1 σ' [c <-] _ IH]; [lia|].
  destruct (nt_exec_userActiveCount schema_fee c u σ) as [Hle|[Hlt Heq]]; lia.
Qed.

Lemma nt_active_games_capped_witness :
  (userActiveCount Scenario.alice
     (create 4 Scenario.alice Scenario.nt_stake Scenario.nt_opened).2 ≤ 5)%nat.
Proof.
  apply (nt_active_games_capped 4 Scenario.nt_opened
           (create 4 Scenario.alice Scenario.nt_stake Scenario.nt_opened).2 Scenario.alice).
  eapply rtc_l; [|apply rtc_refl]. by exists (Create Scenario.alice Scenario.nt_stake).
Defined.

End NonTransactionalQueriesProofs.

(** ** The listings of ended games *)

Module EndedListingsProofs.

Module T := Transactional.
Module TQ := TransactionalQueries.
Module N := NonTransactional.
Module NQ := NonTransactionalQueries.

(** X9.  In both services [getLastEnded] returns at most thirty games, each
    stored with the status [ended] and none twice, the most recently updated
    first; an ended game is left out only when thirty are listed, none of
    them updated earlier than it.  [findByUserId] returns exactly the ended
    games the user created or joined, none twice, the most recently updated
    first. *)
Theorem ended_listings :
  (∀ (updatedAt : GameId → nat) (σ : Store T.Game),
     let listed := TQ.getLastEnded updatedAt σ in
     (length listed ≤ 30)%nat ∧
     NoDup listed ∧
     (∀ id game, (id, game) ∈ listed → TQ.findById id σ = Some game ∧ T.status game = ended) ∧
     StronglySorted (Query.updatedAt_desc updatedAt) listed ∧
     (∀ id game, TQ.findById id σ = Some game → T.status game = ended →
        (id, game) ∉ listed →
        length listed = 30%nat ∧
        ∀ id' game', (id', game') ∈ listed → (updatedAt id ≤ updatedAt id')%nat) ∧
     ∀ userId,
       NoDup (TQ.findByUserId updatedAt userId σ) ∧
       StronglySorted (Query.updatedAt_desc updatedAt) (TQ.findByUserId updatedAt userId σ) ∧
       ∀ id game,
         (id, game) ∈ TQ.findByUserId updatedAt userId σ ↔
           TQ.findById id σ = Some game ∧
           (T.creator game = userId ∨ T.opponent game = Some userId) ∧
           T.status game = ended) ∧
  (∀ (updatedAt : GameId → nat) (σ : Store N.Game),
     let listed := NQ.getLastEnded updatedAt σ in
     (length listed ≤ 30)%nat ∧
     NoDup listed ∧
     (∀ id game, (id, game) ∈ listed → NQ.findById id σ = Some game ∧ N.status game = ended) ∧
     StronglySorted (Query.updatedAt_desc updatedAt) listed ∧
     (∀ id game, NQ.findById id σ = Some game → N.status game = ended →
        (id, game) ∉ listed →
        length listed = 30%nat ∧
        ∀ id' game', (id', game') ∈ listed → (updatedAt id ≤ updatedAt id')%nat) ∧
     ∀ userId,
       NoDup (NQ.findByUserId updatedAt userId σ) ∧
       StronglySorted (Query.updatedAt_desc updatedAt) (NQ.findByUserId updatedAt userId σ) ∧
       ∀ id game,
         (id, game) ∈ NQ.findByUserId updatedAt userId σ ↔
           NQ.findById id σ = Some game ∧
           (N.creator game = userId ∨ N.opponent game = Some userId) ∧
           N.status game = ended).
Proof.
  split; intros updatedAt σ listed.
  - destruct (QueryProofs.limit_sort_find (λ game, T.status game = ended) updatedAt
                TQ.LAST_GAMES_TO_SHOW σ) as (Hlen & Hnd & Hin & Hsorted & Hout).
    do 5 (split; [done|]). intros userId.
    split; [apply QueryProofs.NoDup_sort, QueryProofs.NoDup_find|].
    split; [apply QueryProofs.sort_sorted|].
    apply TransactionalQueriesProofs.elem_of_findByUserId.
  - destruct (QueryProofs.limit_sort_find (λ game, N.status game = ended) updatedAt
                NQ.LAST_GAMES_TO_SHOW σ) as (Hlen & Hnd & Hin & Hsorted & Hout).
    do 5 (split; [done|]). intros userId.
    split; [apply QueryProofs.NoDup_sort, QueryProofs.NoDup_find|].
    split; [apply QueryProofs.sort_sorted|].
    apply NonTransactionalQueriesProofs.nt_elem_of_findByUserId.
Qed.

End EndedListingsProofs.

(** ** What a whole game costs the players *)

Module WholeGameProofs.
Import Transactional TransactionalOutcomes.

(** X10.  A whole decisive game of the transactional service, from [create] to
    the settling [join] with a different move.  Each player is debited the
    double computed as [amount * (1 + GAME_FEE / 100)] and the winner is
    credited the double [amount * 2]: the winner's balance is
    [(b - payAmount) + amount * 2] and the loser's [b - payAmount], each sum
    rounded to the nearest double, and nobody else's balance has changed. *)
Theorem decisive_whole_game (creator user : UserId) (dto : CreateGameDto) (mv now : nat)
    (σ : Store Game) :
  payAmount (dto_amount dto) <= balances σ creator →
  (userActiveCount creator σ < 5)%nat →
  0 <= dto_amount dto →
  user ≠ creator →
  payAmount (dto_amount dto) <= balances σ user →
  mv ≠ dto_creatorMove dto →
  ∃ σ1 σ2 winner loser,
    create creator dto σ = (Ok tt, σ1) ∧
    join {| gameId := fresh (dom (games σ)); move := mv |} user now σ1 = (Ok tt, σ2) ∧
    ((winner = creator ∧ loser = user) ∨ (winner = user ∧ loser = creator)) ∧
    (∃ game', games σ2 !! fresh (dom (games σ)) = Some game' ∧
              Transactional.winner game' = Some winner) ∧
    balances σ2 winner
      = Js.add (Js.add (balances σ winner) (- payAmount (dto_amount dto)))
               (Js.mul (dto_amount dto) 2) ∧
    balances σ2 loser = Js.add (balances σ loser) (- payAmount (dto_amount dto)) ∧
    (∀ u, u ≠ creator → u ≠ user → balances σ2 u = balances σ u).
Proof.
  intros Hb Hc Ha Hne Hbu Hmv.
  pose proof (TransactionalProofs.payAmount_nonneg _ Ha) as Hp.
  assert (creator ≠ user) as Hne' by congruence.
  assert (0 <= Js.add (balances σ creator) (- payAmount (dto_amount dto))) as Hd
    by (apply Js_add_nonneg; lra).
  set (dto' := {| gameId := fresh (dom (games σ)); move := mv |}).
  assert (create creator dto σ = (Ok tt, created creator dto σ)) as Hcr
    by by apply TransactionalProofs.create_ok.
  assert (games (created creator dto σ) !! gameId dto' = Some (newGame creator dto)) as Hg
    by apply lookup_insert_eq.
  assert (join dto' user now (created creator dto σ)
          = (Ok tt, settled dto' user now (newGame creator dto) (created creator dto σ)))
    as Hj.
  { apply TransactionalProofs.join_ok;
      cbn [created games balances newGame Transactional.creator status amount];
      [done|done|by fn_simpl|done|done|by fn_simpl]. }
  destruct (TransactionalProofs.decisive_settled dto' user now _ _ _ Hg Hj)
    as (winner & loser & Hwl & Hg' & _ & _ & Hw & Hl & Hoth); [by cbn|].
  cbn [newGame Transactional.creator] in Hwl.
  exists (created creator dto σ), (settled dto' user now (newGame creator dto)
                                     (created creator dto σ)), winner, loser.
  do 3 (split; [done|]).
  split; [eexists; split; [exact Hg'|done]|].
  revert Hw Hl Hoth. unfold credit.
  cbn [fst snd created balances newGame Transactional.creator amount].
  set (σ2 := settled _ _ _ _ _). intros Hw Hl Hoth.
  split; [|split].
  - rewrite Hw. destruct Hwl as [[-> ->]|[-> ->]]; by fn_simpl.
  - rewrite Hl. destruct Hwl as [[-> ->]|[-> ->]]; by fn_simpl.
  - intros u Hu1 Hu2. rewrite Hoth by (destruct Hwl as [[-> _]|[-> _]]; done).
    by fn_simpl.
Qed.

Lemma decisive_whole_game_witness :
  ∃ σ2,
    join {| gameId := 0%nat; move := 1%nat |} Scenario.bob 7%nat
         (create Scenario.alice (Scenario.small 29) Scenario.empty).2 = (Ok tt, σ2) ∧
    balances σ2 Scenario.bob == 282530507873321 # 274877906944 ∧
    1000 - 29 * (1 + 4 / 100) + 29 * 2 < balances σ2 Scenario.bob.
Proof.
  destruct (decisive_whole_game Scenario.alice Scenario.bob (Scenario.small 29) 1%nat 7%nat
              Scenario.empty)
    as (σ1 & σ2 & winner & loser & Hcr & Hj & _); [concrete..|].
  exists σ2.
  assert (σ1 = (create Scenario.alice (Scenario.small 29) Scenario.empty).2) as E1
    by (by rewrite Hcr).
  assert (σ2 = (join {| gameId := fresh (dom (games Scenario.empty)); move := 1%nat |}
                     Scenario.bob 7%nat σ1).2) as E2
    by (by rewrite Hj).
  subst σ1. split; [exact Hj|]. rewrite E2.
  split; by vm_compute.
Defined.

End WholeGameProofs.

Module NonTransactionalWholeGameProofs.
Import NonTransactional NonTransactionalOutcomes.

Lemma Math_round_comp (x y : Q) : x == y → Js.Math_round x = Js.Math_round y.
Proof.
  intros H. unfold Js.Math_round. f_equal. apply Qfloor_comp. by rewrite H.
Qed.

Lemma Qfloor_half (z : Z) : Qfloor (inject_Z z + (1 # 2)) = z.
Proof.
  pose proof (Qfloor_le (inject_Z z + (1 # 2))) as H1.
  pose proof (Qlt_floor (inject_Z z + (1 # 2))) as H2.
  set (k := Qfloor _) in *. rewrite inject_Z_plus in H2. change (inject_Z 1) with 1 in H2.
  assert (k ≤ z)%Z.
  { destruct (Z.le_gt_cases k z) as [|Hlt]; [done|]. exfalso.
    assert (z + 1 ≤ k)%Z as Hle by lia. rewrite Zle_Qle, inject_Z_plus in Hle.
    change (inject_Z 1) with 1 in Hle. lra. }
  assert (z ≤ k)%Z.
  { destruct (Z.le_gt_cases z k) as [|Hlt]; [done|]. exfalso.
    assert (k + 1 ≤ z)%Z as Hle by lia. rewrite Zle_Qle, inject_Z_plus in Hle.
    change (inject_Z 1) with 1 in Hle. lra. }
  lia.
Qed.

(** [Math.round] of a number that is at most an integer, and of an
    integer. *)
Lemma Math_round_le (x : Q) (z : Z) : x <= inject_Z z → Js.Math_round x <= inject_Z z.
Proof.
  intros H. unfold Js.Math_round. rewrite <-Zle_Qle, <-(Qfloor_half z).
  apply Qfloor_resp_le. lra.
Qed.

Lemma Math_round_Z (z : Z) : Js.Math_round (inject_Z z) = inject_Z z.
Proof. unfold Js.Math_round. by rewrite Qfloor_half. Qed.

(** The payout depends on the value of its arguments only. *)
Lemma payout_comp (amount amount' fee fee' : Q) :
  amount == amount' → fee == fee' → payout amount fee = payout amount' fee'.
Proof.
  intros Ha Hf. unfold payout, Js.mul, Js.div, Js.sub.
  apply Math_round_comp. by rewrite Ha, Hf.
Qed.

(** The part of the pot the winner is paid, the double
    [(100 - fee) / 100], is between 0 and 1. *)
Lemma share_bounds (fee : Q) :
  0 <= fee → fee <= 100 →
  0 <= Js.div (Js.sub 100 fee) 100 ∧ Js.div (Js.sub 100 fee) 100 <= 1.
Proof.
  intros H0 H100.
  assert (0 <= Js.sub 100 fee) as Hd0 by (by apply Js_sub_nonneg).
  assert (Js.sub 100 fee <= 100) as Hd100.
  { unfold Js.sub. apply (fl_le_Z _ 100); [done|]. change (inject_Z 100) with 100. lra. }
  split; [apply Js_div_nonneg; lra|].
  unfold Js.div. apply (fl_le_Z _ 1); [done|].
  change (inject_Z 1) with 1. apply Qle_shift_div_r; lra.
Qed.

(** The payout never exceeds the pot. *)
Lemma payout_le_pot (n : Z) (fee : Q) :
  (0 ≤ n < 2 ^ 52)%Z → 0 <= fee → fee <= 100 →
  payout (inject_Z n) fee <= inject_Z n * 2.
Proof.
  intros Hn Hf0 Hf100. unfold payout.
  destruct (share_bounds fee Hf0 Hf100) as [Hs0 Hs1].
  set (share := Js.div _ _) in *.
  assert (0 <= inject_Z n) as Hn0.
  { change 0 with (inject_Z 0). rewrite <- Zle_Qle. lia. }
  assert (Js.mul (inject_Z n) 2 == inject_Z (n * 2)) as Hpot.
  { unfold Js.mul. change 2 with (inject_Z 2). rewrite <- inject_Z_mult.
    apply fl_Z. lia. }
  assert (inject_Z n * 2 == inject_Z (n * 2)) as Hpot'.
  { by rewrite inject_Z_mult. }
  rewrite Hpot'. apply Math_round_le.
  unfold Js.mul at 1. apply fl_le_Z; [lia|].
  rewrite Hpot. rewrite <- Hpot' in *. nra.
Qed.

(** With a whole-number fee that takes at most one half off the pot, the
    payout is the pot: stakes and fees from 1 to 25 by evaluation. *)
Lemma payout_small_checked :
  forallb (λ s, forallb (λ f,
             if (s * f <=? 25)%nat
             then Qeq_bool (payout (inject_Z (Z.of_nat s)) (inject_Z (Z.of_nat f)))
                           (inject_Z (Z.of_nat s) * 2)
             else true) (seq 1 25)) (seq 1 25) = true.
Proof. by vm_compute. Qed.

Lemma payout_whole_pot (n f : Z) :
  (0 ≤ n < 2 ^ 52)%Z → (0 ≤ f)%Z → (4 * n * f ≤ 100)%Z →
  payout (inject_Z n) (inject_Z f) == inject_Z n * 2.
Proof.
  intros Hn Hf Hnf.
  destruct (decide (n = 0%Z)) as [->|Hn0].
  { unfold payout. change (inject_Z 0) with 0.
    assert (Js.mul 0 2 = 0) as -> by (by vm_compute).
    assert (∀ x, Js.mul 0 x = 0) as ->.
    { intros x. unfold Js.mul. apply fl_zero. lra. }
    by vm_compute. }
  destruct (decide (f = 0%Z)) as [->|Hf0].
  { unfold payout. change (inject_Z 0) with 0.
    assert (Js.div (Js.sub 100 0) 100 == 1) as Hshare by (by vm_compute).
    assert (Js.mul (inject_Z n) 2 == inject_Z (n * 2)) as Hpot.
    { unfold Js.mul. change 2 with (inject_Z 2). rewrite <- inject_Z_mult.
      apply fl_Z. lia. }
    assert (Js.mul (Js.mul (inject_Z n) 2) (Js.div (Js.sub 100 0) 100)
            == inject_Z (n * 2)) as Hprod.
    { unfold Js.mul at 1. rewrite Hshare, Hpot, Qmult_1_r. apply fl_Z. lia. }
    rewrite (Math_round_comp _ _ Hprod), Math_round_Z. by rewrite inject_Z_mult. }
  pose proof payout_small_checked as H.
  rewrite List.forallb_forall in H.
  specialize (H (Z.to_nat n)). rewrite List.forallb_forall in H.
  specialize (H ltac:(apply in_seq; nia) (Z.to_nat f) ltac:(apply in_seq; nia)).
  rewrite !Z2Nat.id in H by lia.
  destruct (Nat.leb_spec (Z.to_nat n * Z.to_nat f) 25) as [_|Hgt]; [|nia].
  by apply Qeq_bool_iff.
Qed.

(** X11.  A whole decisive game of the non-transactional service, from [create]
    to the settling [join] with a different move: each player pays the bare
    stake, the one with the larger move is paid
    [Math.round(amount * 2 * ((100 - fee) / 100))] as computed on doubles,
    nobody else's balance has changed, and what the two players hold less
    together is the pot less the payout. *)
Theorem nt_decisive_whole_game (schema_fee : Q) (h : Js.heap) (creator user : UserId)
    (dto : CreateGameDto) (mv now : nat) (σ : Store Game) :
  dto_amount dto <= balances σ creator →
  (userActiveCount creator σ < 5)%nat →
  0 <= dto_amount dto →
  user ≠ creator →
  dto_amount dto <= balances σ user →
  schema_fee <= 100 →
  mv ≠ dto_creatorMove dto →
  ∃ σ1 σ2 winner loser,
    create schema_fee creator dto σ = (Ok tt, σ1) ∧
    join h {| gameId := fresh (dom (games σ)); move := mv |} user now σ1 = (Ok tt, σ2) ∧
    (winner, loser) = (if (mv <? dto_creatorMove dto)%nat
                       then (creator, user) else (user, creator)) ∧
    balances σ2 winner
      == balances σ winner - dto_amount dto + payout (dto_amount dto) schema_fee ∧
    balances σ2 loser == balances σ loser - dto_amount dto ∧
    (∀ u, u ≠ creator → u ≠ user → balances σ2 u = balances σ u) ∧
    Scenario.fee_retained (balances σ) (balances σ2) creator user
      == dto_amount dto * 2 - payout (dto_amount dto) schema_fee.
Proof.
  intros Hb Hc Ha Hne Hbu Hf Hmv.
  assert (creator ≠ user) as Hne' by congruence.
  destruct (NonTransactionalProofs.nt_create_ok schema_fee creator dto σ)
    as (σ1 & Hcr & Hb1 & Hg1); [done..|].
  destruct (NonTransactionalProofs.nt_decisive_payout h
              {| gameId := fresh (dom (games σ)); move := mv |}
              user now σ1 (newGame schema_fee creator dto))
    as (σ2 & winner & Hj & Hw & Hb2);
    cbn [gameId move newGame NonTransactional.creator status amount fee creatorMove];
    rewrite ?Hg1, ?Hb1; unfold credit; cbn [fst snd];
    [apply lookup_insert_eq|done|by fn_simpl|done|done|fn_simpl; lra|done|done|].
  cbn [gameId move newGame NonTransactional.creator status amount fee creatorMove] in Hw, Hb2.
  set (paid := payout (dto_amount dto) schema_fee) in *. unfold Scenario.fee_retained.
  revert Hb2. rewrite Hb1. unfold credit. cbn [fst snd]. fn_simpl. intros Hb2.
  exists σ1, σ2.
  destruct (mv <? dto_creatorMove dto)%nat; subst winner.
  - exists creator, user. do 3 (split; [done|]). rewrite Hb2. fn_simpl.
    split; [lra|]. split; [lra|]. split; [intros u ? ?; by fn_simpl|lra].
  - exists user, creator. do 3 (split; [done|]). rewrite Hb2. fn_simpl.
    split; [lra|]. split; [lra|]. split; [intros u ? ?; by fn_simpl|lra].
Qed.

Lemma nt_decisive_whole_game_witness :
  (∃ σ2,
     join Scenario.heap {| gameId := 0%nat; move := 1%nat |} Scenario.bob 7%nat
          (create 4 Scenario.alice Scenario.nt_stake Scenario.nt_empty).2 = (Ok tt, σ2) ∧
     Scenario.fee_retained Scenario.ledger (balances σ2) Scenario.alice Scenario.bob == 8) ∧
  (∃ σ2,
     join Scenario.heap {| gameId := 0%nat; move := 1%nat |} Scenario.bob 7%nat
          (create 31 Scenario.alice (Scenario.nt_small 75) Scenario.nt_empty).2 = (Ok tt, σ2) ∧
     balances σ2 Scenario.bob == 1000 - 75 + 103).
Proof.
  split.
  - destruct (nt_decisive_whole_game 4 Scenario.heap Scenario.alice Scenario.bob
                Scenario.nt_stake 1%nat 7%nat Scenario.nt_empty)
      as (σ1 & σ2 & winner & loser & Hcr & Hj & _ & _ & _ & _ & Hfee); [concrete..|].
    exists σ2. split.
    + rewrite Hcr. exact Hj.
    + etransitivity; [exact Hfee|by vm_compute].
  - destruct (nt_decisive_whole_game 31 Scenario.heap Scenario.alice Scenario.bob
                (Scenario.nt_small 75) 1%nat 7%nat Scenario.nt_empty)
      as (σ1 & σ2 & winner & loser & Hcr & Hj & Hwl & Hw & _); [concrete..|].
    exists σ2. rewrite Hcr. split; [exact Hj|].
    cbn in Hwl. injection Hwl as -> ->.
    etransitivity; [exact Hw|by vm_compute].
Defined.

(** X12.  The rounding of the payout in the non-transactional service, which
    is computed on doubles.  For a stake that is a whole number below 2^52
    and a fee between 0 and 100 percent, the winner of a decisive game is
    paid a sum that is not negative and never more than the pot; when the fee
    is a whole number too and the fee on the pot is at most one half, the
    winner is paid the whole pot and no fee is kept (at a fee of 4 percent:
    every stake up to 6). *)
Theorem nt_payout_rounding (h : Js.heap) (dto : JoinGameDto) (user : UserId) (now : nat)
    (σ : Store Game) (game : Game) (n : Z) :
  games σ !! gameId dto = Some game →
  status game = active →
  amount game <= balances σ user →
  user ≠ creator game →
  0 <= balances σ (creator game) →
  creatorMove game ≠ move dto →
  amount game == inject_Z n →
  (0 ≤ n < 2 ^ 52)%Z →
  0 <= fee game → fee game <= 100 →
  ∃ σ' winner,
    join h dto user now σ = (Ok tt, σ') ∧
    credits h game user (move dto) = [(winner, payout (amount game) (fee game))] ∧
    balances σ' = credit (credit (balances σ) (user, - amount game))
                         (winner, payout (amount game) (fee game)) ∧
    0 <= payout (amount game) (fee game) ∧
    payout (amount game) (fee game) <= amount game * 2 ∧
    (∀ f : Z, fee game == inject_Z f → (4 * n * f ≤ 100)%Z →
       payout (amount game) (fee game) == amount game * 2).
Proof.
  intros Hg Hs Hb Hne Hc Hmv Hn Hn0 Hf0 Hf100.
  assert (0 <= amount game) as Ha.
  { rewrite Hn. change 0 with (inject_Z 0). rewrite <-Zle_Qle. lia. }
  destruct (NonTransactionalProofs.nt_decisive_payout h dto user now σ game)
    as (σ' & winner & Hj & Hw & Hbal); [done..|].
  exists σ', winner.
  split; [done|].
  split.
  { unfold credits. rewrite NonTransactionalProofs.nt_selected_max by done. by rewrite Hw. }
  split; [done|].
  split; [by apply NonTransactionalProofs.payout_nonneg|].
  split.
  { rewrite (payout_comp _ (inject_Z n) _ (fee game)) by done. rewrite Hn.
    by apply payout_le_pot. }
  intros f Hf Hnf.
  rewrite (payout_comp _ (inject_Z n) _ (inject_Z f)) by done. rewrite Hn.
  apply payout_whole_pot; [done| |done].
  rewrite Hf in Hf0. change 0 with (inject_Z 0) in Hf0. by rewrite <- Zle_Qle in Hf0.
Qed.

Lemma nt_payout_rounding_witness :
  ∃ σ' winner,
    join Scenario.heap {| gameId := 0%nat; move := 1%nat |} Scenario.bob 7%nat
         (MkStore Scenario.ledger
            {[ 0%nat := newGame 4 Scenario.alice {| dto_amount := 6; dto_creatorMove := 0 |} ]}
            []) = (Ok tt, σ') ∧
    credits Scenario.heap
      (newGame 4 Scenario.alice {| dto_amount := 6; dto_creatorMove := 0 |}) Scenario.bob 1
      = [(winner, payout 6 4)] ∧
    payout 6 4 == 6 * 2.
Proof.
  destruct (nt_payout_rounding Scenario.heap {| gameId := 0%nat; move := 1%nat |}
              Scenario.bob 7%nat
              (MkStore Scenario.ledger
                 {[ 0%nat := newGame 4 Scenario.alice
                                {| dto_amount := 6; dto_creatorMove := 0 |} ]} [])
              (newGame 4 Scenario.alice {| dto_amount := 6; dto_creatorMove := 0 |}) 6%Z)
    as (σ' & winner & Hj & Hcr & _ & _ & _ & Hsmall); [concrete..|].
  exists σ', winner. split; [exact Hj|]. split; [exact Hcr|].
  apply (Hsmall 4%Z); concrete.
Defined.

End NonTransactionalWholeGameProofs.

(** ** What a call leaves alone *)

Module FrameProofs.
Import Transactional TransactionalOutcomes.

(** X13.  Whatever its outcome, a call of the transactional service changes no
    balance but the caller's and, for [join], that of the creator of the
    game, and no game but the one it names ([create]: the one it adds under
    a free id). *)
Theorem calls_frame :
  (∀ (user : UserId) (dto : CreateGameDto) (σ : Store Game) (u : UserId),
     u ≠ user → balances (create user dto σ).2 u = balances σ u) ∧
  (∀ (user : UserId) (dto : CreateGameDto) (σ : Store Game) (id : GameId),
     id ≠ fresh (dom (games σ)) → games (create user dto σ).2 !! id = games σ !! id) ∧
  (∀ (dto : JoinGameDto) (user : UserId) (now : nat) (σ : Store Game) (u : UserId),
     u ≠ user →
     (∀ game, games σ !! gameId dto = Some game → u ≠ creator game) →
     balances (join dto user now σ).2 u = balances σ u) ∧
  (∀ (dto : JoinGameDto) (user : UserId) (now : nat) (σ : Store Game) (id : GameId),
     id ≠ gameId dto → games (join dto user now σ).2 !! id = games σ !! id) ∧
  (∀ (id : GameId) (user : UserId) (σ : Store Game) (u : UserId),
     u ≠ user → balances (cancel id user σ).2 u = balances σ u) ∧
  (∀ (id : GameId) (user : UserId) (σ : Store Game) (id' : GameId),
     id' ≠ id → games (cancel id user σ).2 !! id' = games σ !! id').
Proof.
  split; [|split; [|split; [|split; [|split]]]].
  - intros user dto σ u Hu.
    destruct (TransactionalProofs.create_cases user dto σ) as [[e ->]| ->]; [done|].
    cbn [snd created balances]. by fn_simpl.
  - intros user dto σ id Hid.
    destruct (TransactionalProofs.create_cases user dto σ) as [[e ->]| ->]; [done|].
    cbn [snd created games]. by rewrite lookup_insert_ne.
  - intros dto user now σ u Hu Hcr.
    destruct (TransactionalProofs.join_cases dto user now σ)
      as [(e & σ' & -> & Hb & _)|(game & Hg & _ & _ & _ & ->)];
      [cbn [snd]; by rewrite Hb|].
    specialize (Hcr game Hg).
    cbn [snd settled balances]. unfold credits, selected.
    destruct (creatorMove game =? move dto)%nat;
      [|destruct (creatorMove game =? winningChoice _ _)%nat];
      unfold credit; cbn [foldl fst snd]; by fn_simpl.
  - intros dto user now σ id Hid.
    destruct (TransactionalProofs.join_cases dto user now σ)
      as [(e & σ' & -> & _ & Hgs)|(game & Hg & _ & _ & _ & ->)];
      [cbn [snd]; by rewrite Hgs|].
    cbn [snd settled games]. by rewrite lookup_insert_ne.
  - intros id user σ u Hu.
    destruct (TransactionalProofs.cancel_cases id user σ)
      as [[e ->]|(game & _ & _ & _ & ->)]; [done|].
    cbn [snd refunded balances]. by fn_simpl.
  - intros id user σ id' Hid.
    destruct (TransactionalProofs.cancel_cases id user σ)
      as [[e ->]|(game & _ & _ & _ & ->)]; [done|].
    cbn [snd refunded games]. by rewrite lookup_insert_ne.
Qed.

Lemma calls_frame_witness :
  balances (join {| gameId := 0%nat; move := 1%nat |} Scenario.bob 7%nat Scenario.opened).2
           3%nat = balances Scenario.opened 3%nat.
Proof.
  destruct calls_frame as (_ & _ & Hjoin & _).
  apply Hjoin; [concrete|].
  intros game [= <-]. concrete.
Defined.

End FrameProofs.

Module NonTransactionalFrameProofs.
Import NonTransactional NonTransactionalOutcomes.

Lemma nt_changeBalance_frame (user : UserId) (amount : Q) (notify : bool) (σ : Store Game)
    (u : UserId) :
  u ≠ user →
  balances (changeBalance user amount notify σ).2 u = balances σ u ∧
  games (changeBalance user amount notify σ).2 = games σ.
Proof.
  intros Hu. unfold changeBalance, UserService.changeBalance.
  destruct (Js.lt _ _); [done|]. destruct notify; cbn; by fn_simpl.
Qed.

Lemma nt_join_frame (h : Js.heap) (dto : JoinGameDto) (user : UserId) (now : nat)
    (σ : Store Game) (game : Game) (u : UserId) :
  games σ !! gameId dto = Some game →
  u ≠ user → u ≠ creator game →
  balances (join h dto user now σ).2 u = balances σ u.
Proof.
  intros Hg Hu Hc. unfold join. rewrite Hg.
  destruct (negb _); [done|]. destruct (Js.lt _ _); [done|].
  destruct (user =? creator game)%nat; [done|].
  unfold joining, detached, pickWinner, Promise_all; run_monad.
  unfold changeBalance, UserService.changeBalance; run_monad.
  repeat (first [ match goal with
                  | |- context [Js.lt ?a ?b] => destruct (Js.lt a b)
                  end
                | match goal with
                  | |- context [(?a =? ?b)%nat] => destruct (a =? b)%nat
                  end ];
          cbn [opponent opponentMove set_joined set_ended set_winner creator creatorMove
               amount fee balances games events fst snd]);
    by fn_simpl.
Qed.

(** X14.  Whatever its outcome, a call of the non-transactional service changes
    no balance but the caller's and, for [join], that of the creator of the
    game, and no game but the one it names ([create]: the one it adds under
    a free id). *)
Theorem nt_calls_frame :
  (∀ (schema_fee : Q) (user : UserId) (dto : CreateGameDto) (σ : Store Game) (u : UserId),
     u ≠ user → balances (create schema_fee user dto σ).2 u = balances σ u) ∧
  (∀ (schema_fee : Q) (user : UserId) (dto : CreateGameDto) (σ : Store Game) (id : GameId),
     id ≠ fresh (dom (games σ)) →
     games (create schema_fee user dto σ).2 !! id = games σ !! id) ∧
  (∀ (h : Js.heap) (dto : JoinGameDto) (user : UserId) (now : nat) (σ : Store Game)
     (u : UserId),
     u ≠ user →
     (∀ game, games σ !! gameId dto = Some game → u ≠ creator game) →
     balances (join h dto user now σ).2 u = balances σ u) ∧
  (∀ (h : Js.heap) (dto : JoinGameDto) (user : UserId) (now : nat) (σ : Store Game)
     (id : GameId),
     id ≠ gameId dto → games (join h dto user now σ).2 !! id = games σ !! id) ∧
  (∀ (id : GameId) (user : UserId) (σ : Store Game) (u : UserId),
     u ≠ user → balances (cancel id user σ).2 u = balances σ u) ∧
  (∀ (id : GameId) (user : UserId) (σ : Store Game) (id' : GameId),
     id' ≠ id → games (cancel id user σ).2 !! id' = games σ !! id').
Proof.
  split; [|split; [|split; [|split; [|split]]]].
  - intros fee user dto σ u Hu.
    destruct (NonTransactionalProofs.nt_create_cases fee user dto σ)
      as [[e ->]|(σ' & -> & Hb & _)]; [done|].
    cbn [snd]. rewrite Hb. unfold credit. cbn [fst snd]. by fn_simpl.
  - intros fee user dto σ id Hid.
    destruct (NonTransactionalProofs.nt_create_cases fee user dto σ)
      as [[e ->]|(σ' & -> & _ & Hgs)]; [done|].
    cbn [snd]. rewrite Hgs. by rewrite lookup_insert_ne.
  - intros h dto user now σ u Hu Hcr.
    destruct (games σ !! gameId dto) as [game|] eqn:Hg.
    + apply (nt_join_frame h dto user now σ game); [done|done|by apply Hcr].
    + by rewrite NonTransactionalProofs.nt_join_not_found.
  - intros h dto user now σ id Hid.
    destruct (NonTransactionalProofs.nt_join_cases h dto user now σ)
      as [[e ->]|(game & σ' & _ & _ & _ & _ & -> & Hgs)]; [done|].
    cbn [snd]. rewrite Hgs. by rewrite lookup_insert_ne.
  - intros id user σ u Hu. unfold cancel.
    destruct (games σ !! id) as [game|]; [|done].
    destruct (user =? creator game)%nat eqn:Hc; [|done]. cbn [negb].
    apply Nat.eqb_eq in Hc as ->.
    destruct (negb _); [done|].
    unfold Promise_all; run_monad. cbn [set_status creator amount].
    unfold changeBalance, UserService.changeBalance; run_monad.
    destruct (Js.lt _ _); cbn [balances snd]; by fn_simpl.
  - intros id user σ id' Hid.
    destruct (NonTransactionalProofs.nt_cancel_cases id user σ)
      as [[e ->]|(game & _ & _ & _ & Hgs)]; [done|].
    rewrite Hgs. by rewrite lookup_insert_ne.
Qed.

Lemma nt_calls_frame_witness :
  balances (join Scenario.heap {| gameId := 0%nat; move := 1%nat |} Scenario.bob 7%nat
                 Scenario.nt_opened).2 3%nat = balances Scenario.nt_opened 3%nat.
Proof.
  destruct nt_calls_frame as (_ & _ & Hjoin & _).
  apply Hjoin; [concrete|].
  intros game [= <-]. concrete.
Defined.

End NonTransactionalFrameProofs.

(** ** Opening a game and taking it back *)

Module RoundTripProofs.

Module T := Transactional.
Module TO := TransactionalOutcomes.
Module TP := TransactionalProofs.
Module N := NonTransactional.
Module NP := NonTransactionalProofs.

(** X15.  In the transactional service a creator who cancels the game just
    created is credited the sum [create] debited, the double computed as
    [amount * (1 + GAME_FEE / 100)].  The creator's balance [b] ends as the
    double [(b - payAmount) + payAmount], two rounded operations, which may
    miss [b] by a rounding error; no other balance has changed, the game is
    stored as cancelled, no other game has changed, and the creator has as
    many active games as before. *)
Theorem create_cancel_round_trip (user : UserId) (dto : T.CreateGameDto)
    (σ : Store T.Game) :
  TO.payAmount (T.dto_amount dto) <= balances σ user →
  (T.userActiveCount user σ < 5)%nat →
  0 <= T.dto_amount dto →
  ∃ σ1 σ2,
    T.create user dto σ = (Ok tt, σ1) ∧
    balances σ1 user = Js.add (balances σ user) (- TO.payAmount (T.dto_amount dto)) ∧
    T.cancel (fresh (dom (games σ))) user σ1 = (Ok tt, σ2) ∧
    balances σ2 user
      = Js.add (Js.add (balances σ user) (- TO.payAmount (T.dto_amount dto)))
               (TO.payAmount (T.dto_amount dto)) ∧
    (∀ u, u ≠ user → balances σ2 u = balances σ u) ∧
    games σ2 = <[fresh (dom (games σ)) := T.set_status (T.newGame user dto) cancelled]>
                 (games σ) ∧
    (∀ u, T.userActiveCount u σ2 = T.userActiveCount u σ).
Proof.
  intros Hb Hc Ha. pose proof (TP.payAmount_nonneg _ Ha) as Hp.
  assert (0 <= Js.add (balances σ user) (- TO.payAmount (T.dto_amount dto))) as Hd
    by (apply Js_add_nonneg; lra).
  set (id := fresh (dom (games σ))).
  assert (T.create user dto σ = (Ok tt, TO.created user dto σ)) as Hcr
    by by apply TP.create_ok.
  assert (T.cancel id user (TO.created user dto σ)
          = (Ok tt, TO.refunded id user (T.newGame user dto) (TO.created user dto σ)))
    as Hca.
  { apply TP.cancel_ok;
      cbn [TO.created games balances T.newGame T.creator T.status T.amount];
      [apply lookup_insert_eq|done..|by fn_simpl]. }
  exists (TO.created user dto σ), (TO.refunded id user (T.newGame user dto)
                                     (TO.created user dto σ)).
  split; [done|]. split; [cbn [TO.created balances]; by fn_simpl|].
  split; [done|].
  split; [cbn [TO.refunded TO.created balances T.newGame T.amount]; by fn_simpl|].
  split.
  { intros u Hne. cbn [TO.refunded TO.created balances T.newGame T.amount]. by fn_simpl. }
  split; [cbn [TO.refunded TO.created games]; by rewrite insert_insert_eq|].
  intros u.
  destruct (TransactionalQueriesProofs.create_counts user dto σ _ Hcr) as (_ & _ & Hn1).
  destruct (TransactionalQueriesProofs.cancel_counts id user _ _ Hca)
    as (game & _ & _ & _ & _ & Hn2).
  specialize (Hn1 u). specialize (Hn2 u). lia.
Qed.

Lemma create_cancel_round_trip_witness :
  (∃ σ2,
     T.cancel 0%nat Scenario.alice (T.create Scenario.alice Scenario.stake Scenario.empty).2
       = (Ok tt, σ2) ∧
     balances σ2 Scenario.alice == 1000 ∧
     T.userActiveCount Scenario.alice σ2 = 0%nat) ∧
  (∃ σ2,
     T.cancel 1%nat Scenario.bob
       (T.create Scenario.bob (Scenario.small 1)
          (T.create Scenario.bob (Scenario.small 2) Scenario.purse).2).2 = (Ok tt, σ2) ∧
     balances (T.create Scenario.bob (Scenario.small 2) Scenario.purse).2 Scenario.bob
       == Js.fl (992 # 100) ∧
     balances σ2 Scenario.bob == 2792231768969707 # 281474976710656 ∧
     balances σ2 Scenario.bob < Js.fl (992 # 100)).
Proof.
  split.
  - destruct (create_cancel_round_trip Scenario.alice Scenario.stake Scenario.empty)
      as (σ1 & σ2 & Hcr & _ & Hca & Hb & _ & _ & Hn); [concrete..|].
    exists σ2. split; [rewrite Hcr; exact Hca|].
    split; [rewrite Hb; by vm_compute|apply Hn].
  - destruct (create_cancel_round_trip Scenario.bob (Scenario.small 1)
                (T.create Scenario.bob (Scenario.small 2) Scenario.purse).2)
      as (σ1 & σ2 & Hcr & _ & Hca & Hb & _); [concrete..|].
    match type of Hca with
    | T.cancel ?id _ _ = _ => assert (id = 1%nat) as Hid by (by vm_compute)
    end.
    rewrite Hid in Hca.
    exists σ2. split; [rewrite Hcr; exact Hca|].
    split; [by vm_compute|]. rewrite Hb. split; by vm_compute.
Defined.

(** X16.  In the non-transactional service a creator who cancels the game
    just created gets back the bare stake [create] debited: every balance is
    what it was before the two calls, the game is stored as cancelled, no
    other game has changed, and the creator has as many active games as
    before. *)
Theorem nt_create_cancel_round_trip (schema_fee : Q) (user : UserId) (dto : N.CreateGameDto)
    (σ : Store N.Game) :
  N.dto_amount dto <= balances σ user →
  (N.userActiveCount user σ < 5)%nat →
  0 <= N.dto_amount dto →
  ∃ σ1 σ2,
    N.create schema_fee user dto σ = (Ok tt, σ1) ∧
    balances σ1 user == balances σ user - N.dto_amount dto ∧
    N.cancel (fresh (dom (games σ))) user σ1 = (Ok tt, σ2) ∧
    (∀ u, balances σ2 u == balances σ u) ∧
    games σ2 = <[fresh (dom (games σ)) := N.set_status (N.newGame schema_fee user dto) cancelled]>
                 (games σ) ∧
    (∀ u, N.userActiveCount u σ2 = N.userActiveCount u σ).
Proof.
  intros Hb Hc Ha.
  set (id := fresh (dom (games σ))).
  destruct (NP.nt_create_ok schema_fee user dto σ) as (σ1 & Hcr & Hb1 & Hg1); [done..|].
  destruct (NP.nt_cancel_ok id user σ1 (N.newGame schema_fee user dto))
    as (σ2 & Hca & Hb2 & Hg2);
    cbn [N.newGame N.creator N.status N.amount];
    rewrite ?Hg1, ?Hb1; unfold credit; cbn [fst snd];
    [apply lookup_insert_eq|done..|fn_simpl; lra|].
  exists σ1, σ2.
  split; [done|].
  split; [rewrite Hb1; unfold credit; cbn [fst snd]; fn_simpl; lra|].
  split; [done|].
  split.
  { intros u. rewrite Hb2, Hb1. unfold credit. cbn [fst snd N.newGame N.amount].
    destruct (decide (user = u)) as [->|Hne]; fn_simpl; lra. }
  split; [rewrite Hg2, Hg1; by rewrite insert_insert_eq|].
  intros u.
  destruct (NonTransactionalQueriesProofs.nt_create_counts schema_fee user dto σ _ Hcr)
    as (_ & _ & Hn1).
  destruct (NonTransactionalQueriesProofs.nt_cancel_counts id user _ _ Hca)
    as (game & _ & _ & _ & _ & Hn2).
  specialize (Hn1 u). specialize (Hn2 u). lia.
Qed.

Lemma nt_create_cancel_round_trip_witness :
  ∃ σ2,
    N.cancel 0%nat Scenario.alice
             (N.create 4 Scenario.alice Scenario.nt_stake Scenario.nt_empty).2 = (Ok tt, σ2) ∧
    balances σ2 Scenario.alice == 1000 ∧
    N.userActiveCount Scenario.alice σ2 = 0%nat.
Proof.
  destruct (nt_create_cancel_round_trip 4 Scenario.alice Scenario.nt_stake Scenario.nt_empty)
    as (σ1 & σ2 & Hcr & _ & Hca & Hb & _ & Hn); [concrete..|].
  exists σ2. split; [rewrite Hcr; exact Hca|]. split; [apply Hb|apply Hn].
Defined.

(** X17.  Neither [create] checks the sign of the stake.  Called with a negative
    amount by a user whose balance is not negative and who has fewer than five
    active games, it succeeds and persists an active game with the negative
    stake.  The caller is credited instead of debited: the transactional
    service adds the double [-(amount * (1 + GAME_FEE / 100))], which is not
    negative, to the balance, and does not lower a balance that is a double;
    the non-transactional one raises the balance by the bare amount. *)
Theorem create_negative_stake :
  (∀ (user : UserId) (dto : T.CreateGameDto) (σ : Store T.Game),
     T.dto_amount dto < 0 →
     0 <= balances σ user →
     (T.userActiveCount user σ < 5)%nat →
     ∃ σ', T.create user dto σ = (Ok tt, σ') ∧
           balances σ' user
             = Js.add (balances σ user) (- TO.payAmount (T.dto_amount dto)) ∧
           0 <= - TO.payAmount (T.dto_amount dto) ∧
           (Js.fl (balances σ user) == balances σ user →
              balances σ user <= balances σ' user) ∧
           games σ' !! fresh (dom (games σ)) = Some (T.newGame user dto) ∧
           T.amount (T.newGame user dto) < 0 ∧ T.status (T.newGame user dto) = active) ∧
  (∀ (schema_fee : Q) (user : UserId) (dto : N.CreateGameDto) (σ : Store N.Game),
     N.dto_amount dto < 0 →
     0 <= balances σ user →
     (N.userActiveCount user σ < 5)%nat →
     ∃ σ', N.create schema_fee user dto σ = (Ok tt, σ') ∧
           balances σ' user == balances σ user + - N.dto_amount dto ∧
           balances σ user < balances σ' user ∧
           games σ' !! fresh (dom (games σ)) = Some (N.newGame schema_fee user dto) ∧
           N.amount (N.newGame schema_fee user dto) < 0 ∧
           N.status (N.newGame schema_fee user dto) = active).
Proof.
  split.
  - intros user dto σ Ha Hb Hc.
    assert (TO.payAmount (T.dto_amount dto) <= 0) as Hp
      by (apply TP.payAmount_nonpos; lra).
    exists (TO.created user dto σ).
    split; [apply TP.create_ok; [lra|done]|].
    cbn [TO.created balances games T.newGame T.amount T.status]. fn_simpl.
    split; [done|]. split; [lra|].
    split.
    { intros Hd. rewrite <- Hd at 1. unfold Js.add. apply fl_mono. lra. }
    split; [apply lookup_insert_eq|done].
  - intros fee user dto σ Ha Hb Hc.
    destruct (NP.nt_create_ok fee user dto σ) as (σ' & Hcr & Hb' & Hg'); [lra|done|].
    exists σ'. split; [done|]. rewrite Hb', Hg'. unfold credit. cbn [fst snd]. fn_simpl.
    split; [lra|]. split; [lra|]. split; [apply lookup_insert_eq|done].
Qed.

Lemma create_negative_stake_witness :
  (∃ σ', T.create Scenario.alice {| T.dto_amount := -100; T.dto_creatorMove := 0 |}
                  Scenario.empty = (Ok tt, σ') ∧
         balances σ' Scenario.alice == 1104) ∧
  (∃ σ', T.create Scenario.bob (Scenario.small (- (8)))
                  (T.create Scenario.bob (Scenario.small 1) (MkStore (λ _, 2) ∅ [])).2
           = (Ok tt, σ') ∧
         balances σ' Scenario.bob == 326510972984361 # 35184372088832 ∧
         928 # 100 < balances σ' Scenario.bob) ∧
  (∃ σ', N.create 4 Scenario.alice {| N.dto_amount := -100; N.dto_creatorMove := 0 |}
                  Scenario.nt_empty = (Ok tt, σ') ∧
         balances σ' Scenario.alice == 1100).
Proof.
  destruct create_negative_stake as [Htx Hnt]. split; [|split].
  - destruct (Htx Scenario.alice {| T.dto_amount := -100; T.dto_creatorMove := 0 |}
                Scenario.empty) as (σ' & Hcr & Hb & _); [concrete..|].
    exists σ'. split; [exact Hcr|]. rewrite Hb. by vm_compute.
  - destruct (Htx Scenario.bob (Scenario.small (- (8)))
                (T.create Scenario.bob (Scenario.small 1) (MkStore (λ _, 2) ∅ [])).2)
      as (σ' & Hcr & Hb & _); [concrete..|].
    exists σ'. split; [exact Hcr|]. rewrite Hb. split; by vm_compute.
  - destruct (Hnt 4 Scenario.alice {| N.dto_amount := -100; N.dto_creatorMove := 0 |}
                Scenario.nt_empty) as (σ' & Hcr & Hb & _); [concrete..|].
    exists σ'. split; [exact Hcr|]. etransitivity; [exact Hb|reflexivity].
Defined.

End RoundTripProofs.

(** ** Consistency of the stored games *)

Module ConsistencyProofs.
Import Consistency.

Module T := Transactional.
Module TO := TransactionalOutcomes.
Module TP := TransactionalProofs.
Module N := NonTransactional.
Module NO := NonTransactionalOutcomes.
Module NP := NonTransactionalProofs.
Module NR := NonTransactionalRuns.
Module NRP := NonTransactionalRunsProofs.

Lemma newGame_consistent (user : UserId) (dto : T.CreateGameDto) :
  consistent (T.newGame user dto).
Proof. by unfold consistent. Qed.

Lemma settled_game_consistent (game : T.Game) (user : UserId) (mv now : nat) :
  consistent game → T.status game = active → user ≠ T.creator game →
  consistent (TO.settled_game game user mv now).
Proof.
  unfold consistent. intros Hc Hs Hne. rewrite Hs in Hc. destruct Hc as (_ & _ & Hw & _).
  rewrite TP.settled_game_status.
  exists user, mv. unfold TO.settled_game.
  destruct (TO.selected (T.creator game) user (T.creatorMove game) mv) eqn:Hsel;
    cbn [T.set_winner T.set_joined T.opponent T.opponentMove T.creator T.creatorMove
         T.endedAt T.winner]; rewrite ?Hsel; eauto 10.
Qed.

Lemma cancelled_consistent (game : T.Game) :
  consistent game → T.status game = active → consistent (T.set_status game cancelled).
Proof. unfold consistent. intros Hc Hs. by rewrite Hs in Hc. Qed.

Lemma exec_consistent (c : TO.Call) (σ : Store T.Game) :
  (∀ id game, games σ !! id = Some game → consistent game) →
  ∀ id game, games (TO.exec c σ).2 !! id = Some game → consistent game.
Proof.
  intros Hinv id game'. destruct c as [user dto|dto user now|id' user]; cbn [TO.exec].
  - destruct (TP.create_cases user dto σ) as [[e ->]| ->]; [apply Hinv|].
    cbn [snd TO.created games]. intros [[_ <-]|[_ ?]]%lookup_insert_Some;
      [apply newGame_consistent|by eapply Hinv].
  - destruct (TP.join_cases dto user now σ)
      as [(e & σ' & -> & _ & Hgs)|(game & Hg & Hs & Hne & _ & ->)].
    + cbn [snd]. rewrite Hgs. apply Hinv.
    + cbn [snd TO.settled games]. intros [[_ <-]|[_ ?]]%lookup_insert_Some;
        [|by eapply Hinv].
      apply settled_game_consistent; [by eapply Hinv|done..].
  - destruct (TP.cancel_cases id' user σ) as [[e ->]|(game & Hg & _ & Hs & ->)];
      [apply Hinv|].
    cbn [snd TO.refunded games]. intros [[_ <-]|[_ ?]]%lookup_insert_Some;
      [|by eapply Hinv].
    apply cancelled_consistent; [by eapply Hinv|done].
Qed.

(** X18.  Over any sequence of [create], [join] and [cancel] calls of the
    transactional service, whatever their arguments and outcomes, the stored
    games stay consistent: in particular nobody is ever the opponent in a game
    of their own, and an ended game has a winner exactly when the moves
    differ, who is its creator or its opponent. *)
Theorem games_stay_consistent (σ σ' : Store T.Game) :
  rtc TO.step σ σ' →
  (∀ id game, games σ !! id = Some game → consistent game) →
  (∀ id game, games σ' !! id = Some game → consistent game) ∧
  (∀ id game, games σ' !! id = Some game → T.status game = ended →
     ∃ opponent opponentMove,
       T.opponent game = Some opponent ∧ T.opponentMove game = Some opponentMove ∧
       opponent ≠ T.creator game ∧
       (T.creatorMove game = opponentMove → T.winner game = None) ∧
       (T.creatorMove game ≠ opponentMove →
          T.winner game = Some (T.creator game) ∨ T.winner game = Some opponent)).
Proof.
  intros Hsteps Hinv.
  assert (∀ id game, games σ' !! id = Some game → consistent game) as Hinv'.
  { revert Hinv. induction Hsteps as [σ|σ σ1 σ' [c <-] _ IH]; intros Hinv; [done|].
    apply IH. by apply exec_consistent. }
  split; [done|].
  intros id game Hg Hs. specialize (Hinv' id game Hg). unfold consistent in Hinv'.
  rewrite Hs in Hinv'. destruct Hinv' as (opp & om & Ho & Hom & Hne & _ & Hw).
  exists opp, om. do 3 (split; [done|]). rewrite Hw. unfold TO.selected.
  split.
  - intros ->. by rewrite Nat.eqb_refl.
  - intros Hmv. apply Nat.eqb_neq in Hmv. rewrite Hmv.
    destruct (T.creatorMove game =? T.winningChoice _ _)%nat; eauto.
Qed.

Lemma games_stay_consistent_witness :
  ∃ game,
    games (T.join {| T.gameId := 0%nat; T.move := 1%nat |} Scenario.bob 7%nat
                  (T.create Scenario.alice Scenario.stake Scenario.empty).2).2 !! 0%nat
      = Some game ∧
    consistent game.
Proof.
  destruct (games_stay_consistent Scenario.empty
              (T.join {| T.gameId := 0%nat; T.move := 1%nat |} Scenario.bob 7%nat
                      (T.create Scenario.alice Scenario.stake Scenario.empty).2).2)
    as [Hinv _].
  - eapply rtc_l; [by exists (TO.Create Scenario.alice Scenario.stake)|].
    eapply rtc_l; [|apply rtc_refl].
    by exists (TO.Join {| T.gameId := 0%nat; T.move := 1%nat |} Scenario.bob 7%nat).
  - intros id game Hg. unfold Scenario.empty in Hg. cbn [games] in Hg.
    by rewrite lookup_empty in Hg.
  - exists (T.set_winner (T.set_joined Scenario.game Scenario.bob 1 7) Scenario.bob).
    assert (games (T.join {| T.gameId := 0%nat; T.move := 1%nat |} Scenario.bob 7%nat
                          (T.create Scenario.alice Scenario.stake Scenario.empty).2).2
              !! 0%nat
            = Some (T.set_winner (T.set_joined Scenario.game Scenario.bob 1 7) Scenario.bob))
      as Hg by (by vm_compute).
    split; [exact Hg|]. by apply (Hinv 0%nat).
Defined.

Lemma nt_newGame_consistent (schema_fee : Q) (user : UserId) (dto : N.CreateGameDto) :
  nt_consistent (N.newGame schema_fee user dto).
Proof. by unfold nt_consistent. Qed.

Lemma nt_joined_consistent (game : N.Game) (user : UserId) (mv : nat) :
  nt_consistent game → N.status game = active → user ≠ N.creator game →
  nt_consistent (N.set_joined game user mv).
Proof.
  unfold nt_consistent. intros Hc Hs Hne. rewrite Hs in Hc.
  destruct Hc as (_ & _ & Hw & He).
  cbn [N.set_joined N.status N.opponent N.opponentMove N.creator N.winner N.endedAt].
  eauto 10.
Qed.

Lemma nt_settled_document_consistent (h : Js.heap) (game : N.Game) (now : nat)
    (opp : UserId) (om : nat) :
  nt_consistent game → N.status game = joined →
  N.opponent game = Some opp → N.opponentMove game = Some om →
  nt_consistent (NR.settled_document h game opp om now).
Proof.
  unfold nt_consistent. intros Hc Hs Ho Hom. rewrite Hs in Hc.
  destruct Hc as (opp' & om' & Ho' & Hom' & Hne & Hw & _).
  rewrite NRP.settled_document_status.
  assert (opp' = opp) as -> by congruence. assert (om' = om) as -> by congruence.
  exists opp, om. unfold NR.settled_document.
  destruct (decide (N.creatorMove game = om)) as [Hmv|Hmv].
  - unfold NO.selected. apply Nat.eqb_eq in Hmv as Hmv'. rewrite Hmv'.
    cbn [N.set_winner N.set_ended N.opponent N.opponentMove N.creator
         N.creatorMove N.endedAt N.winner]. rewrite Hmv'. eauto 10.
  - rewrite NP.nt_selected_max by done. apply Nat.eqb_neq in Hmv as Hmv'.
    cbn [N.set_winner N.set_ended N.opponent N.opponentMove N.creator
         N.creatorMove N.endedAt N.winner]. rewrite Hmv'. eauto 10.
Qed.

Lemma nt_cancelled_consistent (game : N.Game) :
  nt_consistent game → N.status game = active →
  nt_consistent (N.set_status game cancelled).
Proof. unfold nt_consistent. intros Hc Hs. by rewrite Hs in Hc. Qed.

Lemma nt_step_consistent (schema_fee : Q) (s s' : NR.State) :
  NR.step schema_fee s s' → NR.settling s →
  (∀ id game, games (NR.store s) !! id = Some game → nt_consistent game) →
  ∀ id game, games (NR.store s') !! id = Some game → nt_consistent game.
Proof.
  intros Hstep [_ Hst] Hinv id game'.
  destruct Hstep as [user dto s|dto user s|id' user s|h now id' g before after s Hs];
    cbn [NR.store].
  - destruct (NP.nt_create_cases schema_fee user dto (NR.store s))
      as [[e ->]|(σ' & -> & _ & Hgs)]; [apply Hinv|].
    cbn [snd]. rewrite Hgs. intros [[_ <-]|[_ ?]]%lookup_insert_Some;
      [apply nt_newGame_consistent|by eapply Hinv].
  - unfold NR.joined_state.
    destruct (NRP.join_returns_cases dto user (NR.store s))
      as [[e ->]|(game & σ' & Hg & Hsa & Hne & _ & -> & _ & Hgs & _)];
      cbn [NR.store]; [apply Hinv|].
    rewrite Hgs. intros [[_ <-]|[_ ?]]%lookup_insert_Some; [|by eapply Hinv].
    apply nt_joined_consistent; [by eapply Hinv|done..].
  - destruct (NP.nt_cancel_cases id' user (NR.store s))
      as [[e ->]|(game & Hg & _ & Hsa & Hgs)]; [apply Hinv|].
    rewrite Hgs. intros [[_ <-]|[_ ?]]%lookup_insert_Some; [|by eapply Hinv].
    apply nt_cancelled_consistent; [by eapply Hinv|done].
  - destruct (Hst id' g) as (Hg & Hsj & [opp Ho] & [om Hom]).
    { rewrite Hs. apply elem_of_app. right. apply list_elem_of_here. }
    rewrite (NRP.pickWinner_games h id' g now (NR.store s) opp om) by done.
    intros [[_ <-]|[_ ?]]%lookup_insert_Some; [|by eapply Hinv].
    apply nt_settled_document_consistent; [by eapply Hinv|done..].
Qed.

(** X19.  Over any run of the non-transactional service, that is any sequence
    of [create], [join] and [cancel] calls, each taken until it returns, and of
    the settlements the joins have started, each landing at any later moment,
    the stored games stay consistent.  Nobody is ever the opponent in a game
    of their own; a game stored as [joined], as every game is when its [join]
    returns, has its opponent and the opponent's move and neither winner nor
    end date; an ended game has a winner exactly when the moves differ, the
    player with the larger move. *)
Theorem nt_games_stay_consistent (schema_fee : Q) (s s' : NR.State) :
  rtc (NR.step schema_fee) s s' →
  NR.settling s →
  (∀ id game, games (NR.store s) !! id = Some game → nt_consistent game) →
  NR.settling s' ∧
  (∀ id game, games (NR.store s') !! id = Some game → nt_consistent game) ∧
  (∀ id game, games (NR.store s') !! id = Some game → N.status game = joined →
     ∃ opponent opponentMove,
       N.opponent game = Some opponent ∧ N.opponentMove game = Some opponentMove ∧
       opponent ≠ N.creator game ∧ N.winner game = None ∧ N.endedAt game = None) ∧
  (∀ id game, games (NR.store s') !! id = Some game → N.status game = ended →
     ∃ opponent opponentMove,
       N.opponent game = Some opponent ∧ N.opponentMove game = Some opponentMove ∧
       opponent ≠ N.creator game ∧
       (N.creatorMove game = opponentMove → N.winner game = None) ∧
       ((N.creatorMove game < opponentMove)%nat → N.winner game = Some opponent) ∧
       ((opponentMove < N.creatorMove game)%nat → N.winner game = Some (N.creator game))).
Proof.
  intros Hsteps Hset Hinv.
  assert (NR.settling s' ∧
          ∀ id game, games (NR.store s') !! id = Some game → nt_consistent game)
    as [Hset' Hinv'].
  { revert Hset Hinv. induction Hsteps as [s|s s1 s' Hstep _ IH]; intros Hset Hinv; [done|].
    apply IH; [by eapply NRP.step_settling|by eapply nt_step_consistent]. }
  split; [done|]. split; [done|]. split.
  - intros id game Hg Hs. specialize (Hinv' id game Hg). unfold nt_consistent in Hinv'.
    by rewrite Hs in Hinv'.
  - intros id game Hg Hs. specialize (Hinv' id game Hg). unfold nt_consistent in Hinv'.
    rewrite Hs in Hinv'. destruct Hinv' as (opp & om & Ho & Hom & Hne & _ & Hw).
    exists opp, om. do 3 (split; [done|]). rewrite Hw.
    split; [intros ->; by rewrite Nat.eqb_refl|].
    split; intros Hlt.
    + rewrite (proj2 (Nat.eqb_neq _ _)) by lia.
      by rewrite (proj2 (Nat.ltb_ge _ _)) by lia.
    + rewrite (proj2 (Nat.eqb_neq _ _)) by lia.
      by rewrite (proj2 (Nat.ltb_lt _ _)) by lia.
Qed.

Lemma nt_games_stay_consistent_witness :
  (games (NR.store Scenario.nt_joined_state) !! 0%nat
     = Some (N.set_joined Scenario.nt_game Scenario.bob 1) ∧
   nt_consistent (N.set_joined Scenario.nt_game Scenario.bob 1)) ∧
  (games (NR.store Scenario.nt_run) !! 0%nat
     = Some (N.set_winner (N.set_ended (N.set_joined Scenario.nt_game Scenario.bob 1) 7)
                          Scenario.bob) ∧
   nt_consistent (N.set_winner (N.set_ended (N.set_joined Scenario.nt_game Scenario.bob 1) 7)
                               Scenario.bob)).
Proof.
  assert (∀ id game, games (NR.store (NR.MkState Scenario.nt_opened [])) !! id = Some game →
                     nt_consistent game) as Hinv.
  { intros id game Hg.
    change (({[ 0%nat := Scenario.nt_game ]} : gmap GameId N.Game) !! id = Some game) in Hg.
    apply lookup_singleton_Some in Hg as [_ <-]. by unfold nt_consistent. }
  assert (NR.step 4 (NR.MkState Scenario.nt_opened []) Scenario.nt_joined_state) as Hjoin.
  { apply (NR.step_join 4 {| N.gameId := 0%nat; N.move := 1%nat |} Scenario.bob). }
  split.
  - destruct (nt_games_stay_consistent 4 (NR.MkState Scenario.nt_opened [])
                Scenario.nt_joined_state) as (_ & Hc & _).
    + eapply rtc_l; [exact Hjoin|apply rtc_refl].
    + apply NRP.settling_nil.
    + exact Hinv.
    + assert (games (NR.store Scenario.nt_joined_state) !! 0%nat
              = Some (N.set_joined Scenario.nt_game Scenario.bob 1)) as Hg by (by vm_compute).
      split; [exact Hg|]. by apply (Hc 0%nat).
  - destruct (nt_games_stay_consistent 4 (NR.MkState Scenario.nt_opened [])
                Scenario.nt_run) as (_ & Hc & _).
    + eapply rtc_l; [exact Hjoin|].
      eapply rtc_l; [apply (NR.step_cancel 4 0%nat Scenario.alice)|].
      eapply rtc_l; [|apply rtc_refl].
      apply (NR.step_pickWinner 4 Scenario.heap 7%nat 0%nat
               (N.set_joined Scenario.nt_game Scenario.bob 1) [] []).
      by vm_compute.
    + apply NRP.settling_nil.
    + exact Hinv.
    + assert (games (NR.store Scenario.nt_run) !! 0%nat
              = Some (N.set_winner
                        (N.set_ended (N.set_joined Scenario.nt_game Scenario.bob 1) 7)
                        Scenario.bob)) as Hg by (by vm_compute).
      split; [exact Hg|]. by apply (Hc 0%nat).
Defined.

End ConsistencyProofs.

(** ** Moves beyond 0, 1 and 2 *)

Module MovesProofs.

Module T := Transactional.
Module TO := TransactionalOutcomes.

Lemma winningChoice_digits_checked :
  forallb (λ a, forallb (λ b,
      (a =? b)%nat
      || (T.winningChoice a b =?
            if ((Nat.min a b =? 0) && (Nat.max a b =? 2))%nat then 0 else Nat.max a b)%nat)
    (seq 0 10)) (seq 0 10) = true.
Proof. vm_compute. reflexivity. Qed.

Lemma winningChoice_two_digits_checked :
  forallb (λ a, forallb (λ b,
      negb ((2 <=? a) && (10 <=? b) && (b <? 10 * a))%nat
      || ((T.winningChoice a b =? a) && (T.winningChoice b a =? a))%nat)
    (seq 0 90)) (seq 0 10) = true.
Proof. vm_compute. reflexivity. Qed.

(** X20.  For moves that are non-negative whole numbers, the only moves of the
    model: [pickWinner] of the transactional service checks no range and
    orders the two moves as [sort()] does, by their decimal spelling.  Between
    two different moves from 0 to 9 the larger wins, except that 0 wins
    against 2; but a move [a] from 2 to 9 wins against every move [b] with
    10 ≤ b < 10 × a, whoever plays it: 9 wins against 10. *)
Theorem winningChoice_decimal_order :
  (∀ a b : nat, (a < 10)%nat → (b < 10)%nat → a ≠ b →
     T.winningChoice a b =
       if ((Nat.min a b =? 0) && (Nat.max a b =? 2))%nat then 0%nat else Nat.max a b) ∧
  (∀ (a b : nat) (creator opponent : UserId),
     (2 ≤ a ≤ 9)%nat → (10 ≤ b < 10 * a)%nat →
     T.winningChoice a b = a ∧ T.winningChoice b a = a ∧
     TO.selected creator opponent a b = Some creator ∧
     TO.selected creator opponent b a = Some opponent).
Proof.
  split.
  - intros a b Ha Hb Hne.
    pose proof winningChoice_digits_checked as H.
    rewrite forallb_forall in H. specialize (H a). rewrite forallb_forall in H.
    specialize (H ltac:(apply in_seq; lia) b ltac:(apply in_seq; lia)).
    apply orb_true_iff in H as [H|H]; [apply Nat.eqb_eq in H; done|].
    by apply Nat.eqb_eq in H.
  - intros a b creator opponent Ha Hb.
    pose proof winningChoice_two_digits_checked as H.
    rewrite forallb_forall in H. specialize (H a). rewrite forallb_forall in H.
    specialize (H ltac:(apply in_seq; lia) b ltac:(apply in_seq; lia)).
    apply orb_true_iff in H as [H|H].
    { apply negb_true_iff in H. rewrite !andb_false_iff in H.
      rewrite !Nat.leb_gt, Nat.ltb_ge in H. lia. }
    apply andb_true_iff in H as [H1 H2]. apply Nat.eqb_eq in H1, H2.
    do 2 (split; [done|]). unfold TO.selected. rewrite H1, H2, Nat.eqb_refl.
    rewrite !(proj2 (Nat.eqb_neq _ _)) by lia. done.
Qed.

Lemma winningChoice_decimal_order_witness :
  T.winningChoice 0 2 = 0%nat ∧ T.winningChoice 7 3 = 7%nat ∧
  T.winningChoice 9 10 = 9%nat ∧ T.winningChoice 10 9 = 9%nat ∧
  TO.selected Scenario.alice Scenario.bob 10 9 = Some Scenario.bob.
Proof.
  destruct winningChoice_decimal_order as [Hdigits Htwo].
  split; [apply (Hdigits 0 2)%nat; lia|].
  split; [apply (Hdigits 7 3)%nat; lia|].
  destruct (Htwo 9 10 Scenario.alice Scenario.bob)%nat as (H1 & H2 & _ & H4); [lia..|].
  split; [exact H1|]. split; [exact H2|exact H4].
Defined.

End MovesProofs.

(** ** What the non-transactional settlement announces *)

Module NonTransactionalEventsProofs.
Import NonTransactional NonTransactionalOutcomes.

(** X21.  The events of a successful [join] of the non-transactional service, in
    order: the joiner's debit; the game with the status ['joined']; on a tie
    the refunds of the creator and of the joiner, each with the new balance;
    the settled game.  The payout of a winner is not announced. *)
Theorem nt_join_events (h : Js.heap) (dto : JoinGameDto) (user : UserId) (now : nat)
    (σ : Store Game) (game : Game) :
  games σ !! gameId dto = Some game →
  status game = active →
  amount game <= balances σ user →
  user ≠ creator game →
  0 <= amount game →
  0 <= balances σ (creator game) →
  fee game <= 100 →
  ∃ σ',
    join h dto user now σ = (Ok tt, σ') ∧
    events σ' =
      events σ
      ++ [BalanceChange user (balances σ user + - amount game) false;
          GameUpdate (gameId dto) (set_joined game user (move dto))]
      ++ (if (creatorMove game =? move dto)%nat
          then [BalanceChange (creator game) (balances σ (creator game) + amount game) false;
                BalanceChange user (balances σ user + - amount game + amount game) false]
          else [])
      ++ [GameUpdate (gameId dto) (settled_game h game user (move dto) now)].
Proof.
  intros H Hs Hb Hne Ha Hc Hf. unfold join.
  rewrite H, bool_decide_eq_true_2 by done.
  rewrite Js_lt_false by done.
  apply Nat.eqb_neq in Hne as Hne'. rewrite Hne'. cbn [negb].
  pose proof (NonTransactionalProofs.payout_nonneg _ _ Ha Hf) as Hp. unfold payout in Hp.
  unfold settled_game, selected.
  unfold joining, detached, pickWinner, Promise_all; run_monad.
  cbn [opponent opponentMove set_joined set_ended creator creatorMove amount fee fst snd].
  ledger.
  cbn [opponent opponentMove set_joined set_ended creator creatorMove amount fee fst snd
       balances games events].
  destruct (creatorMove game =? move dto)%nat.
  - do 2 ledger. cbn [balances games events fst snd].
    eexists. split; [reflexivity|]. cbn [events]. by rewrite <-!app_assoc.
  - destruct (creatorMove game =? winningChoice h (creatorMove game) (move dto))%nat;
      ledger; cbn [balances games events fst snd];
      (eexists; split; [reflexivity|]); cbn [events]; by rewrite <-!app_assoc.
Qed.

Lemma nt_join_events_witness :
  ∃ σ',
    join Scenario.heap {| gameId := 0%nat; move := 0%nat |} Scenario.bob 7%nat
         Scenario.nt_opened = (Ok tt, σ') ∧
    events σ' =
      [BalanceChange Scenario.bob (1000 + - (100)) false;
       GameUpdate 0%nat (set_joined Scenario.nt_game Scenario.bob 0);
       BalanceChange Scenario.alice (1000 + 100) false;
       BalanceChange Scenario.bob (1000 + - (100) + 100) false;
       GameUpdate 0%nat (settled_game Scenario.heap Scenario.nt_game Scenario.bob 0 7)].
Proof.
  destruct (nt_join_events Scenario.heap {| gameId := 0%nat; move := 0%nat |} Scenario.bob
              7%nat Scenario.nt_opened Scenario.nt_game)
    as (σ' & Hj & Hev); [concrete..|].
  exists σ'. split; [exact Hj|exact Hev].
Defined.

End NonTransactionalEventsProofs.

(** ** The scheduler of the reconciliation *)

Module TaskControllerProofs.

Section Ticks.

Context {World : Type} (transactions : World → list Tasks.Transaction)
        (confirmMany : list Tasks.Transaction → World → World).

Lemma ticks_S (n : nat) (w : World) :
  TaskController.ticks World transactions confirmMany (S n) w =
    let pass := TaskController.checkDeposits World transactions confirmMany w in
    let rest := TaskController.ticks World transactions confirmMany n pass.2 in
    (pass.1 ++ rest.1, rest.2).
Proof.
  cbn [TaskController.ticks]. cbv zeta.
  destruct (TaskController.checkDeposits World transactions confirmMany w) as [effects w'].
  cbn [fst snd].
  by destruct (TaskController.ticks World transactions confirmMany n w') as [effects' w''].
Qed.

Lemma checkDeposits_effects (w : World) :
  ∃ line,
    (Tasks.getUnconfirmed World transactions w = [] ∧
     TaskController.checkDeposits World transactions confirmMany w = ([Tasks.Log line], w)) ∨
    (∃ batch w', batch ≠ [] ∧
       TaskController.checkDeposits World transactions confirmMany w
         = ([Tasks.Log line; Tasks.ConfirmMany batch], w')).
Proof.
  unfold TaskController.checkDeposits, Tasks.checkDeposits.
  destruct (Tasks.getUnconfirmed World transactions w) as [|t batch] eqn:Hb;
    cbn [length Nat.ltb Nat.leb]; eexists; [by left|right].
  by exists (t :: batch), (confirmMany (t :: batch) w).
Qed.

(** X22.  Firings of the cron while no transaction is pending: each logs the line
    [0 unconfirmed transactions] and does nothing else; [confirmMany] is not
    called and the state is left as it was.  In general every firing logs
    exactly one line, and [confirmMany] is called at most once per firing,
    never with an empty batch. *)
Theorem ticks_spec (n : nat) (w : World) :
  (Tasks.getUnconfirmed World transactions w = [] →
     TaskController.ticks World transactions confirmMany n w
       = (replicate n (Tasks.Log "0 unconfirmed transactions"), w)) ∧
  length (filter (λ e, Tasks.is_ConfirmMany e = false)
                 (TaskController.ticks World transactions confirmMany n w).1) = n ∧
  (length (filter (λ e, Tasks.is_ConfirmMany e = true)
                  (TaskController.ticks World transactions confirmMany n w).1) ≤ n)%nat ∧
  (∀ batch,
     Tasks.ConfirmMany batch ∈ (TaskController.ticks World transactions confirmMany n w).1 →
     batch ≠ []).
Proof.
  split.
  { intros Hidle. induction n as [|n IH]; [done|].
    rewrite ticks_S. unfold TaskController.checkDeposits, Tasks.checkDeposits.
    rewrite Hidle. cbn [length Nat.ltb Nat.leb fst snd]. by rewrite IH. }
  revert w. induction n as [|n IH]; intros w.
  { split; [done|]. split; [done|]. intros batch Hin. by apply elem_of_nil in Hin. }
  rewrite ticks_S. cbn zeta. cbn [fst snd].
  destruct (checkDeposits_effects w) as [line [[_ ->]|(batch & w' & Hne & ->)]];
    cbn [fst snd];
    [destruct (IH w) as (Hlog & Hconf & Hbatches)
    |destruct (IH w') as (Hlog & Hconf & Hbatches)];
    rewrite !filter_app, !length_app.
  - split; [cbn; repeat (case_decide; try done); cbn [length]; lia|].
    split; [cbn; repeat (case_decide; try done); cbn [length]; lia|].
    intros b [Hin|Hin]%elem_of_app; [|by apply Hbatches].
    by apply list_elem_of_singleton in Hin.
  - split; [cbn; repeat (case_decide; try done); cbn [length]; lia|].
    split; [cbn; repeat (case_decide; try done); cbn [length]; lia|].
    intros b [Hin|Hin]%elem_of_app; [|by apply Hbatches].
    apply elem_of_cons in Hin as [Hin|Hin]; [done|].
    apply list_elem_of_singleton in Hin. by injection Hin as ->.
Qed.

End Ticks.

Lemma ticks_spec_witness :
  TaskController.ticks (list Tasks.Transaction) id Scenario.mark 3
    (Scenario.mark [] Scenario.collection)
  = (replicate 3 (Tasks.Log "0 unconfirmed transactions"),
     Scenario.mark [] Scenario.collection).
Proof.
  apply (ticks_spec id Scenario.mark 3 (Scenario.mark [] Scenario.collection)).
  reflexivity.
Defined.

End TaskControllerProofs.

(** ** What [create] and [cancel] announce *)

Module NotificationsProofs.

Module T := Transactional.
Module TO := TransactionalOutcomes.
Module TP := TransactionalProofs.
Module N := NonTransactional.
Module NP := NonTransactionalProofs.

Lemma nt_create_events (schema_fee : Q) (user : UserId) (dto : N.CreateGameDto)
    (σ σ' : Store N.Game) :
  N.create schema_fee user dto σ = (Ok tt, σ') →
  events σ' =
    events σ ++ [BalanceChange user (balances σ' user) false;
                 NewGame (fresh (dom (games σ))) (N.newGame schema_fee user dto)].
Proof.
  unfold N.create. destruct (Js.lt _ _) eqn:Hlt; [done|].
  destruct (negb _); [done|].
  apply Js_lt_spec_false in Hlt.
  unfold try_catch; run_monad. ledger. intros [= <-]. cbn [events balances].
  fn_simpl. by rewrite <-app_assoc.
Qed.

Lemma nt_cancel_events (id : GameId) (user : UserId) (σ σ' : Store N.Game) :
  N.cancel id user σ = (Ok tt, σ') →
  ∃ game, games σ !! id = Some game ∧
          events σ' =
            events σ ++ [BalanceChange user (balances σ' user) false;
                         GameUpdate id (N.set_status game cancelled)].
Proof.
  unfold N.cancel. destruct (games σ !! id) as [game|]; [|done].
  destruct (user =? N.creator game)%nat eqn:Hu; [|done]. apply Nat.eqb_eq in Hu as ->.
  cbn [negb]. destruct (negb _); [done|].
  unfold Promise_all; run_monad. cbn [N.set_status N.creator N.amount].
  unfold N.changeBalance, UserService.changeBalance; run_monad.
  destruct (Js.lt _ _); cbn [fst snd]; [done|].
  intros [= <-]. exists game. split; [done|]. cbn [events balances].
  fn_simpl. by rewrite <-app_assoc.
Qed.

(** X23.  What the clients are told by [create] and [cancel].  A successful call
    of either service emits exactly two events: the balance change of the
    caller, carrying the balance that is stored when the call returns, and
    then the new game (for [create]) or the cancelled game (for [cancel]).  A
    failed [create] of either service and a failed [cancel] of the
    transactional service emit nothing. *)
Theorem create_cancel_events :
  (∀ (user : UserId) (dto : T.CreateGameDto) (σ σ' : Store T.Game),
     T.create user dto σ = (Ok tt, σ') →
     events σ' =
       events σ ++ [BalanceChange user (balances σ' user) false;
                    NewGame (fresh (dom (games σ))) (T.newGame user dto)]) ∧
  (∀ (id : GameId) (user : UserId) (σ σ' : Store T.Game),
     T.cancel id user σ = (Ok tt, σ') →
     ∃ game, games σ !! id = Some game ∧
             events σ' =
               events σ ++ [BalanceChange user (balances σ' user) false;
                            GameUpdate id (T.set_status game cancelled)]) ∧
  (∀ (schema_fee : Q) (user : UserId) (dto : N.CreateGameDto) (σ σ' : Store N.Game),
     N.create schema_fee user dto σ = (Ok tt, σ') →
     events σ' =
       events σ ++ [BalanceChange user (balances σ' user) false;
                    NewGame (fresh (dom (games σ))) (N.newGame schema_fee user dto)]) ∧
  (∀ (id : GameId) (user : UserId) (σ σ' : Store N.Game),
     N.cancel id user σ = (Ok tt, σ') →
     ∃ game, games σ !! id = Some game ∧
             events σ' =
               events σ ++ [BalanceChange user (balances σ' user) false;
                            GameUpdate id (N.set_status game cancelled)]) ∧
  (∀ (user : UserId) (dto : T.CreateGameDto) (σ σ' : Store T.Game) (e : error),
     T.create user dto σ = (Err e, σ') → events σ' = events σ) ∧
  (∀ (id : GameId) (user : UserId) (σ σ' : Store T.Game) (e : error),
     T.cancel id user σ = (Err e, σ') → events σ' = events σ) ∧
  (∀ (schema_fee : Q) (user : UserId) (dto : N.CreateGameDto) (σ σ' : Store N.Game)
     (e : error),
     N.create schema_fee user dto σ = (Err e, σ') → events σ' = events σ).
Proof.
  split; [|split; [|split; [|split; [|split; [|split]]]]].
  - intros user dto σ σ' Hc.
    destruct (TP.create_success_inv user dto σ σ' Hc) as (_ & _ & ->).
    cbn [TO.created events balances]. fn_simpl. by rewrite <-app_assoc.
  - intros id user σ σ' Hc.
    destruct (TP.cancel_cases id user σ) as [[e Hc']|(game & Hg & _ & _ & Hc')];
      rewrite Hc' in Hc; simplify_eq.
    exists game. split; [done|]. cbn [TO.refunded events balances]. fn_simpl.
    by rewrite <-app_assoc.
  - apply nt_create_events.
  - apply nt_cancel_events.
  - intros user dto σ σ' e Hc.
    destruct (TP.create_cases user dto σ) as [[e' Hc']|Hc']; rewrite Hc' in Hc; by simplify_eq.
  - intros id user σ σ' e Hc.
    destruct (TP.cancel_cases id user σ) as [[e' Hc']|(game & _ & _ & _ & Hc')];
      rewrite Hc' in Hc; by simplify_eq.
  - intros fee user dto σ σ' e Hc.
    destruct (NP.nt_create_cases fee user dto σ) as [[e' Hc']|(σ'' & Hc' & _)];
      rewrite Hc' in Hc; by simplify_eq.
Qed.

Lemma create_cancel_events_witness :
  events (T.create Scenario.alice Scenario.stake Scenario.empty).2 =
    [BalanceChange Scenario.alice
       (balances (T.create Scenario.alice Scenario.stake Scenario.empty).2 Scenario.alice)
       false;
     NewGame 0%nat Scenario.game] ∧
  events (N.cancel 0%nat Scenario.alice Scenario.nt_opened).2 =
    [BalanceChange Scenario.alice
       (balances (N.cancel 0%nat Scenario.alice Scenario.nt_opened).2 Scenario.alice) false;
     GameUpdate 0%nat (N.set_status Scenario.nt_game cancelled)].
Proof.
  destruct create_cancel_events as (Hcreate & _ & _ & Hcancel & _).
  split.
  - apply (Hcreate Scenario.alice Scenario.stake Scenario.empty). concrete.
  - destruct (Hcancel 0%nat Scenario.alice Scenario.nt_opened
                (N.cancel 0%nat Scenario.alice Scenario.nt_opened).2)
      as (game & Hg & Hev); [concrete|].
    injection Hg as <-. exact Hev.
Defined.

End NotificationsProofs.

(** ** The rooms of the user gateway *)

Module UserGatewayRoomsProofs.
Import UserGatewayRooms.

Lemma Server_to_join (client client' : Socket) (room room' : string)
    (rooms : gmap string (gset Socket)) :
  client' ∈ Server_to room' (Socket_join client room rooms) ↔
    client' ∈ Server_to room' rooms ∨ (client' = client ∧ room' = room).
Proof.
  unfold Server_to, Socket_join. destruct (decide (room = room')) as [->|Hne].
  - rewrite lookup_insert_eq. cbn [from_option id]. rewrite elem_of_union, elem_of_singleton.
    split; [intros [->|?]; eauto|intros [?|[-> _]]; eauto].
  - rewrite lookup_insert_ne by done.
    split; [by left|intros [?|[_ ?]]; [done|congruence]].
Qed.

(** X24.  Who is told of a user's balance changes.  After any sequence of
    connections and ['subscribeToProfile'] messages, the event
    ['balanceChange'] of a user reaches exactly the sockets that were in the
    user's room before and those that sent ['subscribeToProfile'] with the
    user's id: any socket may subscribe to any id, a connection alone
    subscribes to nothing, and no handler ever takes a socket out of a
    room. *)
Theorem balanceChange_reaches_subscribers (toString : UserId → string)
    (messages : list Message) (rooms : gmap string (gset Socket)) (_id : UserId) (client : Socket) :
  client ∈ balanceChange_recipients toString _id (foldl handle rooms messages) ↔
    client ∈ balanceChange_recipients toString _id rooms ∨
    SubscribeToProfile client (toString _id) ∈ messages.
Proof.
  unfold balanceChange_recipients. revert rooms.
  induction messages as [|message messages IH]; intros rooms; cbn [foldl].
  { split; [by left|]. intros [?|Hin]; [done|]. by apply elem_of_nil in Hin. }
  rewrite IH, elem_of_cons. destruct message as [c|c room]; cbn [handle].
  - unfold handleConnection. split; [intros [?|?]; eauto|].
    intros [?|[?|?]]; [by left|done|by right].
  - unfold handleSubscribeToProfile. rewrite Server_to_join. split.
    + intros [[?|[-> ->]]|?]; eauto.
    + intros [?|[[= -> ->]|?]]; eauto.
Qed.

End UserGatewayRoomsProofs.

(** ** Custodial keypairs *)

Module AssociatedKeypairProofs.
Import AssociatedKeypairService.

Lemma Array_from_bytes (bytes : list Byte.byte) :
  Forall (λ n, n < 256)%nat (Array_from bytes) ∧
  Byte.of_nat <$> Array_from bytes = Some <$> bytes.
Proof.
  unfold Array_from. split.
  - apply Forall_fmap, Forall_forall. intros b _. cbn.
    pose proof (Byte.to_nat_bounded b). lia.
  - rewrite <-list_fmap_compose. apply list_fmap_ext. intros _ b _. apply Byte.of_to_nat.
Qed.

(** X25.  A keypair that [create] has stored can be read back.  [create] saves
    the document under an id no document had and returns that id; [findById]
    with [selectSecretKey] then returns the public key in its text form and
    the secret key as numbers below 256 that are, in order, the bytes of
    the generated key; the other documents are read as before, and an id
    under which nothing is stored gives no document. *)
Theorem keypair_round_trip (PublicKey_toString : list Byte.byte → string)
    (secretKey_selected : bool) (keypair : Keypair) (collection : gmap ObjectId Stored) :
  let created := create PublicKey_toString keypair collection in
  findById secretKey_selected created.1 true collection = None ∧
  (∃ numbers,
     findById secretKey_selected created.1 true created.2
       = Some {| doc_publicKey := PublicKey_toString (publicKey keypair);
                 doc_secretKey := Some numbers |} ∧
     Forall (λ n, n < 256)%nat numbers ∧
     Byte.of_nat <$> numbers = Some <$> secretKey keypair) ∧
  (∃ doc, findById secretKey_selected created.1 false created.2 = Some doc ∧
          doc_publicKey doc = PublicKey_toString (publicKey keypair) ∧
          (secretKey_selected = false → doc_secretKey doc = None)) ∧
  (∀ _id selectSecretKey, _id ≠ created.1 →
     findById secretKey_selected _id selectSecretKey created.2
       = findById secretKey_selected _id selectSecretKey collection) ∧
  (∀ _id selectSecretKey, created.2 !! _id = None →
     findById secretKey_selected _id selectSecretKey created.2 = None).
Proof.
  intros created. unfold created, create, findById. cbn [fst snd].
  assert (collection !! fresh (dom collection) = None) as Hfresh
    by apply not_elem_of_dom, is_fresh.
  split; [by rewrite Hfresh|].
  split.
  { exists (Array_from (secretKey keypair)). rewrite lookup_insert_eq.
    split; [done|]. apply Array_from_bytes. }
  split.
  { eexists. rewrite lookup_insert_eq. split; [done|]. split; [done|]. by intros ->. }
  split.
  - intros _id b Hne. by rewrite lookup_insert_ne.
  - intros _id b ->. done.
Qed.

End AssociatedKeypairProofs.
